(** * Traffic Lights: a verified model of the negamax solver

    Shallow embedding of [traffic-lights.py] (the board, the symmetry hash,
    the move generator, the memoising negamax solver and the classification
    loop of the move selector), followed by the properties of the
    specification that concern them.

    Conventions of the embedding:
    - a Python [int] is a [Z]; a board (a tuple or list of ints) is a
      [list Z]; an index into it is a [nat];
    - [board[i]] raises [IndexError] when [i] is out of range: every function
      that indexes a board returns a [res], and [Raise IndexError] stands for
      the exception;
    - the cache is a Python [dict] from hashes to values: a [gmap Z Z], passed
      in and returned (the source mutates it in place);
    - the recursion of [game_value] is bounded by a fuel counter; running out
      of fuel is the separate outcome [Raise OutOfFuel], shown below never to
      happen once the fuel exceeds the rank of the board. *)

From stdpp Require Import base numbers option list gmap strings.

Open Scope Z_scope.

(** ** Outcomes *)

Inductive exn : Type :=
| IndexError
| OutOfFuel.

Inductive res (A : Type) : Type :=
| Ok (a : A)
| Raise (e : exn).

Arguments Ok {A} a.
Arguments Raise {A} e.

#[global] Instance res_ret : MRet res := fun _ a => Ok a.
#[global] Instance res_bind : MBind res := fun _ _ f m =>
  match m with
  | Ok a => f a
  | Raise e => Raise e
  end.

(** [board[i]] *)
Definition item (board : list Z) (i : nat) : res Z :=
  match board !! i with
  | Some b => Ok b
  | None => Raise IndexError
  end.

(** [enumerate(l)] *)
Definition enumerate {A : Type} (l : list A) : list (nat * A) :=
  zip (seq 0 (length l)) l.

(** ** Constants *)

Definition NAME : list string :=
  letter ← ["A"; "B"; "C"; "D"]; number ← ["1"; "2"; "3"; "4"];
  [(letter +:+ number)%string].

Definition INFINITY : Z := 3 ^ 12.
Definition ILLEGAL : Z := 2.
Definition UNKNOWN : Z := 0.
Definition PREV : Z := -1.
Definition NEXT : Z := 1.

(** ** [game_hash] *)

Definition INDICES : list (list nat) :=
  [ [0; 1; 2; 3; 4; 5; 6; 7; 8; 9; 10; 11];
    [11; 10; 9; 8; 7; 6; 5; 4; 3; 2; 1; 0];
    [8; 9; 10; 11; 4; 5; 6; 7; 0; 1; 2; 3];
    [3; 2; 1; 0; 7; 6; 5; 4; 11; 10; 9; 8] ]%nat.

(** [sum(board[i]<<(e*2) for e,i in ei)], the running total being [acc]. *)
Fixpoint sum_shifted (board : list Z) (ei : list (nat * nat)) (acc : Z) : res Z :=
  match ei with
  | [] => Ok acc
  | (e, i) :: rest =>
      b ← item board i;
      sum_shifted board rest (acc + b ≪ (Z.of_nat e * 2))
  end.

(** The generator handed to [min]: one sum per table of [INDICES]. *)
Fixpoint hash_sums (board : list Z) (tables : list (list nat)) : res (list Z) :=
  match tables with
  | [] => Ok []
  | table :: rest =>
      s ← sum_shifted board (enumerate table) 0;
      ss ← hash_sums board rest;
      Ok (s :: ss)
  end.

Definition game_hash (board : list Z) : res Z :=
  sums ← hash_sums board INDICES;
  match sums with
  | [] => Raise IndexError
  | s :: ss => Ok (foldl Z.min s ss)
  end.

(** ** [game_moves] *)

Definition LINES : list (nat * nat * nat) :=
  [ (0, 1, 2); (1, 2, 3); (4, 5, 6); (5, 6, 7); (8, 9, 10); (9, 10, 11);
    (0, 4, 8); (1, 5, 9); (2, 6, 10); (3, 7, 11);
    (0, 5, 10); (1, 6, 11); (2, 5, 8); (3, 6, 9) ]%nat.

(** [0 < board[x] == board[y] == board[z]]: a chained comparison, which
    stops at the first link that fails and does not evaluate what follows. *)
Definition line_full (board : list Z) (line : nat * nat * nat) : res bool :=
  let '(x, y, z) := line in
  bx ← item board x;
  if bool_decide (0 < bx) then
    by_ ← item board y;
    if bool_decide (bx = by_) then
      bz ← item board z;
      Ok (bool_decide (by_ = bz))
    else Ok false
  else Ok false.

(** [any(... for x,y,z in lines)]: stops at the first line that is full. *)
Fixpoint any_line (board : list Z) (lines : list (nat * nat * nat)) : res bool :=
  match lines with
  | [] => Ok false
  | line :: rest =>
      full ← line_full board line;
      if (full : bool) then Ok true else any_line board rest
  end.

(** [tuple(b+1 if i==j else b for j,b in enumerate(board))] *)
Definition bump (i : nat) (board : list Z) : list Z :=
  (fun jb : nat * Z => if bool_decide (i = jb.1) then jb.2 + 1 else jb.2)
    <$> enumerate board.

(** The loop [for i in cells: if board[i] < 3: moves.append(...)]. *)
Fixpoint collect_moves (board : list Z) (cells : list nat) (moves : list (list Z))
  : res (list (list Z)) :=
  match cells with
  | [] => Ok moves
  | i :: rest =>
      b ← item board i;
      if bool_decide (b < 3)
      then collect_moves board rest (moves ++ [bump i board])
      else collect_moves board rest moves
  end.

Definition game_moves (board : list Z) : res (list (list Z)) :=
  over ← any_line board LINES;
  if (over : bool) then Ok [] else collect_moves board (seq 0 12) [].

(** ** [game_value] *)

(** The loop over the moves of [game_value], [rec] being the recursive call
    and [depth] the budget already decremented:
    [value = max(value, -game_value(move, depth-1, cache))], left as soon as
    [value == NEXT]. *)
Fixpoint best_reply (rec : list Z → Z → gmap Z Z → res (Z * gmap Z Z))
    (depth : Z) (moves : list (list Z)) (value : Z) (cache : gmap Z Z)
  : res (Z * gmap Z Z) :=
  match moves with
  | [] => Ok (value, cache)
  | move :: rest =>
      '(v, cache) ← rec move depth cache;
      let value := Z.max value (- v) in
      if bool_decide (value = NEXT) then Ok (value, cache)
      else best_reply rec depth rest value cache
  end.

Fixpoint game_value_fuel (fuel : nat) (board : list Z) (depth : Z)
    (cache : gmap Z Z) : res (Z * gmap Z Z) :=
  match fuel with
  | O => Raise OutOfFuel
  | S fuel =>
      h ← game_hash board;
      match cache !! h with
      | Some v => Ok (v, cache)
      | None =>
          moves ← game_moves board;
          '(value, cache) ←
            match moves with
            | [] => Ok (PREV, cache)
            | _ :: _ =>
                if bool_decide (depth = 0) then Ok (UNKNOWN, cache)
                else best_reply (game_value_fuel fuel) (depth - 1) moves PREV cache
            end;
          if bool_decide (value ≠ UNKNOWN)
          then Ok (value, <[h := value]> cache)
          else Ok (value, cache)
      end
  end.

(** The rank of a board: how many moves can still be played on its first
    twelve cells. Every move lowers it by one, so it bounds the depth of the
    recursion whatever the budget. *)
Definition rank (board : list Z) : nat :=
  Z.to_nat (foldr Z.add 0 ((fun b => Z.max 0 (3 - b)) <$> take 12 board)).

(** [game_value(board, depth, cache)], run with fuel above the rank. *)
Definition game_value (board : list Z) (depth : Z) (cache : gmap Z Z)
  : res (Z * gmap Z Z) :=
  game_value_fuel (S (rank board)) board depth cache.

Definition empty_board : list Z := replicate 12 0.

(** ** The classification loop of [move] *)

(** The assistant [AI] is a dict holding ["player"] and ["depth"] under
    string keys and the cache under integer keys; [game_value] only reads and
    writes integer keys, so the three are kept apart in a record. *)
Record assistant : Type := Assistant {
  player : string;
  depth : Z;
  cache : gmap Z Z
}.

(** The locals [W, U, L, moves, values] of [move]. *)
Record analysis : Type := Analysis {
  W : list string;
  U : list string;
  L : list string;
  moves : gmap string (option (list Z));
  values : list Z
}.

Definition analysis_init : analysis :=
  {| W := []; U := []; L := []; moves := {[ "X"%string := None ]};
     values := replicate 12 ILLEGAL |}.

(** [[i for i in cells if board[i] != move[i]]] *)
Fixpoint changed_cells (board move : list Z) (cells : list nat) : res (list nat) :=
  match cells with
  | [] => Ok []
  | i :: rest =>
      b ← item board i;
      m ← item move i;
      changed ← changed_cells board move rest;
      Ok (if bool_decide (b ≠ m) then i :: changed else changed)
  end.

(** One turn of the loop [for move in game_moves(board)]. The assignment
    [values[cell] = ...] is in range, [cell] being below 12. *)
Definition classify_step (board : list Z) (depth : Z)
    (st : analysis * gmap Z Z) (move : list Z) : res (analysis * gmap Z Z) :=
  let '(a, cache) := st in
  changed ← changed_cells board move (seq 0 12);
  match changed with
  | [] => Raise IndexError
  | cell :: _ =>
      match NAME !! cell with
      | None => Raise IndexError
      | Some name =>
          '(v, cache) ← game_value move depth cache;
          let moves := <[name := Some move]> (moves a) in
          let values := <[cell := v]> (values a) in
          if bool_decide (v = PREV) then
            Ok ({| W := W a ++ [name]; U := U a; L := L a;
                   moves := moves; values := values |}, cache)
          else if bool_decide (v = NEXT) then
            Ok ({| W := W a; U := U a; L := L a ++ [name];
                   moves := moves; values := values |}, cache)
          else
            Ok ({| W := W a; U := U a ++ [name]; L := L a;
                   moves := moves; values := values |}, cache)
      end
  end.

Fixpoint classify_loop (board : list Z) (depth : Z) (ms : list (list Z))
    (st : analysis * gmap Z Z) : res (analysis * gmap Z Z) :=
  match ms with
  | [] => Ok st
  | move :: rest =>
      st ← classify_step board depth st move;
      classify_loop board depth rest st
  end.

(** "Compute and classify all legal moves": the first half of [move]. *)
Definition classify (board : list Z) (AI : assistant) : res (analysis * assistant) :=
  ms ← game_moves board;
  '(a, c) ← classify_loop board (depth AI) ms (analysis_init, cache AI);
  Ok (a, {| player := player AI; depth := depth AI; cache := c |}).

(** ** Notions of the specification *)

(** A board of the data model: twelve cells, each in {0,1,2,3}. *)
Definition valid_board (board : list Z) : Prop :=
  length board = 12%nat ∧ Forall (fun b => 0 ≤ b ≤ 3) board.

(** The image of a board under the symmetry given by an index table. *)
Definition permute (table : list nat) (board : list Z) : list Z :=
  (fun i => board !!! i) <$> table.

(** A line whose three cells hold the same colour. *)
Definition three_in_line (board : list Z) (line : nat * nat * nat) : Prop :=
  0 < board !!! line.1.1 ∧
  board !!! line.1.1 = board !!! line.1.2 ∧
  board !!! line.1.2 = board !!! line.2.

(** The game is over: some line of [LINES] is complete. *)
Definition game_over (board : list Z) : Prop :=
  Exists (three_in_line board) LINES.

(** The successor of a board that plays cell [i]. *)
Definition play (i : nat) (board : list Z) : list Z :=
  <[i := board !!! i + 1]> board.

(** The cells that can still be played, in increasing order. *)
Definition playable (board : list Z) : list nat :=
  filter (fun i => board !!! i < 3) (seq 0 12).

(** The sum of the cell values. *)
Definition cells_sum (board : list Z) : Z := foldr Z.add 0 board.

(** The packed integer of a sequence of cells, lowest cell first. *)
Definition packed (cells : list Z) : Z := foldr (fun b r => b + 4 * r) 0 cells.

(** The cache holds game values only. *)
Definition game_valued (cache : gmap Z Z) : Prop :=
  ∀ h v, cache !! h = Some v → v = PREV ∨ v = UNKNOWN ∨ v = NEXT.

(** The cache holds no [UNKNOWN]. *)
Definition no_unknown (cache : gmap Z Z) : Prop :=
  ∀ h, cache !! h ≠ Some UNKNOWN.

(** The value of a position under perfect play, whoever searches it and
    however deep: [PREV] when the game is over or every move leads to a
    position won by its mover, [NEXT] when some move leads to a position
    lost by the player who then has to move. *)
Inductive value_of : list Z → Z → Prop :=
| value_over board :
    game_moves board = Ok [] → value_of board PREV
| value_win board ms m :
    game_moves board = Ok ms → m ∈ ms → value_of m PREV → value_of board NEXT
| value_loss board ms :
    game_moves board = Ok ms → ms ≠ [] →
    (∀ m, m ∈ ms → value_of m NEXT) → value_of board PREV.

(** Every entry of the cache is the hash of some board and holds the value
    under perfect play of every board with that hash. *)
Definition sound (cache : gmap Z Z) : Prop :=
  ∀ h v, cache !! h = Some v →
    (∃ board, valid_board board ∧ game_hash board = Ok h) ∧
    (∀ board, valid_board board → game_hash board = Ok h → value_of board v).

(** A cache filled, from empty, by calls of [game_value] at budget [d]. *)
Inductive populated (d : Z) : gmap Z Z → Prop :=
| populated_empty : populated d ∅
| populated_call cache board v cache' :
    populated d cache → valid_board board →
    game_value board d cache = Ok (v, cache') → populated d cache'.

(** Entries of [c'] that [c] does not have are [PREV] or [NEXT]. *)
Definition fresh_resolved (c c' : gmap Z Z) : Prop :=
  ∀ h w, c' !! h = Some w → c !! h = None → w = PREV ∨ w = NEXT.

(** The cache holds [PREV] and [NEXT] only. *)
Definition resolved (c : gmap Z Z) : Prop :=
  ∀ h v, c !! h = Some v → v = PREV ∨ v = NEXT.

#[local] Instance three_in_line_dec board line : Decision (three_in_line board line).
Proof. unfold three_in_line. apply _. Defined.

#[local] Instance game_over_dec board : Decision (game_over board).
Proof. unfold game_over. apply _. Defined.

(** The locals of [move] after the turn of the loop that finds the value
    [v] for the move [m] of cell [cell], named [name]. *)
Definition recorded (a : analysis) (name : string) (cell : nat) (m : list Z)
    (v : Z) : analysis :=
  {| W := if bool_decide (v = PREV) then W a ++ [name] else W a;
     U := if bool_decide (v = PREV) then U a
          else if bool_decide (v = NEXT) then U a else U a ++ [name];
     L := if bool_decide (v = PREV) then L a
          else if bool_decide (v = NEXT) then L a ++ [name] else L a;
     moves := <[name := Some m]> (moves a);
     values := <[cell := v]> (values a) |}.

(** ** The geometry of the lines *)

(** The board is a grid of 3 rows and 4 columns, stored row by row. *)
Definition cell_at (r c : Z) : nat := Z.to_nat (4 * r + c).

(** The three cells that start at row [r], column [c] and step by
    [(dr, dc)], when all three lie on the grid. *)
Definition window (dr dc r c : Z) : list (nat * nat * nat) :=
  if bool_decide (0 ≤ r + 2 * dr < 3 ∧ 0 ≤ c + 2 * dc < 4)
  then [(cell_at r c, cell_at (r + dr) (c + dc), cell_at (r + 2 * dr) (c + 2 * dc))]
  else [].

(** All the windows in one direction, row by row. *)
Definition windows (dr dc : Z) : list (nat * nat * nat) :=
  r ← seqZ 0 3; c ← seqZ 0 4; window dr dc r c.

(** The table of the symmetry that sends row [r], column [c] to row
    [fr r], column [fc c]. *)
Definition symmetry_table (fr fc : Z → Z) : list nat :=
  r ← seqZ 0 3; c ← seqZ 0 4; [cell_at (fr r) (fc c)].

(** A line of three adjacent cells of row [r]. *)
Definition in_row (r : nat) (line : nat * nat * nat) : Prop :=
  (line.1.1 `div` 4 = r ∧ line.2 `div` 4 = r ∧
   line.1.2 = line.1.1 + 1 ∧ line.2 = line.1.1 + 2)%nat.

(** A column of the grid. *)
Definition is_column (line : nat * nat * nat) : Prop :=
  (line.1.2 = line.1.1 + 4 ∧ line.2 = line.1.1 + 8)%nat.

(** A diagonal through the three rows, to the right or to the left. *)
Definition is_diagonal (line : nat * nat * nat) : Prop :=
  ((line.1.2 = line.1.1 + 5 ∧ line.2 = line.1.1 + 10 ∧ line.1.1 `mod` 4 ≤ 1) ∨
   (line.1.2 = line.1.1 + 3 ∧ line.2 = line.1.1 + 6 ∧ 2 ≤ line.1.1 `mod` 4))%nat
  ∧ (line.1.1 < 4)%nat.

#[local] Instance in_row_dec r line : Decision (in_row r line).
Proof. unfold in_row. apply _. Defined.

#[local] Instance is_column_dec line : Decision (is_column line).
Proof. unfold is_column. apply _. Defined.

#[local] Instance is_diagonal_dec line : Decision (is_diagonal line).
Proof. unfold is_diagonal. apply _. Defined.

(** ** Sample positions *)

(** A won position: the first row holds three greens. *)
Definition won_board : list Z := [1; 1; 1; 0; 0; 0; 0; 0; 0; 0; 0; 0].

(** The position before it, and its half turn. *)
Definition open_board : list Z := [1; 1; 0; 0; 0; 0; 0; 0; 0; 0; 0; 0].
Definition turned_board : list Z := [0; 0; 0; 0; 0; 0; 0; 0; 0; 0; 1; 1].

(** The twelve first moves, and an assistant of depth 0 with an empty cache. *)
Definition first_moves : list (list Z) :=
  (fun i => <[i := 1]> empty_board) <$> seq 0 12.
Definition fresh_AI : assistant :=
  {| player := "computer"; depth := 0; cache := ∅ |}.

(** The assistant of the human, of depth 0 with an empty cache, and an
    all-knowing assistant of the computer that has yet to learn. *)
Definition fresh_human : assistant :=
  {| player := "human"; depth := 0; cache := ∅ |}.
Definition deep_AI : assistant :=
  {| player := "computer"; depth := INFINITY; cache := ∅ |}.

(** ** [show] *)

(** [t[i]] for an [int] index: a negative index counts from the end, and an
    index out of range raises [IndexError]. *)
Definition subscript {A : Type} (t : list A) (i : Z) : res A :=
  let j := if bool_decide (i < 0) then i + Z.of_nat (length t) else i in
  if bool_decide (0 ≤ j) then
    match t !! Z.to_nat j with
    | Some x => Ok x
    | None => Raise IndexError
    end
  else Raise IndexError.

(** [[t[i] for i in indices]] *)
Fixpoint subscripts {A : Type} (t : list A) (indices : list Z) : res (list A) :=
  match indices with
  | [] => Ok []
  | i :: rest =>
      x ← subscript t i;
      xs ← subscripts t rest;
      Ok (x :: xs)
  end.

(** [l[a:b]] for constant bounds [0 <= a <= b]: a slice never raises. *)
Definition slice {A : Type} (l : list A) (a b : nat) : list A :=
  take (b - a) (drop a l).

(** The tuples [B] and [V] of [show]. *)
Definition show_B : list string := [" 0 "; " 1 "; " 2 "; " 3 "].
Definition show_V : list string := [" ? "; " L "; "   "; " W "].

(** [[B[i] for i in board[a:b]] + [V[i] for i in values[a:b]]] *)
Definition show_row (board values : list Z) (a b : nat) : res (list string) :=
  bs ← subscripts show_B (slice board a b);
  vs ← subscripts show_V (slice values a b);
  Ok (bs ++ vs).

(** [template.format( *args )], the template being cut at its fields [{:}]
    into [pieces]: too few arguments raise [IndexError], arguments in excess
    are ignored. *)
Fixpoint format (pieces args : list string) : res string :=
  match pieces with
  | [] => Ok ""%string
  | [p] => Ok p
  | p :: rest =>
      match args with
      | [] => Raise IndexError
      | a :: args => s ← format rest args; Ok (p +:+ a +:+ s)
      end
  end.

(** A sequence of [print] statements: the lines printed, and how it ends.
    The argument of each [print] is evaluated when its turn comes. *)
Fixpoint print_all (lines : list (res string)) : list string * res () :=
  match lines with
  | [] => ([], Ok ())
  | Ok s :: rest => let '(out, r) := print_all rest in (s :: out, r)
  | Raise e :: _ => ([], Raise e)
  end.

(** The text of the ten lines; the first begins with a line feed. *)
Definition show_top : string :=
  String (Ascii.ascii_of_nat 10) " ┌─────────────────────┐                     ".
Definition show_head : string := " │     1   2   3   4   │       AI analysis   ".
Definition show_open : string := " │   ╔═══╤═══╤═══╤═══╗ │    ┌───┬───┬───┬───┐".
Definition show_A : list string :=
  [" │ A ║"; "│"; "│"; "│"; "║ │    │"; "│"; "│"; "│"; "│"].
Definition show_rule : string := " │   ╟───┼───┼───┼───╢ │    ├───┼───┼───┼───┤".
Definition show_B_row : list string :=
  [" │ B ║"; "│"; "│"; "│"; "║ │    │"; "│"; "│"; "│"; "│"].
Definition show_C : list string :=
  [" │ C ║"; "│"; "│"; "│"; "║ │    │"; "│"; "│"; "│"; "│"].
Definition show_close : string := " │   ╚═══╧═══╧═══╧═══╝ │    └───┴───┴───┴───┘".
Definition show_bottom : string := " └─────────────────────┘                     ".

(** [show(board, values)]: what it prints and how it ends. The three rows
    are built before anything is printed. *)
Definition show (board values : list Z) : list string * res () :=
  match (R1 ← show_row board values 0 4;
         R2 ← show_row board values 4 8;
         R3 ← show_row board values 8 12;
         Ok (R1, R2, R3)) with
  | Raise e => ([], Raise e)
  | Ok (R1, R2, R3) =>
      print_all [ Ok show_top; Ok show_head; Ok show_open;
                  format show_A R1; Ok show_rule;
                  format show_B_row R2; Ok show_rule;
                  format show_C R3; Ok show_close; Ok show_bottom ]
  end.

(** ** [move] *)

(** [random.choice(l)], [r] being what the generator draws: the element at
    some index below the length, [IndexError] on an empty list. *)
Definition choice (l : list string) (r : nat) : res string :=
  match l !! (r `mod` length l)%nat with
  | Some x => Ok x
  | None => Raise IndexError
  end.

(** The loop [while move not in moves]: [answers] are the successive values
    of [input(...).upper()[:2]]; an [input] that raises leaves [move] as it
    was, which is again not in [moves], so it counts as no answer. When the
    answers run out the loop waits for ever, which [Raise OutOfFuel]
    stands for. *)
Fixpoint ask (moves : gmap string (option (list Z))) (answers : list string)
  : res (string * list string) :=
  match answers with
  | [] => Raise OutOfFuel
  | s :: rest =>
      match moves !! s with
      | Some _ => Ok (s, rest)
      | None => ask moves rest
      end
  end.

(** [move(board, AI)]: the value returned, the assistant as the call leaves
    it and the answers not yet read. The value is [moves[move]]: [Some (Some
    b)] is the board [b], [Some None] is [None] and the outer [None] stands
    for the [KeyError] of a missing key. What is printed is left out, not
    the exception that [show] may raise. *)
Definition move (board : list Z) (AI : assistant) (r : nat)
    (answers : list string)
  : res (option (option (list Z)) * assistant * list string) :=
  '(a, AI) ← classify board AI;
  _ ← (show board (values a)).2;
  '(name, answers) ←
    (if bool_decide (player AI = "computer"%string) then
       name ← match W a, U a, L a with
              | _ :: _, _, _ => choice (W a) r
              | [], _ :: _, _ => choice (U a) r
              | [], [], _ :: _ => choice (L a) r
              | [], [], [] => Ok "X"%string
              end;
       Ok (name, answers)
     else ask (moves a) answers);
  Ok (moves a !! name, AI, answers).

(** ** [geneate_AIs] *)

(** The two assistants, the caches loaded when [preload_info] is set:
    [computer_AI.update(human_AI)] copies the cache of the one into the
    still empty cache of the other. The messages and the timer are left
    out. *)
Definition geneate_AIs (computer human : Z) (preload_info : bool)
  : res (assistant * assistant) :=
  '(computer_AI, human_AI) ←
    (if preload_info then
       if bool_decide (human < computer) then
         '(_, human_AI) ← game_value empty_board human ∅;
         '(_, computer_AI) ← game_value empty_board computer (human_AI ∪ ∅);
         Ok (computer_AI, human_AI)
       else
         '(_, computer_AI) ← game_value empty_board computer ∅;
         '(_, human_AI) ← game_value empty_board human (computer_AI ∪ ∅);
         Ok (computer_AI, human_AI)
     else Ok (∅, ∅));
  Ok ({| player := "computer"; depth := computer; cache := computer_AI |},
      {| player := "human"; depth := human; cache := human_AI |}).

(** ** One game of [traffic_lights] *)

(** How a game ends: "You have won!", "You have lost!", or [move] returned
    [None]. *)
Inductive ending : Type :=
| HumanWon
| ComputerWon
| Abandoned.

(** The loop that plays one game, [n] counting the turns and [picks n] being
    what the random generator draws at turn [n]. The outer [None] of the
    result stands for a [KeyError] in [move]. *)
Fixpoint game_loop (fuel n : nat) (board : list Z) (is_computer_turn : bool)
    (computer_AI human_AI : assistant) (picks : nat → nat)
    (answers : list string)
  : res (option (ending * assistant * assistant * list string)) :=
  match fuel with
  | O => Raise OutOfFuel
  | S fuel =>
      ms ← game_moves board;
      match ms with
      | [] =>
          _ ← (show board (replicate 12 ILLEGAL)).2;
          Ok (Some (if is_computer_turn then HumanWon else ComputerWon,
                    computer_AI, human_AI, answers))
      | _ :: _ =>
          '(next, computer_AI, human_AI, answers) ←
            (if is_computer_turn then
               '(next, AI, answers) ← move board computer_AI (picks n) answers;
               Ok (next, AI, human_AI, answers)
             else
               '(next, AI, answers) ← move board human_AI (picks n) answers;
               Ok (next, computer_AI, AI, answers));
          match next with
          | None => Ok None
          | Some None => Ok (Some (Abandoned, computer_AI, human_AI, answers))
          | Some (Some board) =>
              game_loop fuel (S n) board (negb is_computer_turn)
                computer_AI human_AI picks answers
          end
      end
  end.


(** A sequence of positions, each a move of the one before. *)
Inductive game_path : list Z → list (list Z) → Prop :=
| game_path_nil board : game_path board []
| game_path_cons board ms m path :
    game_moves board = Ok ms → m ∈ ms → game_path m path →
    game_path board (m :: path).

(** ** What [show] displays *)

(** The text of a cell of the board, and of a cell of the analysis. *)
Definition cell_label (b : Z) : string :=
  if bool_decide (b = 0) then " 0 "
  else if bool_decide (b = 1) then " 1 "
  else if bool_decide (b = 2) then " 2 " else " 3 ".

Definition value_label (v : Z) : string :=
  if bool_decide (v = PREV) then " W "
  else if bool_decide (v = NEXT) then " L "
  else if bool_decide (v = UNKNOWN) then " ? " else "   ".

(** A value that [move] stores in [values]. *)
Definition shown_value (v : Z) : Prop :=
  v = PREV ∨ v = UNKNOWN ∨ v = NEXT ∨ v = ILLEGAL.

(** The buckets and the array [values] say the same of every cell. *)
Definition agree (a : analysis) : Prop :=
  length (values a) = 12%nat ∧ Forall shown_value (values a) ∧
  ∀ i, (i < 12)%nat →
    (NAME !!! i ∈ W a ↔ values a !! i = Some PREV) ∧
    (NAME !!! i ∈ L a ↔ values a !! i = Some NEXT) ∧
    (NAME !!! i ∈ U a ↔ values a !! i = Some UNKNOWN).

(** ** Deeper searches *)

(** A search of the position [q], or of a symmetric image of it, at the
    budget [D] minus the sum of its cells resolves it, whatever right cache
    it starts from that holds at least [c0]. *)
Definition resolves (D : Z) (c0 : gmap Z Z) (q : list Z) : Prop :=
  ∀ table fuel c2 v c2',
    table ∈ INDICES → sound c2 → c0 ⊆ c2 →
    game_value_fuel fuel (permute table q) (D - cells_sum q) c2 = Ok (v, c2') →
    v ≠ UNKNOWN.

(** Such a search resolves every position that the cache [c1] knows. *)
Definition entries_resolve (D : Z) (c0 c1 : gmap Z Z) : Prop :=
  ∀ h w q, c1 !! h = Some w → valid_board q → game_hash q = Ok h →
    resolves D c0 q.

(** ** Tactics *)

(** Replace a board of known length twelve by its twelve cells. *)
Ltac cells12 board H :=
  do 12 (destruct board as [|? board]; [discriminate H|]);
  destruct board; [clear H|discriminate H].

(** Case analysis on a table of [INDICES], and on a line of [LINES]. *)
Ltac in_INDICES H :=
  unfold INDICES in H; apply list_elem_of_In in H; simpl in H;
  destruct H as [<-|[<-|[<-|[<-|[]]]]].

Ltac in_LINES H :=
  unfold LINES in H;
  repeat (apply elem_of_cons in H as [->|H]); [..|by apply elem_of_nil in H].

(** Find, among the lines, one that the hypotheses show complete. *)
Ltac find_line :=
  first [ solve [apply Exists_cons_hd; unfold three_in_line in *; simpl in *; lia]
        | apply Exists_cons_tl; find_line ].

(** A sample position is a board of the data model. *)
Ltac sample_valid := split; [reflexivity|repeat constructor; lia].

(** * Properties *)

Example NAME_val : NAME = ["A1"; "A2"; "A3"; "A4"; "B1"; "B2"; "B3"; "B4";
                           "C1"; "C2"; "C3"; "C4"; "D1"; "D2"; "D3"; "D4"]%string.
Proof. reflexivity. Qed.


Example game_hash_corner :
  game_hash [0; 0; 0; 2; 0; 0; 0; 0; 0; 0; 0; 0] = Ok 2.
Proof. vm_compute. reflexivity. Qed.

Example game_hash_short : game_hash [1; 1; 1] = Raise IndexError.
Proof. reflexivity. Qed.

Example game_moves_short : game_moves [1; 1; 1] = Ok [].
Proof. reflexivity. Qed.

Example game_moves_full_line :
  game_moves [2; 2; 2; 0; 0; 0; 0; 0; 0; 0; 0; 0] = Ok [].
Proof. reflexivity. Qed.

Example game_moves_count :
  length <$> (match game_moves [3; 0; 3; 0; 0; 0; 0; 0; 0; 0; 0; 0] with
              | Ok ms => Some ms | Raise _ => None end) = Some 10%nat.
Proof. reflexivity. Qed.

Example game_value_depth1 : game_value empty_board 1 ∅ = Ok (UNKNOWN, ∅).
Proof. vm_compute. reflexivity. Qed.

(** ** Outcomes and indexing *)

Lemma bind_Ok {A B} (f : A → res B) (m : res A) (b : B) :
  m ≫= f = Ok b ↔ ∃ a, m = Ok a ∧ f a = Ok b.
Proof.
  destruct m as [a|e]; simpl; split.
  - eauto.
  - by intros (? & [= <-] & ?).
  - discriminate.
  - by intros (? & ? & ?).
Qed.

Lemma bind_Ok_l {A B} (f : A → res B) (a : A) : Ok a ≫= f = f a.
Proof. reflexivity. Qed.

Lemma item_lookup board i b : board !! i = Some b → item board i = Ok b.
Proof. unfold item. by intros ->. Qed.

Lemma item_total board i :
  (i < length board)%nat → item board i = Ok (board !!! i).
Proof.
  intros Hi. apply item_lookup. by apply list_lookup_lookup_total_lt.
Qed.

Lemma item_short board i :
  (length board ≤ i)%nat → item board i = Raise IndexError.
Proof. intros Hi. unfold item. by rewrite lookup_ge_None_2. Qed.

(** ** The hash is the least of four packed integers *)

Lemma sum_shifted_packed board table k acc :
  Forall (fun i => i < length board)%nat table →
  sum_shifted board (zip (seq k (length table)) table) acc
  = Ok (acc + 4 ^ Z.of_nat k * packed (permute table board)).
Proof.
  intros Htable. revert k acc.
  induction Htable as [|i table Hi _ IH]; intros k acc; simpl.
  - f_equal. lia.
  - rewrite (item_total _ _ Hi). simpl. rewrite IH. f_equal.
    rewrite Z.shiftl_mul_pow2 by lia.
    replace (2 ^ (Z.of_nat k * 2)) with (4 ^ Z.of_nat k)
      by (rewrite Z.mul_comm, Z.pow_mul_r by lia; done).
    replace (Z.of_nat (S k)) with (Z.of_nat k + 1) by lia.
    rewrite Z.pow_add_r by lia. unfold packed. simpl. ring.
Qed.

Lemma sum_shifted_short board table k acc :
  Exists (fun i => length board ≤ i)%nat table →
  sum_shifted board (zip (seq k (length table)) table) acc = Raise IndexError.
Proof.
  intros Htable. revert k acc.
  induction table as [|i table IH]; intros k acc.
  - by apply Exists_nil in Htable.
  - simpl. destruct (decide (length board ≤ i)%nat) as [Hi|Hi].
    + by rewrite item_short.
    + rewrite item_total by lia. simpl. apply IH.
      apply Exists_cons in Htable as [?|?]; [lia|done].
Qed.

Lemma table_sum_packed board table :
  Forall (fun i => i < length board)%nat table →
  sum_shifted board (enumerate table) 0 = Ok (packed (permute table board)).
Proof.
  intros Htable. unfold enumerate. rewrite sum_shifted_packed by done.
  f_equal. change (4 ^ Z.of_nat 0) with 1. lia.
Qed.

Lemma game_hash_packed board :
  (12 ≤ length board)%nat →
  game_hash board =
  Ok (foldl Z.min (packed (permute [0; 1; 2; 3; 4; 5; 6; 7; 8; 9; 10; 11]%nat board))
        [ packed (permute [11; 10; 9; 8; 7; 6; 5; 4; 3; 2; 1; 0]%nat board);
          packed (permute [8; 9; 10; 11; 4; 5; 6; 7; 0; 1; 2; 3]%nat board);
          packed (permute [3; 2; 1; 0; 7; 6; 5; 4; 11; 10; 9; 8]%nat board) ]).
Proof.
  intros Hlen. unfold game_hash, INDICES, hash_sums.
  rewrite !table_sum_packed
    by (repeat (constructor; [lia|]); constructor).
  reflexivity.
Qed.

Lemma game_hash_short_board board :
  (length board < 12)%nat → game_hash board = Raise IndexError.
Proof.
  intros Hlen. unfold game_hash, INDICES, hash_sums, enumerate.
  rewrite (sum_shifted_short board (seq 0 12)); [reflexivity|].
  apply Exists_exists. exists 11%nat. split; [apply elem_of_seq|]; lia.
Qed.

(** ** Boards of twelve cells *)

Lemma permute_length table board : length (permute table board) = length table.
Proof. unfold permute. apply length_fmap. Qed.

Lemma permute_valid table board :
  valid_board board → table ∈ INDICES → valid_board (permute table board).
Proof.
  intros [Hlen Hcells] Htable. split.
  - rewrite permute_length. by in_INDICES Htable.
  - unfold permute. apply Forall_fmap, Forall_forall. intros i _. simpl.
    destruct (decide (i < length board)%nat) as [Hi|Hi].
    + apply (Forall_lookup_1 (fun b => 0 ≤ b ≤ 3) board i); [done|].
      by apply list_lookup_lookup_total_lt.
    + rewrite list_lookup_total_alt, lookup_ge_None_2 by lia. simpl.
      unfold inhabitant, Z.inhabited. lia.
Qed.

(** The four tables are closed under composition, and each is its own
    inverse. *)
Lemma permute_permute table1 table2 board :
  length board = 12%nat → table1 ∈ INDICES → table2 ∈ INDICES →
  ∃ table, table ∈ INDICES ∧
    permute table1 (permute table2 board) = permute table board.
Proof.
  intros Hlen H1 H2. cells12 board Hlen.
  in_INDICES H1; in_INDICES H2;
    first [ exists (INDICES !!! 0%nat); split; [set_solver|reflexivity]
          | exists (INDICES !!! 1%nat); split; [set_solver|reflexivity]
          | exists (INDICES !!! 2%nat); split; [set_solver|reflexivity]
          | exists (INDICES !!! 3%nat); split; [set_solver|reflexivity] ].
Qed.

Lemma permute_involutive table board :
  length board = 12%nat → table ∈ INDICES →
  permute table (permute table board) = board.
Proof.
  intros Hlen Htable. cells12 board Hlen. by in_INDICES Htable.
Qed.

Lemma game_hash_permute table board :
  length board = 12%nat → table ∈ INDICES →
  game_hash (permute table board) = game_hash board.
Proof.
  intros Hlen Htable.
  rewrite !game_hash_packed by (rewrite ?permute_length; in_INDICES Htable; simpl; lia).
  cells12 board Hlen. remember packed as p eqn:Hp. clear Hp.
  in_INDICES Htable; simpl; f_equal; lia.
Qed.

(** ** Packing is injective on cells below four *)

Lemma packed_inj cells1 cells2 :
  length cells1 = length cells2 →
  Forall (fun b => 0 ≤ b ≤ 3) cells1 → Forall (fun b => 0 ≤ b ≤ 3) cells2 →
  packed cells1 = packed cells2 → cells1 = cells2.
Proof.
  intros Hlen H1. revert cells2 Hlen.
  induction H1 as [|b1 cells1 Hb1 _ IH]; intros [|b2 cells2] Hlen H2 Heq;
    try done.
  apply Forall_cons in H2 as [Hb2 H2]. simpl in Heq, Hlen, Hb1, Hb2.
  assert (b1 = b2 ∧ packed cells1 = packed cells2) as [-> Hrest] by lia.
  f_equal. apply IH; [lia|done|done].
Qed.

Lemma game_hash_attained board h :
  (12 ≤ length board)%nat → game_hash board = Ok h →
  ∃ table, table ∈ INDICES ∧ h = packed (permute table board).
Proof.
  intros Hlen. rewrite game_hash_packed by done. intros Hh.
  assert (Hinj : ∀ x y : Z, Ok x = Ok y → x = y) by congruence.
  apply Hinj in Hh as <-. clear Hinj. cbn [foldl].
  match goal with
  | |- context [((?a `min` ?b) `min` ?c) `min` ?d] =>
      assert (((a `min` b) `min` c) `min` d = a ∨
              ((a `min` b) `min` c) `min` d = b ∨
              ((a `min` b) `min` c) `min` d = c ∨
              ((a `min` b) `min` c) `min` d = d) as [H|[H|[H|H]]] by lia
  end; eexists; (split; [|exact H]); unfold INDICES; set_solver.
Qed.

Lemma game_hash_collision board1 board2 :
  valid_board board1 → valid_board board2 →
  game_hash board1 = game_hash board2 →
  ∃ table, table ∈ INDICES ∧ board2 = permute table board1.
Proof.
  intros Hv1 Hv2 Hhash.
  destruct (game_hash board2) as [h|] eqn:Hh2;
    [|by rewrite game_hash_packed in Hh2 by (destruct Hv2; lia)].
  apply game_hash_attained in Hhash as (t1 & Ht1 & Hp1); [|destruct Hv1; lia].
  apply game_hash_attained in Hh2 as (t2 & Ht2 & Hp2); [|destruct Hv2; lia].
  assert (Hpacked : packed (permute t1 board1) = packed (permute t2 board2))
    by congruence.
  apply packed_inj in Hpacked;
    [|by rewrite !permute_length; in_INDICES Ht1; in_INDICES Ht2
     |by apply permute_valid|by apply permute_valid].
  destruct (permute_permute t2 t1 board1) as (t & Ht & Hcomp);
    [by destruct Hv1|done|done|].
  exists t. split; [done|]. rewrite <- Hcomp, Hpacked.
  symmetry. apply permute_involutive; [by destruct Hv2|done].
Qed.

(** ** The move generator *)

Lemma line_full_spec board x y z :
  (x < length board)%nat → (y < length board)%nat → (z < length board)%nat →
  line_full board (x, y, z) = Ok (bool_decide (three_in_line board (x, y, z))).
Proof.
  intros Hx Hy Hz. unfold line_full, three_in_line.
  rewrite !item_total by done. simpl.
  repeat (case_bool_decide; simpl); try done; f_equal; tauto.
Qed.

Lemma any_line_spec board lines :
  Forall (fun l => l.1.1 < length board ∧ l.1.2 < length board ∧
                   l.2 < length board)%nat lines →
  any_line board lines = Ok (bool_decide (Exists (three_in_line board) lines)).
Proof.
  induction 1 as [|[[x y] z] lines (Hx & Hy & Hz) _ IH]; cbn [any_line].
  - by rewrite bool_decide_eq_false_2 by (by intros ?%Exists_nil).
  - rewrite line_full_spec by done. rewrite bind_Ok_l.
    destruct (decide (three_in_line board (x, y, z))) as [Hline|Hline].
    + rewrite (bool_decide_eq_true_2 (three_in_line _ _)) by done.
      by rewrite bool_decide_eq_true_2 by (by left).
    + rewrite (bool_decide_eq_false_2 (three_in_line _ _)) by done.
      rewrite IH. f_equal. apply bool_decide_ext. rewrite Exists_cons. tauto.
Qed.

Lemma LINES_in_range :
  Forall (fun l => l.1.1 < 12 ∧ l.1.2 < 12 ∧ l.2 < 12)%nat LINES.
Proof. unfold LINES. repeat constructor. Qed.

Lemma bump_lookup i board j :
  bump i board !! j
  = (fun b => if bool_decide (i = j) then b + 1 else b) <$> board !! j.
Proof.
  unfold bump, enumerate. rewrite list_lookup_fmap, lookup_zip_with.
  destruct (board !! j) as [b|] eqn:Hj; simpl.
  - rewrite lookup_seq_lt by (by eapply lookup_lt_Some). simpl. done.
  - by destruct (seq 0 (length board) !! j).
Qed.

Lemma bump_play i board : bump i board = play i board.
Proof.
  apply list_eq. intros j. rewrite bump_lookup. unfold play.
  destruct (decide (i = j)) as [<-|Hne].
  - rewrite bool_decide_eq_true_2 by done.
    destruct (board !! i) as [b|] eqn:Hi; simpl.
    + rewrite list_lookup_insert_eq by (by eapply lookup_lt_Some).
      by rewrite (list_lookup_total_correct _ _ _ Hi).
    + rewrite list_insert_ge by (by apply lookup_ge_None). by rewrite Hi.
  - rewrite bool_decide_eq_false_2 by done.
    rewrite list_lookup_insert_ne by done. by destruct (board !! j).
Qed.

Lemma collect_moves_spec board cells acc :
  Forall (fun i => i < length board)%nat cells →
  collect_moves board cells acc
  = Ok (acc ++ ((fun i => play i board) <$> filter (fun i => board !!! i < 3) cells)).
Proof.
  intros Hcells. revert acc.
  induction Hcells as [|i cells Hi _ IH]; intros acc; simpl.
  - by rewrite app_nil_r.
  - rewrite item_total by done. simpl. rewrite filter_cons.
    case_bool_decide; rewrite IH.
    + rewrite decide_True by done. rewrite bump_play, <- app_assoc. done.
    + by rewrite decide_False by done.
Qed.

Lemma collect_moves_short board cells acc :
  Exists (fun i => length board ≤ i)%nat cells →
  collect_moves board cells acc = Raise IndexError.
Proof.
  intros Hcells. revert acc.
  induction cells as [|i cells IH]; intros acc.
  - by apply Exists_nil in Hcells.
  - simpl. destruct (decide (length board ≤ i)%nat) as [Hi|Hi].
    + by rewrite item_short.
    + rewrite item_total by lia. simpl.
      apply Exists_cons in Hcells as [?|?]; [lia|].
      case_bool_decide; by apply IH.
Qed.

Lemma any_line_LINES board :
  (12 ≤ length board)%nat →
  any_line board LINES = Ok (bool_decide (Exists (three_in_line board) LINES)).
Proof.
  intros Hlen. apply any_line_spec.
  eapply Forall_impl; [apply LINES_in_range|]. simpl. lia.
Qed.

Lemma game_moves_over board :
  (12 ≤ length board)%nat → game_over board → game_moves board = Ok [].
Proof.
  intros Hlen Hover. unfold game_moves. rewrite any_line_LINES by done.
  by rewrite bool_decide_eq_true_2 by done.
Qed.

Lemma game_moves_playable board :
  (12 ≤ length board)%nat → ¬ game_over board →
  game_moves board = Ok ((fun i => play i board) <$> playable board).
Proof.
  intros Hlen Hover. unfold game_moves. rewrite any_line_LINES by done.
  rewrite bool_decide_eq_false_2 by done. rewrite bind_Ok_l.
  rewrite collect_moves_spec; [by rewrite app_nil_l|].
  apply Forall_forall. intros i Hi%elem_of_seq. lia.
Qed.

(** A board with a move to play has its twelve cells. *)
Lemma game_moves_length board m ms :
  game_moves board = Ok (m :: ms) → (12 ≤ length board)%nat.
Proof.
  intros Hmoves. destruct (decide (12 ≤ length board)%nat) as [|Hshort]; [done|].
  exfalso. unfold game_moves in Hmoves.
  apply bind_Ok in Hmoves as ([] & _ & Hmoves); [done|].
  rewrite collect_moves_short in Hmoves; [done|].
  apply Exists_exists. exists 11%nat. split; [apply elem_of_seq|]; lia.
Qed.

(** What the moves of a board are. *)
Lemma game_moves_elem board ms m :
  game_moves board = Ok ms → m ∈ ms →
  (12 ≤ length board)%nat ∧ ¬ game_over board ∧
  ∃ i, (i < 12)%nat ∧ board !!! i < 3 ∧ m = play i board.
Proof.
  intros Hmoves Hm. destruct ms as [|m0 ms]; [by apply elem_of_nil in Hm|].
  pose proof (game_moves_length _ _ _ Hmoves) as Hlen.
  destruct (decide (game_over board)) as [Hover|Hover].
  { rewrite game_moves_over in Hmoves by done. discriminate. }
  split; [done|]. split; [done|].
  rewrite game_moves_playable in Hmoves by done.
  assert (Hms : m0 :: ms = (fun i => play i board) <$> playable board)
    by congruence.
  rewrite Hms in Hm. apply list_elem_of_fmap in Hm as (i & -> & Hi).
  unfold playable in Hi. apply list_elem_of_filter in Hi as [Hlt Hi].
  apply elem_of_seq in Hi. exists i. split; [lia|done].
Qed.

Lemma play_length i board : length (play i board) = length board.
Proof. unfold play. apply length_insert. Qed.

Lemma play_valid i board :
  valid_board board → board !!! i < 3 → valid_board (play i board).
Proof.
  intros [Hlen Hcells] Hi. split; [by rewrite play_length|].
  unfold play. destruct (decide (i < length board)%nat) as [Hlt|Hge].
  - apply Forall_insert; [done|].
    assert (0 ≤ board !!! i ≤ 3); [|lia].
    apply (Forall_lookup_1 (fun b => 0 ≤ b ≤ 3) board i); [done|].
    by apply list_lookup_lookup_total_lt.
  - by rewrite list_insert_ge by lia.
Qed.

Lemma game_moves_valid board ms m :
  valid_board board → game_moves board = Ok ms → m ∈ ms → valid_board m.
Proof.
  intros Hvalid Hmoves Hm.
  destruct (game_moves_elem _ _ _ Hmoves Hm) as (_ & _ & i & _ & Hi & ->).
  by apply play_valid.
Qed.

(** ** Every move adds one to the sum of the cells *)

Lemma sum_insert (l : list Z) i x :
  (i < length l)%nat →
  foldr Z.add 0 (<[i := x]> l) = foldr Z.add 0 l - l !!! i + x.
Proof.
  revert i. induction l as [|y l IH]; intros [|i] Hi; simpl in *; try lia.
  rewrite IH by lia. change ((y :: l) !!! S i) with (l !!! i). lia.
Qed.

Lemma play_cells_sum i board :
  (i < length board)%nat → cells_sum (play i board) = cells_sum board + 1.
Proof. intros Hi. unfold cells_sum, play. rewrite sum_insert by done. lia. Qed.

Lemma cells_sum_bounds board :
  Forall (fun b => 0 ≤ b ≤ 3) board →
  0 ≤ cells_sum board ≤ 3 * Z.of_nat (length board).
Proof.
  unfold cells_sum. induction 1 as [|b board Hb _ IH]; simpl in *; lia.
Qed.

Lemma rank_nonneg (l : list Z) :
  0 ≤ foldr Z.add 0 ((fun b => Z.max 0 (3 - b)) <$> l).
Proof. induction l as [|b l IH]; csimpl; lia. Qed.

Lemma rank_play i board :
  (12 ≤ length board)%nat → (i < 12)%nat → board !!! i < 3 →
  S (rank (play i board)) = rank board.
Proof.
  intros Hlen Hi Hlt. unfold rank, play.
  pose proof (rank_nonneg (take 12 (<[i := board !!! i + 1]> board))) as Hpos.
  revert Hpos. rewrite take_insert_lt by done. rewrite list_fmap_insert.
  rewrite sum_insert by (rewrite length_fmap, length_take; lia).
  rewrite (list_lookup_total_fmap (fun b => Z.max 0 (3 - b)))
    by (rewrite length_take; lia).
  rewrite lookup_total_take_lt by done.
  cbv beta. set (s := foldr Z.add 0 _). intros Hpos. lia.
Qed.

Lemma rank_valid board :
  valid_board board → Z.of_nat (rank board) = 36 - cells_sum board.
Proof.
  intros [Hlen Hcells]. unfold rank.
  rewrite take_ge by lia. rewrite Z2Nat.id by apply rank_nonneg.
  replace 36 with (3 * Z.of_nat (length board)) by lia. clear Hlen.
  unfold cells_sum. induction Hcells as [|b board Hb _ IH]; csimpl in *; lia.
Qed.

Lemma game_moves_rank board ms m :
  game_moves board = Ok ms → m ∈ ms →
  (12 ≤ length m)%nat ∧ S (rank m) = rank board.
Proof.
  intros Hmoves Hm.
  destruct (game_moves_elem _ _ _ Hmoves Hm) as (Hlen & _ & i & Hi & Hlt & ->).
  split; [by rewrite play_length|by apply rank_play].
Qed.

(** ** The loop over the moves *)

Section best_reply.
  Variable rec : list Z → Z → gmap Z Z → res (Z * gmap Z Z).
  Variable d : Z.

Lemma best_reply_cons m rest value c v c' :
  best_reply rec d (m :: rest) value c = Ok (v, c') →
  ∃ v1 c1, rec m d c = Ok (v1, c1) ∧
    ((Z.max value (- v1) = NEXT ∧ v = NEXT ∧ c' = c1) ∨
     (Z.max value (- v1) ≠ NEXT ∧
      best_reply rec d rest (Z.max value (- v1)) c1 = Ok (v, c'))).
Proof.
  cbn [best_reply]. intros ([v1 c1] & Hrec & Hrest)%bind_Ok.
  exists v1, c1. split; [done|]. simpl in Hrest.
  case_bool_decide as Hnext; [left|right; done].
  by simplify_eq.
Qed.

Lemma best_reply_total ms value c :
  (∀ m c, m ∈ ms → ∃ v c', rec m d c = Ok (v, c')) →
  ∃ v c', best_reply rec d ms value c = Ok (v, c').
Proof.
  revert value c. induction ms as [|m ms IH]; intros value c Hrec.
  - by eexists _, _.
  - cbn [best_reply].
    destruct (Hrec m c) as (v1 & c1 & ->); [by left|].
    rewrite bind_Ok_l. simpl. case_bool_decide.
    + by eexists _, _.
    + apply IH. intros m' c' Hm'. apply Hrec. by right.
Qed.

(** [I seen value cache] is to hold of the moves already tried, the running
    value and the cache; the loop ends with every move tried or with
    [NEXT]. *)
Lemma best_reply_inv (I : list (list Z) → Z → gmap Z Z → Prop)
    seen ms value c v c' :
  (∀ seen m value c v1 c1,
     m ∈ ms → I seen value c → rec m d c = Ok (v1, c1) →
     I (seen ++ [m]) (Z.max value (- v1)) c1) →
  I seen value c →
  best_reply rec d ms value c = Ok (v, c') →
  ∃ seen' rest, seen ++ ms = seen' ++ rest ∧ I seen' v c' ∧
    (v = NEXT ∨ rest = []).
Proof.
  revert seen value c.
  induction ms as [|m ms IH]; intros seen value c Hstep Hinv Hrun.
  - simpl in Hrun. simplify_eq. exists seen, []. auto.
  - apply best_reply_cons in Hrun
      as (v1 & c1 & Hrec & [(Hnext & -> & ->)|(Hnext & Hrun)]).
    + exists (seen ++ [m]), ms. split; [by rewrite <- app_assoc|].
      split; [|by left]. rewrite <- Hnext. eapply Hstep; [by left|done..].
    + destruct (IH (seen ++ [m]) (Z.max value (- v1)) c1)
        as (seen' & rest & Heq & Hinv' & Hend); [| |done|].
      * intros ???????. apply Hstep. by right.
      * eapply Hstep; [by left|done..].
      * exists seen', rest. by rewrite <- Heq, <- app_assoc.
Qed.

End best_reply.

(** ** Unfolding one call of the solver *)

Lemma game_value_fuel_S fuel board d c v c' :
  game_value_fuel (S fuel) board d c = Ok (v, c') →
  ∃ h, game_hash board = Ok h ∧
    ((c !! h = Some v ∧ c' = c) ∨
     (c !! h = None ∧ ∃ ms c1, game_moves board = Ok ms ∧
        ((ms = [] ∧ v = PREV ∧ c1 = c) ∨
         (ms ≠ [] ∧ d = 0 ∧ v = UNKNOWN ∧ c1 = c) ∨
         (ms ≠ [] ∧ d ≠ 0 ∧
          best_reply (game_value_fuel fuel) (d - 1) ms PREV c = Ok (v, c1))) ∧
        c' = if bool_decide (v ≠ UNKNOWN) then <[h := v]> c1 else c1)).
Proof.
  cbn [game_value_fuel]. intros (h & Hh & Hrun)%bind_Ok.
  exists h. split; [done|]. cbv beta in Hrun.
  destruct (c !! h) as [v0|] eqn:Hc.
  { left. simplify_eq. by split. }
  right. split; [done|].
  apply bind_Ok in Hrun as (ms & Hms & Hrun).
  apply bind_Ok in Hrun as ([v1 c1] & Hloop & Hstore).
  exists ms, c1. split; [done|].
  assert (v = v1 ∧ c' = if bool_decide (v1 ≠ UNKNOWN) then <[h := v1]> c1 else c1)
    as [-> ->].
  { simpl in Hstore. case_bool_decide; by simplify_eq. }
  clear Hstore. split; [|done].
  destruct ms as [|m ms].
  { left. by simplify_eq. }
  right. destruct (bool_decide_reflect (d = 0)) as [Hd|Hd].
  - left. by simplify_eq.
  - right. by split_and!.
Qed.

Lemma game_value_fuel_short fuel board d c :
  (length board < 12)%nat →
  game_value_fuel (S fuel) board d c = Raise IndexError.
Proof.
  intros Hlen. cbn [game_value_fuel]. by rewrite game_hash_short_board.
Qed.

(** ** The solver returns, whatever the budget *)

Lemma game_value_fuel_total fuel board d c :
  (12 ≤ length board)%nat → (rank board < fuel)%nat →
  ∃ v c', game_value_fuel fuel board d c = Ok (v, c').
Proof.
  revert board d c. induction fuel as [|fuel IH]; intros board d c Hlen Hrank;
    [lia|].
  cbn [game_value_fuel]. rewrite game_hash_packed by done. rewrite bind_Ok_l.
  destruct (c !! _) as [v|]; [by eexists _, _|].
  destruct (game_moves board) as [ms|e] eqn:Hms.
  2:{ destruct (decide (game_over board)).
      - by rewrite game_moves_over in Hms.
      - by rewrite game_moves_playable in Hms. }
  rewrite bind_Ok_l.
  assert (∃ v1 c1,
    match ms with
    | [] => Ok (PREV, c)
    | _ :: _ =>
        if bool_decide (d = 0) then Ok (UNKNOWN, c)
        else best_reply (game_value_fuel fuel) (d - 1) ms PREV c
    end = Ok (v1, c1)) as (v1 & c1 & ->).
  { destruct ms as [|m ms]; [by eexists _, _|].
    case_bool_decide; [by eexists _, _|].
    apply best_reply_total. intros m' c' Hm'.
    destruct (game_moves_rank _ _ _ Hms Hm') as [Hlen' Hrank'].
    apply IH; [done|lia]. }
  rewrite bind_Ok_l. case_bool_decide; by eexists _, _.
Qed.

(** ** More fuel does not change the result *)

Lemma best_reply_mono (rec rec' : list Z → Z → gmap Z Z → res (Z * gmap Z Z))
    d ms value c r :
  (∀ m d c r, rec m d c = Ok r → rec' m d c = Ok r) →
  best_reply rec d ms value c = Ok r → best_reply rec' d ms value c = Ok r.
Proof.
  intros Hrec. revert value c. induction ms as [|m ms IH]; intros value c;
    [done|].
  cbn [best_reply]. intros ([v1 c1] & Hm & Hrest)%bind_Ok.
  rewrite (Hrec _ _ _ _ Hm), bind_Ok_l. simpl in *.
  case_bool_decide; [done|]. by apply IH.
Qed.

Lemma game_value_fuel_mono fuel fuel' board d c r :
  (fuel ≤ fuel')%nat →
  game_value_fuel fuel board d c = Ok r → game_value_fuel fuel' board d c = Ok r.
Proof.
  revert fuel' board d c r.
  induction fuel as [|fuel IH]; intros fuel' board d c r Hle; [done|].
  destruct fuel' as [|fuel']; [lia|].
  cbn [game_value_fuel]. intros (h & -> & Hrun)%bind_Ok. rewrite bind_Ok_l.
  destruct (c !! h); [done|].
  apply bind_Ok in Hrun as (ms & -> & Hrun). rewrite bind_Ok_l.
  apply bind_Ok in Hrun as (vc & Hloop & Hstore).
  assert (match ms with
          | [] => Ok (PREV, c)
          | _ :: _ =>
              if bool_decide (d = 0) then Ok (UNKNOWN, c)
              else best_reply (game_value_fuel fuel') (d - 1) ms PREV c
          end = Ok vc) as ->; [|by rewrite bind_Ok_l].
  destruct ms as [|m ms]; [done|]. case_bool_decide; [done|].
  eapply best_reply_mono; [|done]. intros m' d' c' r'. apply IH. lia.
Qed.

(** The wrapper [game_value] is the solver at any sufficient fuel. *)
Lemma game_value_fuel_enough fuel board d c :
  (rank board < fuel)%nat →
  game_value_fuel fuel board d c = game_value board d c.
Proof.
  intros Hfuel. unfold game_value.
  destruct (decide (12 ≤ length board)%nat) as [Hlen|Hlen].
  - destruct (game_value_fuel_total (S (rank board)) board d c)
      as (v & c' & Hrun); [done|lia|].
    rewrite Hrun. eapply game_value_fuel_mono; [|done]. lia.
  - destruct fuel as [|fuel]; [lia|].
    by rewrite !game_value_fuel_short by lia.
Qed.

Lemma game_value_total board d c :
  (12 ≤ length board)%nat → ∃ v c', game_value board d c = Ok (v, c').
Proof. intros Hlen. apply game_value_fuel_total; [done|lia]. Qed.

(** ** The rules of the game are symmetric *)

Lemma game_over_permute_1 table board :
  length board = 12%nat → table ∈ INDICES →
  game_over board → game_over (permute table board).
Proof.
  intros Hlen Htable Hover. cells12 board Hlen.
  apply Exists_exists in Hover as (line & Hline & Hfull).
  unfold game_over.
  in_INDICES Htable; in_LINES Hline; unfold LINES; find_line.
Qed.

Lemma game_over_permute table board :
  length board = 12%nat → table ∈ INDICES →
  game_over (permute table board) ↔ game_over board.
Proof.
  intros Hlen Htable. split; [|by apply game_over_permute_1].
  intros Hover. rewrite <- (permute_involutive table board) by done.
  apply game_over_permute_1; [|done|done].
  rewrite permute_length. by in_INDICES Htable.
Qed.

(** Playing cell [e] of the image is playing cell [table[e]] of the board. *)
Lemma play_permute table board e :
  length board = 12%nat → table ∈ INDICES → (e < 12)%nat →
  (table !!! e < 12)%nat ∧
  table !!! (table !!! e) = e ∧
  permute table board !!! e = board !!! (table !!! e) ∧
  play e (permute table board) = permute table (play (table !!! e) board).
Proof.
  intros Hlen Htable He. cells12 board Hlen.
  in_INDICES Htable;
    (do 12 (destruct e as [|e]; [split_and!; [simpl; lia|reflexivity..]|]); lia).
Qed.

(** On a board of the data model the game is over exactly when there is no
    move: a board without a playable cell is all threes, hence complete. *)
Lemma full_board_over board :
  valid_board board → playable board = [] → game_over board.
Proof.
  intros [Hlen Hcells] Hfull.
  assert (Hall : ∀ i, (i < 12)%nat → board !!! i = 3).
  { intros i Hi.
    assert (0 ≤ board !!! i ≤ 3).
    { apply (Forall_lookup_1 (fun b => 0 ≤ b ≤ 3) board i); [done|].
      apply list_lookup_lookup_total_lt. lia. }
    destruct (decide (board !!! i < 3)) as [Hlt|]; [|lia].
    assert (Hin : i ∈ playable board).
    { unfold playable. apply list_elem_of_filter. split; [done|].
      apply elem_of_seq. lia. }
    rewrite Hfull in Hin. by apply elem_of_nil in Hin. }
  apply Exists_cons_hd. unfold three_in_line. simpl.
  rewrite !Hall by lia. lia.
Qed.

Lemma game_moves_nil board :
  valid_board board → game_moves board = Ok [] ↔ game_over board.
Proof.
  intros Hvalid. pose proof Hvalid as [Hlen _]. split.
  - intros Hmoves. destruct (decide (game_over board)) as [|Hover]; [done|].
    rewrite game_moves_playable in Hmoves by (done || lia).
    apply full_board_over; [done|].
    assert (Hnil : (fun i => play i board) <$> playable board = []) by congruence.
    by apply fmap_nil_inv in Hnil.
  - apply game_moves_over. lia.
Qed.

Lemma game_moves_permute table board ms :
  valid_board board → table ∈ INDICES → game_moves board = Ok ms →
  ∃ ms', game_moves (permute table board) = Ok ms' ∧
    (ms = [] → ms' = []) ∧
    (∀ m, m ∈ ms → permute table m ∈ ms') ∧
    (∀ m', m' ∈ ms' → ∃ m, m ∈ ms ∧ m' = permute table m).
Proof.
  intros Hvalid Htable Hms. pose proof Hvalid as [Hlen _].
  pose proof (permute_valid _ _ Hvalid Htable) as Hvalid'.
  pose proof Hvalid' as [Hlen' _].
  destruct (decide (game_over board)) as [Hover|Hover].
  - exists []. rewrite game_moves_over in Hms by (done || lia).
    assert (ms = []) as -> by congruence.
    split; [|split_and!; [done|by intros ? ?%elem_of_nil..]].
    apply game_moves_over; [lia|]. by apply game_over_permute.
  - assert (Hover' : ¬ game_over (permute table board))
      by (by rewrite game_over_permute).
    eexists. split; [apply game_moves_playable; [lia|done]|].
    split_and!.
    + intros ->. rewrite game_moves_nil in Hms by done. done.
    + intros m Hm.
      destruct (game_moves_elem _ _ _ Hms Hm) as (_ & _ & i & Hi & Hlt & ->).
      destruct (play_permute table board i) as (He & Hinv & _ & _); [done..|].
      destruct (play_permute table board (table !!! i))
        as (_ & _ & Hcell & Hplay); [done..|].
      rewrite Hinv in Hcell, Hplay. rewrite <- Hplay.
      apply list_elem_of_fmap. exists (table !!! i). split; [done|].
      unfold playable. apply list_elem_of_filter.
      split; [by rewrite Hcell|]. apply elem_of_seq. lia.
    + intros m' (e & -> & He)%list_elem_of_fmap.
      unfold playable in He. apply list_elem_of_filter in He as [Hlt He].
      apply elem_of_seq in He.
      destruct (play_permute table board e) as (Hi & _ & Hcell & Hplay);
        [done|done|lia|].
      exists (play (table !!! e) board). split; [|done].
      rewrite game_moves_playable in Hms by (done || lia).
      assert (ms = (fun i => play i board) <$> playable board) as ->
        by congruence.
      apply list_elem_of_fmap. exists (table !!! e). split; [done|].
      unfold playable. apply list_elem_of_filter.
      split; [by rewrite <- Hcell|]. apply elem_of_seq. lia.
Qed.

(** ** The value under perfect play *)

Lemma value_of_range board v : value_of board v → v = PREV ∨ v = NEXT.
Proof. destruct 1; auto. Qed.

Lemma value_of_det board v1 v2 :
  value_of board v1 → value_of board v2 → v1 = v2.
Proof.
  intros H1. revert v2.
  induction H1 as [board Hnil|board ms m Hms Hm _ IH|board ms Hms Hne _ IH];
    intros v2 H2; destruct H2 as [board Hnil'|board ms' m' Hms' Hm' Hv'|board ms' Hms' Hne' Hv'];
    try done.
  - rewrite Hnil in Hms'. simplify_eq. by apply elem_of_nil in Hm'.
  - rewrite Hnil' in Hms. simplify_eq. by apply elem_of_nil in Hm.
  - rewrite Hms' in Hms. simplify_eq. symmetry. by apply IH, Hv'.
  - rewrite Hms' in Hms. simplify_eq. symmetry. by apply (IH m').
Qed.

Lemma value_of_permute table board v :
  value_of board v → valid_board board → table ∈ INDICES →
  value_of (permute table board) v.
Proof.
  intros Hv. revert table.
  induction Hv as [board Hnil|board ms m Hms Hm _ IH|board ms Hms Hne _ IH];
    intros table Hvalid Htable.
  - destruct (game_moves_permute table board []) as (ms' & Hms' & Hnil' & _);
      [done..|].
    rewrite Hnil' in Hms' by done. by apply value_over.
  - destruct (game_moves_permute table board ms) as (ms' & Hms' & _ & Hin & _);
      [done..|].
    eapply value_win; [done|by apply Hin|].
    apply IH; [|done]. by eapply game_moves_valid.
  - destruct (game_moves_permute table board ms) as (ms' & Hms' & _ & Hin & Hout);
      [done..|].
    eapply value_loss; [done| |].
    + destruct ms as [|m ms]; [done|].
      intros ->. by eapply elem_of_nil, (Hin m); left.
    + intros m' (m & Hm & ->)%Hout.
      apply IH; [done| |done]. by eapply game_moves_valid.
Qed.

(** Two boards of the data model with the same hash have the same value. *)
Lemma value_of_hash board1 board2 v :
  valid_board board1 → valid_board board2 →
  game_hash board1 = game_hash board2 →
  value_of board1 v → value_of board2 v.
Proof.
  intros Hv1 Hv2 Hhash Hvalue.
  destruct (game_hash_collision _ _ Hv1 Hv2 Hhash) as (table & Htable & ->).
  by apply value_of_permute.
Qed.

(** ** What a call does to the cache *)

Lemma game_value_fuel_grows fuel board d c v c' :
  game_value_fuel fuel board d c = Ok (v, c') →
  c ⊆ c' ∧ (no_unknown c → no_unknown c').
Proof.
  revert board d c v c'.
  induction fuel as [|fuel IH]; intros board d c v c' Hrun; [done|].
  apply game_value_fuel_S in Hrun
    as (h & Hh & [[Hhit ->]|(Hmiss & ms & c1 & Hms & Hloop & ->)]); [done|].
  assert (c ⊆ c1 ∧ (no_unknown c → no_unknown c1)) as [Hsub Hno].
  { destruct Hloop as [(_ & _ & ->)|[(_ & _ & _ & ->)|(_ & _ & Hloop)]];
      [done..|].
    apply (best_reply_inv _ _
             (fun _ _ c1 => c ⊆ c1 ∧ (no_unknown c → no_unknown c1)) [])
      in Hloop as (_ & _ & _ & Hinv & _); [done| |done].
    intros _ m _ ca v1 cb _ [Hsub Hno] Hrec.
    apply IH in Hrec as [Hsub' Hno'].
    split; [by etrans|auto]. }
  case_bool_decide as Hv; [|done]. split.
  - by apply insert_subseteq_r.
  - intros Hc h' Hh'. destruct (decide (h = h')) as [<-|Hne].
    + rewrite lookup_insert_eq in Hh'. congruence.
    + rewrite lookup_insert_ne in Hh' by done. by apply (Hno Hc h').
Qed.

Lemma game_value_fuel_valued fuel board d c v c' :
  game_valued c →
  game_value_fuel fuel board d c = Ok (v, c') →
  (v = PREV ∨ v = UNKNOWN ∨ v = NEXT) ∧ game_valued c' ∧ fresh_resolved c c'.
Proof.
  revert board d c v c'.
  induction fuel as [|fuel IH]; intros board d c v c' Hc Hrun; [done|].
  apply game_value_fuel_S in Hrun
    as (h & Hh & [[Hhit ->]|(Hmiss & ms & c1 & Hms & Hloop & ->)]).
  { split; [by eapply Hc|]. split; [done|]. intros h' w ??. congruence. }
  assert ((v = PREV ∨ v = UNKNOWN ∨ v = NEXT) ∧ game_valued c1 ∧
          fresh_resolved c c1) as (Hv & Hc1 & Hfresh).
  { destruct Hloop as [(_ & -> & ->)|[(_ & _ & -> & ->)|(_ & _ & Hloop)]].
    - split; [by left|]. split; [done|]. intros h' w ??. congruence.
    - split; [by right; left|]. split; [done|]. intros h' w ??. congruence.
    - apply (best_reply_inv _ _
               (fun _ v c1 => (v = PREV ∨ v = UNKNOWN ∨ v = NEXT) ∧
                              game_valued c1 ∧ fresh_resolved c c1) [])
        in Hloop as (_ & _ & _ & Hinv & _); [done| |].
      + intros _ m value ca v1 cb _ (Hvalue & Hca & Hfresh) Hrec.
        pose proof (game_value_fuel_grows _ _ _ _ _ _ Hrec) as [Hsub _].
        apply IH in Hrec as (Hv1 & Hcb & Hfresh'); [|done].
        split; [unfold PREV, UNKNOWN, NEXT in *; lia|]. split; [done|].
        intros h' w Hw Hnone. destruct (ca !! h') as [w'|] eqn:Hca'.
        * assert (cb !! h' = Some w') by (by eapply lookup_weaken).
          assert (w = w') as -> by congruence. by eapply Hfresh.
        * by eapply Hfresh'.
      + split; [by left|]. split; [done|]. intros h' w ??. congruence. }
  split; [done|]. case_bool_decide as Hne; [|done].
  assert (v = PREV ∨ v = NEXT) as Hv' by (unfold UNKNOWN in *; tauto). split.
  - intros h' w. destruct (decide (h = h')) as [<-|Hne'].
    + rewrite lookup_insert_eq. intros [= <-]. tauto.
    + rewrite lookup_insert_ne by done. apply Hc1.
  - intros h' w. destruct (decide (h = h')) as [<-|Hne'].
    + rewrite lookup_insert_eq. by intros [= <-].
    + rewrite lookup_insert_ne by done. apply Hfresh.
Qed.

(** ** A position searched to the end has a value *)

Lemma playable_below_full board i :
  valid_board board → (i < 12)%nat → board !!! i < 3 → cells_sum board < 36.
Proof.
  intros Hvalid Hi Hlt. pose proof Hvalid as [Hlen _].
  destruct (play_valid i board Hvalid Hlt) as [Hlen' Hcells'].
  pose proof (cells_sum_bounds _ Hcells') as Hbound.
  rewrite play_cells_sum in Hbound by lia. lia.
Qed.

Lemma game_value_fuel_exhaustive fuel board d c v c' :
  valid_board board → resolved c → d < 0 ∨ 36 - cells_sum board ≤ d →
  game_value_fuel fuel board d c = Ok (v, c') →
  (v = PREV ∨ v = NEXT) ∧ resolved c'.
Proof.
  revert board d c v c'.
  induction fuel as [|fuel IH]; intros board d c v c' Hvalid Hc Hd Hrun;
    [done|].
  apply game_value_fuel_S in Hrun
    as (h & Hh & [[Hhit ->]|(Hmiss & ms & c1 & Hms & Hloop & ->)]).
  { split; [by eapply Hc|done]. }
  assert ((v = PREV ∨ v = NEXT) ∧ resolved c1) as (Hv & Hc1).
  { destruct Hloop as [(_ & -> & ->)|[(Hne & -> & _ & _)|(_ & Hd0 & Hloop)]].
    - split; [by left|done].
    - exfalso. destruct ms as [|m ms]; [done|].
      destruct (game_moves_elem _ _ m Hms) as (_ & _ & i & Hi & Hlt & _);
        [by left|].
      pose proof (playable_below_full _ _ Hvalid Hi Hlt). lia.
    - apply (best_reply_inv _ _
               (fun _ v c1 => (v = PREV ∨ v = NEXT) ∧ resolved c1) [])
        in Hloop as (_ & _ & _ & Hinv & _); [done| |by split; [left|]].
      intros _ m value ca v1 cb Hm (Hvalue & Hca) Hrec.
      destruct (game_moves_elem _ _ _ Hms Hm) as (_ & _ & i & Hi & Hlt & ->).
      apply IH in Hrec as (Hv1 & Hcb); [| |done|].
      + split; [unfold PREV, NEXT in *; lia|done].
      + by apply play_valid.
      + destruct Hvalid as [Hlen _]. rewrite play_cells_sum by lia. lia. }
  split; [done|]. case_bool_decide as Hne; [|done].
  intros h' w. destruct (decide (h = h')) as [<-|Hne'].
  - rewrite lookup_insert_eq. by intros [= <-].
  - rewrite lookup_insert_ne by done. apply Hc1.
Qed.

(** ** What the solver resolves is the value under perfect play *)

Lemma sound_insert board h v c :
  valid_board board → game_hash board = Ok h → value_of board v →
  sound c → sound (<[h := v]> c).
Proof.
  intros Hvalid Hh Hv Hc h' w. destruct (decide (h = h')) as [<-|Hne].
  - rewrite lookup_insert_eq. intros [= <-]. split; [by exists board|].
    intros board' Hvalid' Hh'. apply (value_of_hash board); [done..|congruence|done].
  - rewrite lookup_insert_ne by done. apply Hc.
Qed.

Lemma game_value_fuel_sound fuel board d c v c' :
  valid_board board → sound c →
  game_value_fuel fuel board d c = Ok (v, c') →
  sound c' ∧ (v = UNKNOWN ∨ value_of board v).
Proof.
  revert board d c v c'.
  induction fuel as [|fuel IH]; intros board d c v c' Hvalid Hc Hrun; [done|].
  apply game_value_fuel_S in Hrun
    as (h & Hh & [[Hhit ->]|(Hmiss & ms & c1 & Hms & Hloop & ->)]).
  { split; [done|]. right. by apply (Hc h v). }
  assert (sound c1 ∧ (v = UNKNOWN ∨ value_of board v)) as (Hc1 & Hv).
  { destruct Hloop as [(-> & -> & ->)|[(_ & _ & -> & ->)|(Hne & _ & Hloop)]].
    - split; [done|]. right. by apply value_over.
    - split; [done|]. by left.
    - apply (best_reply_inv _ _
               (fun seen v c1 => sound c1 ∧
                  ((v = PREV ∧ ∀ m, m ∈ seen → value_of m NEXT) ∨
                   v = UNKNOWN ∨
                   (v = NEXT ∧ ∃ m, m ∈ seen ∧ value_of m PREV))) [])
        in Hloop as (seen & rest & Heq & (Hc1 & Hinv) & Hend).
      + simpl in Heq. split; [done|].
        destruct Hinv as [(-> & Hall)|[-> |(-> & m & Hm & Hwin)]].
        * right. destruct Hend as [| ->]; [done|].
          rewrite app_nil_r in Heq. subst seen. by eapply value_loss.
        * by left.
        * right. eapply value_win; [done| |done].
          rewrite Heq. apply elem_of_app. by left.
      + intros seen m value ca v1 cb Hm (Hca & Hvalue) Hrec.
        apply IH in Hrec as (Hcb & Hv1); [| |done].
        2:{ by eapply game_moves_valid. }
        split; [done|].
        assert (v1 = UNKNOWN ∨ (v1 = PREV ∧ value_of m PREV) ∨
                (v1 = NEXT ∧ value_of m NEXT)) as Hcases.
        { destruct Hv1 as [|Hv1]; [by left|]. right.
          destruct (value_of_range _ _ Hv1) as [-> | ->]; auto. }
        destruct Hcases as [-> |[[-> Hwin]|[-> Hloss]]].
        * destruct Hvalue as [[-> _]|[-> |[-> (m' & Hm' & Hwin')]]];
            [by right; left..|].
          right; right. split; [done|]. exists m'. split; [|done].
          apply elem_of_app. by left.
        * right; right.
          split; [destruct Hvalue as [[-> _]|[-> |[-> ?]]]; done|].
          exists m. split; [|done].
          apply elem_of_app. right. by apply list_elem_of_singleton.
        * destruct Hvalue as [[-> Hall]|[-> |[-> (m' & Hm' & Hwin')]]].
          -- left. split; [done|].
             intros m' [?|Hm']%elem_of_app; [by apply Hall|].
             apply list_elem_of_singleton in Hm' as ->. done.
          -- by right; left.
          -- right; right. split; [done|]. exists m'. split; [|done].
             apply elem_of_app. by left.
      + split; [done|]. left. split; [done|]. by intros ??%elem_of_nil. }
  split; [|done]. case_bool_decide as Hne; [|done].
  destruct Hv as [|Hv]; [done|]. by eapply sound_insert.
Qed.

Lemma sound_empty : sound ∅.
Proof. intros h v. by rewrite lookup_empty. Qed.

Lemma populated_sound d c : populated d c → sound c.
Proof.
  induction 1 as [|c board v c' _ IH Hvalid Hrun]; [apply sound_empty|].
  by eapply game_value_fuel_sound.
Qed.

(** * The claims of the specification *)

(** ** Cache soundness across depth budgets *)

(** C1. Let [c] be a cache filled from empty by calls of [game_value] at
    budget [d1], and [d1 <= d2]. Then [game_value board d2 c] returns, and a
    value other than [UNKNOWN] that it returns is the value other than
    [UNKNOWN] that [game_value board d2 ∅] returns from a fresh cache. More
    generally a value other than [UNKNOWN] does not depend on the budget: it
    is the same for any two budgets and any two caches so filled, whether it
    is returned by a call or found stored in the cache. *)
Theorem cache_sound_across_budgets board d1 d2 c :
  valid_board board → d1 ≤ d2 → populated d1 c →
  (∃ v c', game_value board d2 c = Ok (v, c')) ∧
  (∀ v1 c1 v2 c2,
     game_value board d2 c = Ok (v1, c1) →
     game_value board d2 ∅ = Ok (v2, c2) →
     v1 ≠ UNKNOWN → v2 ≠ UNKNOWN → v1 = v2) ∧
  (∀ da db d d' cache cache' v c1 v' c1',
     populated da cache → populated db cache' →
     game_value board d cache = Ok (v, c1) →
     game_value board d' cache' = Ok (v', c1') →
     v ≠ UNKNOWN → v' ≠ UNKNOWN → v = v') ∧
  (∀ db cache' h v v',
     populated db cache' → c !! h = Some v → cache' !! h = Some v' →
     v ≠ UNKNOWN ∧ v = v').
Proof.
  intros Hvalid _ Hc. pose proof (populated_sound _ _ Hc) as Hsound.
  assert (Hvalue : ∀ d cache v c1,
            sound cache → game_value board d cache = Ok (v, c1) →
            v ≠ UNKNOWN → value_of board v).
  { intros d cache v c1 Hcache Hrun Hv.
    apply game_value_fuel_sound in Hrun as [_ [?|?]]; done. }
  split_and!.
  - apply game_value_total. destruct Hvalid. lia.
  - intros v1 c1 v2 c2 Hrun1 Hrun2 Hv1 Hv2. apply (value_of_det board).
    + by apply (Hvalue d2 c v1 c1).
    + apply (Hvalue d2 ∅ v2 c2); [apply sound_empty|done..].
  - intros da db d d' cache cache' v c1 v' c1' Hcache Hcache' Hrun Hrun' Hv Hv'.
    apply (value_of_det board).
    + apply (Hvalue d cache v c1); [by eapply populated_sound|done..].
    + apply (Hvalue d' cache' v' c1'); [by eapply populated_sound|done..].
  - intros db cache' h v v' Hcache' Hh Hh'.
    apply populated_sound in Hcache'.
    destruct (Hsound _ _ Hh) as [(b & Hb & Hhash) Hall].
    destruct (Hcache' _ _ Hh') as [_ Hall'].
    pose proof (Hall b Hb Hhash) as Hv. pose proof (Hall' b Hb Hhash) as Hv'.
    split; [|by eapply value_of_det].
    destruct (value_of_range _ _ Hv) as [-> | ->]; done.
Qed.

(** ** The move generator *)

Lemma playable_count (pre board : list Z) :
  length (filter (fun i => (pre ++ board) !!! i < 3)
            (seq (length pre) (length board)))
  = length (filter (fun b => b < 3) board).
Proof.
  revert pre. induction board as [|b board IH]; intros pre; [done|].
  cbn [length seq]. rewrite !filter_cons.
  rewrite list_lookup_total_middle by done.
  specialize (IH (pre ++ [b])). rewrite <- app_assoc in IH. simpl in IH.
  rewrite length_app in IH. simpl in IH.
  replace (length pre + 1)%nat with (S (length pre)) in IH by lia.
  destruct (decide (b < 3)); simpl; by rewrite IH.
Qed.

(** C2. On a board of twelve cells with values in {0,1,2,3}, [game_moves]
    returns the empty list exactly when some line [(x,y,z)] of [LINES] has
    [0 < board[x] == board[y] == board[z]]; otherwise it returns, in
    increasing order of the cell, one successor for each cell [i] with
    [board[i] < 3], which is the board with cell [i] incremented by one, so
    that there are as many successors as cells with a value below three. *)
Theorem game_moves_characterised board :
  valid_board board →
  (game_moves board = Ok [] ↔
   ∃ x y z, (x, y, z) ∈ LINES ∧
     0 < board !!! x ∧ board !!! x = board !!! y ∧ board !!! y = board !!! z) ∧
  (game_moves board ≠ Ok [] →
   game_moves board
   = Ok ((fun i => <[i := board !!! i + 1]> board)
           <$> filter (fun i => board !!! i < 3) (seq 0 12)) ∧
   ∀ ms, game_moves board = Ok ms →
     length ms = length (filter (fun b => b < 3) board)).
Proof.
  intros Hvalid. pose proof Hvalid as [Hlen _].
  assert (Hover : game_over board ↔
            ∃ x y z, (x, y, z) ∈ LINES ∧ 0 < board !!! x ∧
              board !!! x = board !!! y ∧ board !!! y = board !!! z).
  { unfold game_over. rewrite Exists_exists. split.
    - intros ([[x y] z] & Hin & Hline). by exists x, y, z.
    - intros (x & y & z & Hin & Hline). by exists (x, y, z). }
  split.
  - by rewrite game_moves_nil.
  - intros Hmoves. rewrite game_moves_nil in Hmoves by done.
    pose proof (game_moves_playable board) as Hplay.
    rewrite Hplay by (done || lia). split; [done|].
    intros ms [= <-]. rewrite length_fmap. unfold playable.
    pose proof (playable_count [] board) as Hcount. simpl in Hcount.
    by rewrite Hlen in Hcount.
Qed.

(** ** [UNKNOWN] is never stored *)

(** C3. If the cache holds no [UNKNOWN] before a call of [game_value], it
    holds none after it, whatever the board and the budget: the call leaves
    the entries of the cache as they are, and what it adds to a cache of game
    values is [PREV] or [NEXT]. The call returns unless the board is short of
    twelve cells. In particular [game_value empty_board 1 ∅] returns
    [UNKNOWN] and leaves the cache empty. *)
Theorem unknown_never_cached board d c :
  no_unknown c →
  match game_value board d c with
  | Ok (v, c') =>
      no_unknown c' ∧ c ⊆ c' ∧
      (game_valued c → ∀ h w, c' !! h = Some w → c !! h = None →
         w = PREV ∨ w = NEXT)
  | Raise e => e = IndexError ∧ (length board < 12)%nat
  end ∧
  game_value empty_board 1 ∅ = Ok (UNKNOWN, ∅).
Proof.
  intros Hc. split; [|by vm_compute].
  destruct (decide (12 ≤ length board)%nat) as [Hlen|Hlen].
  - destruct (game_value_total board d c Hlen) as (v & c' & Hrun).
    rewrite Hrun.
    pose proof (game_value_fuel_grows _ _ _ _ _ _ Hrun) as [Hsub Hno].
    split_and!; [by apply Hno|done|].
    intros Hvalued.
    by pose proof (game_value_fuel_valued _ _ _ _ _ _ Hvalued Hrun)
      as (_ & _ & Hfresh).
  - unfold game_value. rewrite game_value_fuel_short by lia. split; [done|lia].
Qed.

(** ** Symmetric boards have the same hash *)

(** The four tables are the identity, the half turn, the reflection that
    swaps the outer rows and the reflection that reverses the columns. *)
Lemma INDICES_geometry :
  INDICES = [ symmetry_table (fun r => r) (fun c => c);
              symmetry_table (fun r => 2 - r) (fun c => 3 - c);
              symmetry_table (fun r => 2 - r) (fun c => c);
              symmetry_table (fun r => r) (fun c => 3 - c) ].
Proof. reflexivity. Qed.

(** C4. On a board of twelve cells with values in {0,1,2,3} the hash is
    defined, and the image of the board under any of the four tables of
    [INDICES] (the identity, the half turn and the two reflections) has the
    same hash. *)
Theorem game_hash_symmetric board table :
  valid_board board → table ∈ INDICES →
  ∃ h, game_hash board = Ok h ∧ game_hash (permute table board) = Ok h.
Proof.
  intros [Hlen _] Htable. rewrite game_hash_permute by done.
  rewrite game_hash_packed by lia. by eexists.
Qed.

(** ** A cache hit comes first *)

(** C5. If the cache has an entry for the hash of the board, [game_value]
    returns that entry, whatever the budget (zero included), and leaves the
    cache as it was. *)
Theorem cache_hit_first board d c h v :
  game_hash board = Ok h → c !! h = Some v →
  game_value board d c = Ok (v, c).
Proof.
  intros Hh Hc. unfold game_value. cbn [game_value_fuel].
  rewrite Hh, bind_Ok_l. by rewrite Hc.
Qed.

(** ** The empty board is solved at budget 36 *)

(** C6. [game_value] on the empty board with budget 36 and an empty cache
    returns, whatever the fuel above 36, and what it returns is [PREV] or
    [NEXT]. *)
Theorem empty_board_solved :
  ∃ v c',
    game_value empty_board 36 ∅ = Ok (v, c') ∧
    (∀ fuel, (36 < fuel)%nat →
       game_value_fuel fuel empty_board 36 ∅ = Ok (v, c')) ∧
    (v = PREV ∨ v = NEXT).
Proof.
  destruct (game_value_total empty_board 36 ∅) as (v & c' & Hrun);
    [simpl; lia|].
  exists v, c'. split; [done|]. split.
  - intros fuel Hfuel. rewrite <- Hrun. apply game_value_fuel_enough.
    by vm_compute in Hfuel |- *.
  - eapply game_value_fuel_exhaustive in Hrun as [Hv _]; [done| | |].
    + by sample_valid.
    + intros h w. by rewrite lookup_empty.
    + right. vm_compute. discriminate.
Qed.

(** ** The solver returns at every budget *)

(** C7. On a board of twelve cells with values in {0,1,2,3} the sum of the
    cells is at most 36, every move is again such a board and has a sum one
    greater, and [game_value] returns for every cache and every budget
    [d], positive, zero or negative: it returns as soon as the fuel, which
    counts the calls nested in one another, exceeds 36 minus the sum of the
    cells, so that the recursion is never deeper than that. *)
Theorem game_value_terminates board d c :
  valid_board board →
  cells_sum board ≤ 36 ∧
  (∀ ms m, game_moves board = Ok ms → m ∈ ms →
     valid_board m ∧ cells_sum m = cells_sum board + 1) ∧
  (∀ fuel, 36 - cells_sum board < Z.of_nat fuel →
     ∃ v c', game_value_fuel fuel board d c = Ok (v, c')) ∧
  (∃ v c', game_value board d c = Ok (v, c')).
Proof.
  intros Hvalid. pose proof Hvalid as [Hlen Hcells]. split_and!.
  - pose proof (cells_sum_bounds _ Hcells). lia.
  - intros ms m Hms Hm.
    destruct (game_moves_elem _ _ _ Hms Hm) as (_ & _ & i & Hi & Hlt & ->).
    split; [by apply play_valid|]. apply play_cells_sum. lia.
  - intros fuel Hfuel. apply game_value_fuel_total; [lia|].
    pose proof (rank_valid _ Hvalid). lia.
  - apply game_value_total. lia.
Qed.

(** ** Hashes collide only for symmetric boards *)

(** C10. Two boards of twelve cells with values in {0,1,2,3} that have the
    same hash are images of one another under one of the four tables of
    [INDICES]. *)
Theorem game_hash_collides_only_by_symmetry board1 board2 :
  valid_board board1 → valid_board board2 →
  game_hash board1 = game_hash board2 →
  ∃ table, table ∈ INDICES ∧ board2 = permute table board1.
Proof. apply game_hash_collision. Qed.

(** ** The lines *)

(** C9, as stated, fails: the lines do not hold three windows of each row
    and two diagonals. *)
Lemma LINES_not_three_per_row_two_diagonals :
  ¬ ((∀ r, (r < 3)%nat → length (filter (in_row r) LINES) = 3%nat) ∧
     length (filter is_column LINES) = 4%nat ∧
     length (filter is_diagonal LINES) = 2%nat).
Proof. intros (_ & _ & Hdiag). vm_compute in Hdiag. discriminate. Qed.

(** C9, amended. [LINES] holds exactly 14 distinct triples: the two windows
    of three adjacent cells of each of the 3 rows, the 4 columns, and the 4
    diagonals through the three rows, two to the right and two to the left;
    they are all the windows of three cells of the grid in these four
    directions, in this order. *)
Theorem LINES_composition :
  length LINES = 14%nat ∧ NoDup LINES ∧
  (∀ r, (r < 3)%nat → length (filter (in_row r) LINES) = 2%nat) ∧
  length (filter is_column LINES) = 4%nat ∧
  length (filter is_diagonal LINES) = 4%nat ∧
  Forall (fun line => in_row 0 line ∨ in_row 1 line ∨ in_row 2 line ∨
                      is_column line ∨ is_diagonal line) LINES ∧
  LINES = windows 0 1 ++ windows 1 0 ++ windows 1 1 ++ windows 1 (-1).
Proof.
  split_and!; try reflexivity.
  - by apply (bool_decide_unpack _).
  - intros r Hr. do 3 (destruct r as [|r]; [reflexivity|]). lia.
  - by apply (bool_decide_unpack _).
Qed.

(** ** The classification of the moves *)

Lemma item_play board i j :
  (j < length board)%nat →
  item (play i board) j
  = Ok (if decide (j = i) then board !!! i + 1 else board !!! j).
Proof.
  intros Hj. apply item_lookup. unfold play.
  destruct (decide (j = i)) as [-> |Hne].
  - by apply list_lookup_insert_eq.
  - rewrite list_lookup_insert_ne by done.
    by apply list_lookup_lookup_total_lt.
Qed.

Lemma changed_cells_play board i cells :
  Forall (fun j => j < length board)%nat cells →
  changed_cells board (play i board) cells
  = Ok (filter (fun j => j = i) cells).
Proof.
  induction 1 as [|j cells Hj _ IH]; [done|].
  cbn [changed_cells]. rewrite (item_play board i j), (item_total board j) by done.
  rewrite !bind_Ok_l, IH, bind_Ok_l, filter_cons.
  destruct (decide (j = i)) as [-> |Hne]; simpl.
  - by rewrite bool_decide_eq_true_2 by lia.
  - by rewrite bool_decide_eq_false_2 by tauto.
Qed.

Lemma changed_cell_play board i :
  (12 ≤ length board)%nat → (i < 12)%nat →
  changed_cells board (play i board) (seq 0 12) = Ok [i].
Proof.
  intros Hlen Hi. rewrite changed_cells_play.
  - do 12 (destruct i as [|i]; [reflexivity|]). lia.
  - apply Forall_forall. intros j Hj%elem_of_seq. lia.
Qed.

Lemma NAME_lookup i : (i < 12)%nat → NAME !! i = Some (NAME !!! i).
Proof. intros Hi. apply list_lookup_lookup_total_lt. simpl. lia. Qed.

Lemma NAME_inj i j :
  (i < 12)%nat → (j < 12)%nat → NAME !!! i = NAME !!! j → i = j.
Proof.
  intros Hi Hj Heq.
  assert (Hnodup : NoDup NAME) by (by apply (bool_decide_unpack _)).
  eapply NoDup_lookup; [done|by apply NAME_lookup|].
  rewrite Heq. by apply NAME_lookup.
Qed.

Lemma classify_step_play board d a c i :
  (12 ≤ length board)%nat → (i < 12)%nat →
  ∃ v c', game_value (play i board) d c = Ok (v, c') ∧
    classify_step board d (a, c) (play i board)
    = Ok (recorded a (NAME !!! i) i (play i board) v, c').
Proof.
  intros Hlen Hi.
  destruct (game_value_total (play i board) d c) as (v & c' & Hrun);
    [by rewrite play_length|].
  exists v, c'. split; [done|]. unfold classify_step.
  rewrite changed_cell_play, bind_Ok_l by done.
  rewrite NAME_lookup by done. rewrite Hrun, bind_Ok_l. unfold recorded.
  repeat case_bool_decide; done.
Qed.

Lemma recorded_W a name cell m v n :
  n ∈ W (recorded a name cell m v) ↔ n ∈ W a ∨ (n = name ∧ v = PREV).
Proof.
  unfold recorded. simpl. case_bool_decide.
  - rewrite elem_of_app, list_elem_of_singleton. tauto.
  - tauto.
Qed.

Lemma recorded_L a name cell m v n :
  n ∈ L (recorded a name cell m v) ↔ n ∈ L a ∨ (n = name ∧ v = NEXT).
Proof.
  unfold recorded. simpl. repeat case_bool_decide; subst;
    rewrite ?elem_of_app, ?list_elem_of_singleton; intuition done.
Qed.

Lemma recorded_U a name cell m v n :
  n ∈ U (recorded a name cell m v)
  ↔ n ∈ U a ∨ (n = name ∧ v ≠ PREV ∧ v ≠ NEXT).
Proof.
  unfold recorded. simpl. repeat case_bool_decide;
    rewrite ?elem_of_app, ?list_elem_of_singleton; tauto.
Qed.

(** The loop over the moves of the cells [cells], from the locals [a] and
    the cache [c]: names other than those of [cells] stay where they are,
    and the name of each cell goes to the bucket of the value that
    [game_value] finds for its move in the cache left by the turns before. *)
Lemma classify_loop_spec board d cells a c :
  (12 ≤ length board)%nat → NoDup cells →
  Forall (fun i => i < 12)%nat cells → game_valued c →
  (∀ i, i ∈ cells →
     (NAME !!! i ∉ W a) ∧ (NAME !!! i ∉ U a) ∧ (NAME !!! i ∉ L a)) →
  ∃ a' c',
    classify_loop board d ((fun i => play i board) <$> cells) (a, c)
    = Ok (a', c') ∧
    (∀ n, (∀ i, i ∈ cells → n ≠ NAME !!! i) →
       (n ∈ W a' ↔ n ∈ W a) ∧ (n ∈ U a' ↔ n ∈ U a) ∧
       (n ∈ L a' ↔ n ∈ L a) ∧ moves a' !! n = moves a !! n) ∧
    (∀ k i, cells !! k = Some i →
       ∃ a_k c_k v c'',
         classify_loop board d ((fun i => play i board) <$> take k cells) (a, c)
         = Ok (a_k, c_k) ∧
         game_value (play i board) d c_k = Ok (v, c'') ∧
         moves a' !! (NAME !!! i) = Some (Some (play i board)) ∧
         (NAME !!! i ∈ W a' ↔ v = PREV) ∧
         (NAME !!! i ∈ L a' ↔ v = NEXT) ∧
         (NAME !!! i ∈ U a' ↔ v = UNKNOWN)).
Proof.
  intros Hlen Hnodup Hcells. revert a c.
  induction Hcells as [|i cells Hi Hcells IH]; intros a c Hc Hfree.
  { exists a, c. split; [done|]. split; [done|]. by intros k i ?. }
  apply NoDup_cons in Hnodup as [Hnotin Hnodup].
  destruct (classify_step_play board d a c i Hlen Hi) as (v & c1 & Hrun & Hstep).
  destruct (game_value_fuel_valued _ _ _ _ _ _ Hc Hrun) as (Hv & Hc1 & _).
  set (a1 := recorded a (NAME !!! i) i (play i board) v) in *.
  assert (Hother : ∀ j, j ∈ cells → NAME !!! j ≠ NAME !!! i).
  { intros j Hj Heq. apply NAME_inj in Heq; [by subst|..|done].
    by eapply (proj1 (Forall_forall _ _) Hcells). }
  destruct (IH Hnodup a1 c1 Hc1) as (a' & c' & Hloop & Hframe & Hturn).
  { intros j Hj. destruct (Hfree j) as (HW & HU & HL); [by right|].
    pose proof (Hother j Hj) as Hne. unfold a1.
    rewrite recorded_W, recorded_U, recorded_L. tauto. }
  destruct (Hfree i) as (HW & HU & HL); [by left|].
  exists a', c'. split_and!.
  - rewrite fmap_cons. cbn [classify_loop]. by rewrite Hstep, bind_Ok_l.
  - intros n Hn. destruct (Hframe n) as (HW' & HU' & HL' & Hmoves').
    { intros j Hj. apply Hn. by right. }
    assert (n ≠ NAME !!! i) as Hne by (apply Hn; by left).
    rewrite HW', HU', HL', Hmoves'. unfold a1.
    rewrite recorded_W, recorded_U, recorded_L. simpl.
    rewrite lookup_insert_ne by done. tauto.
  - intros [|k] j Hk; simpl in Hk.
    + simplify_eq. exists a, c, v, c1. split; [done|]. split; [done|].
      destruct (Hframe (NAME !!! j)) as (HW' & HU' & HL' & Hmoves').
      { intros j' Hj'. apply not_eq_sym. by apply Hother. }
      rewrite HW', HU', HL', Hmoves'. unfold a1.
      rewrite recorded_W, recorded_U, recorded_L. simpl.
      rewrite lookup_insert_eq. unfold PREV, UNKNOWN, NEXT in *.
      split_and!; [done|..]; intuition lia.
    + destruct (Hturn k j Hk) as (a_k & c_k & v' & c'' & Hloop' & Hrest).
      exists a_k, c_k, v', c''. split; [|done].
      rewrite firstn_cons, fmap_cons. cbn [classify_loop].
      by rewrite Hstep, bind_Ok_l.
Qed.

(** C8. Whenever [game_moves board] returns, the classification loop of
    [move] returns too, and for every move [m] it tries, recorded in [moves]
    under its name: the name is in [W] exactly when [game_value m depth
    cache] is [PREV], in [L] exactly when it is [NEXT] and in [U] exactly
    when it is [UNKNOWN], the cache being the one left by the turns of the
    loop before [m], and holding game values to begin with. *)
Theorem move_classification board AI ms :
  game_valued (cache AI) → game_moves board = Ok ms →
  ∃ a AI',
    classify board AI = Ok (a, AI') ∧
    ∀ k m, ms !! k = Some m →
      ∃ name a_k c_k v c',
        moves a !! name = Some (Some m) ∧
        classify_loop board (depth AI) (take k ms) (analysis_init, cache AI)
        = Ok (a_k, c_k) ∧
        game_value m (depth AI) c_k = Ok (v, c') ∧
        (name ∈ W a ↔ v = PREV) ∧
        (name ∈ L a ↔ v = NEXT) ∧
        (name ∈ U a ↔ v = UNKNOWN).
Proof.
  intros Hc Hms. unfold classify. rewrite Hms, bind_Ok_l.
  destruct ms as [|m0 ms0].
  { eexists _, _. split; [done|]. by intros k m ?. }
  pose proof (game_moves_length _ _ _ Hms) as Hlen.
  assert (Hplay : m0 :: ms0 = (fun i => play i board) <$> playable board).
  { destruct (decide (game_over board)).
    - by rewrite game_moves_over in Hms.
    - rewrite game_moves_playable in Hms by done. congruence. }
  rewrite Hplay.
  destruct (classify_loop_spec board (depth AI) (playable board)
              analysis_init (cache AI)) as (a & c' & Hloop & _ & Hturn);
    [done| | |done| |].
  - unfold playable. apply NoDup_filter, NoDup_seq.
  - unfold playable. apply Forall_forall.
    intros i [_ Hi%elem_of_seq]%list_elem_of_filter. lia.
  - intros i _. simpl. split_and!; by intros ?%elem_of_nil.
  - rewrite Hloop, bind_Ok_l. eexists _, _. split; [done|].
    intros k m Hk. rewrite list_lookup_fmap in Hk.
    destruct (playable board !! k) as [i|] eqn:Hi; [|done].
    simpl in Hk. simplify_eq.
    destruct (Hturn k i Hi) as (a_k & c_k & v & c'' & Hloop' & Hrest).
    exists (NAME !!! i), a_k, c_k, v, c''. rewrite <- fmap_take. tauto.
Qed.

(** * The claims at sample positions *)

(** C1 on the won position, with the cache that one call at budget 0 on that
    position leaves, queried at budget 1. *)
Lemma cache_sound_across_budgets_witness :
  valid_board won_board ∧ 0 ≤ 1 ∧ populated 0 {[ 21 := PREV ]} ∧
  (∃ v c', game_value won_board 1 {[ 21 := PREV ]} = Ok (v, c')) ∧
  (∀ v1 c1 v2 c2,
     game_value won_board 1 {[ 21 := PREV ]} = Ok (v1, c1) →
     game_value won_board 1 ∅ = Ok (v2, c2) →
     v1 ≠ UNKNOWN → v2 ≠ UNKNOWN → v1 = v2) ∧
  (∀ da db d d' cache cache' v c1 v' c1',
     populated da cache → populated db cache' →
     game_value won_board d cache = Ok (v, c1) →
     game_value won_board d' cache' = Ok (v', c1') →
     v ≠ UNKNOWN → v' ≠ UNKNOWN → v = v') ∧
  (∀ db cache' h v v',
     populated db cache' → ({[ 21 := PREV ]} : gmap Z Z) !! h = Some v →
     cache' !! h = Some v' → v ≠ UNKNOWN ∧ v = v').
Proof.
  assert (Hvalid : valid_board won_board) by sample_valid.
  assert (Hle : 0 ≤ 1) by lia.
  assert (Hc : populated 0 {[ 21 := PREV ]}).
  { apply (populated_call 0 ∅ won_board PREV); [constructor|done|].
    vm_compute. reflexivity. }
  split; [done|]. split; [done|]. split; [done|].
  exact (cache_sound_across_budgets won_board 0 1 {[ 21 := PREV ]} Hvalid Hle Hc).
Defined.

(** C2 on a position with two greens. *)
Lemma game_moves_characterised_witness :
  valid_board open_board ∧
  (game_moves open_board = Ok [] ↔
   ∃ x y z, (x, y, z) ∈ LINES ∧
     0 < open_board !!! x ∧ open_board !!! x = open_board !!! y ∧
     open_board !!! y = open_board !!! z) ∧
  (game_moves open_board ≠ Ok [] →
   game_moves open_board
   = Ok ((fun i => <[i := open_board !!! i + 1]> open_board)
           <$> filter (fun i => open_board !!! i < 3) (seq 0 12)) ∧
   ∀ ms, game_moves open_board = Ok ms →
     length ms = length (filter (fun b => b < 3) open_board)).
Proof.
  assert (Hvalid : valid_board open_board) by sample_valid.
  split; [done|]. exact (game_moves_characterised open_board Hvalid).
Defined.

(** C3 on the empty board at budget 1, from the empty cache. *)
Lemma unknown_never_cached_witness :
  no_unknown ∅ ∧
  match game_value empty_board 1 ∅ with
  | Ok (v, c') =>
      no_unknown c' ∧ ∅ ⊆ c' ∧
      (game_valued ∅ → ∀ h w, c' !! h = Some w → (∅ : gmap Z Z) !! h = None →
         w = PREV ∨ w = NEXT)
  | Raise e => e = IndexError ∧ (length empty_board < 12)%nat
  end ∧
  game_value empty_board 1 ∅ = Ok (UNKNOWN, ∅).
Proof.
  assert (Hc : no_unknown ∅) by (intros h; by rewrite lookup_empty).
  split; [done|]. exact (unknown_never_cached empty_board 1 ∅ Hc).
Defined.

(** C4 on a position with two greens and its half turn. *)
Lemma game_hash_symmetric_witness :
  valid_board open_board ∧
  [11; 10; 9; 8; 7; 6; 5; 4; 3; 2; 1; 0]%nat ∈ INDICES ∧
  permute [11; 10; 9; 8; 7; 6; 5; 4; 3; 2; 1; 0]%nat open_board = turned_board ∧
  ∃ h, game_hash open_board = Ok h ∧
       game_hash (permute [11; 10; 9; 8; 7; 6; 5; 4; 3; 2; 1; 0]%nat open_board)
       = Ok h.
Proof.
  assert (Hvalid : valid_board open_board) by sample_valid.
  assert (Htable : [11; 10; 9; 8; 7; 6; 5; 4; 3; 2; 1; 0]%nat ∈ INDICES)
    by (unfold INDICES; apply list_elem_of_further, list_elem_of_here).
  split; [done|]. split; [done|]. split; [reflexivity|].
  exact (game_hash_symmetric open_board _ Hvalid Htable).
Defined.

(** C5 at budget 0, with a cache that holds [NEXT] for the position. *)
Lemma cache_hit_first_witness :
  game_hash open_board = Ok 5 ∧
  ({[ 5 := NEXT ]} : gmap Z Z) !! 5 = Some NEXT ∧
  game_value open_board 0 {[ 5 := NEXT ]} = Ok (NEXT, {[ 5 := NEXT ]}).
Proof.
  assert (Hh : game_hash open_board = Ok 5) by (vm_compute; reflexivity).
  assert (Hc : ({[ 5 := NEXT ]} : gmap Z Z) !! 5 = Some NEXT)
    by (vm_compute; reflexivity).
  split; [done|]. split; [done|].
  exact (cache_hit_first open_board 0 {[ 5 := NEXT ]} 5 NEXT Hh Hc).
Defined.

(** C7 on the empty board at the budget [INFINITY]. *)
Lemma game_value_terminates_witness :
  valid_board empty_board ∧
  cells_sum empty_board ≤ 36 ∧
  (∀ ms m, game_moves empty_board = Ok ms → m ∈ ms →
     valid_board m ∧ cells_sum m = cells_sum empty_board + 1) ∧
  (∀ fuel, 36 - cells_sum empty_board < Z.of_nat fuel →
     ∃ v c', game_value_fuel fuel empty_board INFINITY ∅ = Ok (v, c')) ∧
  (∃ v c', game_value empty_board INFINITY ∅ = Ok (v, c')).
Proof.
  assert (Hvalid : valid_board empty_board) by sample_valid.
  split; [done|]. exact (game_value_terminates empty_board INFINITY ∅ Hvalid).
Defined.

(** C10 on a position and its half turn, which have the same hash. *)
Lemma game_hash_collides_only_by_symmetry_witness :
  valid_board open_board ∧ valid_board turned_board ∧
  game_hash open_board = game_hash turned_board ∧
  ∃ table, table ∈ INDICES ∧ turned_board = permute table open_board.
Proof.
  assert (Hvalid : valid_board open_board) by sample_valid.
  assert (Hvalid' : valid_board turned_board) by sample_valid.
  assert (Hhash : game_hash open_board = game_hash turned_board)
    by (vm_compute; reflexivity).
  split; [done|]. split; [done|]. split; [done|].
  exact (game_hash_collides_only_by_symmetry open_board turned_board
           Hvalid Hvalid' Hhash).
Defined.

(** C8 on the empty board, for an assistant of depth 0. *)
Lemma move_classification_witness :
  game_valued (cache fresh_AI) ∧ game_moves empty_board = Ok first_moves ∧
  ∃ a AI',
    classify empty_board fresh_AI = Ok (a, AI') ∧
    ∀ k m, first_moves !! k = Some m →
      ∃ name a_k c_k v c',
        moves a !! name = Some (Some m) ∧
        classify_loop empty_board (depth fresh_AI) (take k first_moves)
          (analysis_init, cache fresh_AI)
        = Ok (a_k, c_k) ∧
        game_value m (depth fresh_AI) c_k = Ok (v, c') ∧
        (name ∈ W a ↔ v = PREV) ∧
        (name ∈ L a ↔ v = NEXT) ∧
        (name ∈ U a ↔ v = UNKNOWN).
Proof.
  assert (Hc : game_valued (cache fresh_AI)).
  { intros h v Hh. simpl in Hh. by rewrite lookup_empty in Hh. }
  assert (Hms : game_moves empty_board = Ok first_moves)
    by (vm_compute; reflexivity).
  split; [done|]. split; [done|].
  exact (move_classification empty_board fresh_AI first_moves Hc Hms).
Defined.

(** * Further properties of the code *)

(** ** The hash: short boards, cells in excess, the least image *)

Lemma permute_app table board extra :
  Forall (fun i => i < length board)%nat table →
  permute table (board ++ extra) = permute table board.
Proof.
  intros Htable. unfold permute. apply Forall_fmap_ext_1.
  eapply Forall_impl; [done|]. intros i Hi. simpl in *.
  by rewrite lookup_total_app_l.
Qed.

(** X1. [game_hash] raises [IndexError] exactly on the boards of fewer than
    twelve cells, and it does not look at the cells after the twelfth. *)
Theorem game_hash_short_or_defined board :
  (game_hash board = Raise IndexError ↔ (length board < 12)%nat) ∧
  (∀ e, game_hash board = Raise e → e = IndexError) ∧
  (∀ extra, length board = 12%nat →
     game_hash (board ++ extra) = game_hash board).
Proof.
  assert (Hcases : (length board < 12)%nat ∧ game_hash board = Raise IndexError ∨
                   (12 ≤ length board)%nat ∧ ∃ h, game_hash board = Ok h).
  { destruct (decide (length board < 12)%nat) as [Hlen|Hlen].
    - left. split; [done|]. by apply game_hash_short_board.
    - right. split; [lia|]. rewrite game_hash_packed by lia. by eexists. }
  split_and!.
  - destruct Hcases as [[? ->]|[? [h ->]]]; split; (done || lia).
  - intros e. destruct Hcases as [[? ->]|[? [h ->]]]; congruence.
  - intros extra Hlen.
    rewrite !game_hash_packed by (rewrite ?length_app; lia).
    rewrite !permute_app by (rewrite Hlen; repeat constructor; lia). done.
Qed.

Lemma packed_bounds cells :
  Forall (fun b => 0 ≤ b ≤ 3) cells →
  0 ≤ packed cells < 4 ^ Z.of_nat (length cells).
Proof.
  induction 1 as [|b cells Hb _ IH]; [done|].
  cbn [packed foldr length]. fold (packed cells).
  replace (Z.of_nat (S (length cells))) with (Z.of_nat (length cells) + 1)
    by lia.
  rewrite Z.pow_add_r by lia. lia.
Qed.

(** X2. On a board of the data model the hash is the least of the four
    numbers obtained by reading the four symmetric images of the board in
    base 4, lowest cell first; it lies between 0 and [4^12 - 1]. *)
Theorem game_hash_least_image board :
  valid_board board →
  ∃ h, game_hash board = Ok h ∧
    0 ≤ h < 4 ^ 12 ∧
    (∃ table, table ∈ INDICES ∧ h = packed (permute table board)) ∧
    (∀ table, table ∈ INDICES → h ≤ packed (permute table board)).
Proof.
  intros Hvalid. pose proof Hvalid as [Hlen Hcells].
  destruct (game_hash board) as [h|e] eqn:Hh;
    [|by rewrite game_hash_packed in Hh by lia].
  exists h. split; [done|].
  destruct (game_hash_attained board h) as (t & Ht & Hpacked); [lia|done|].
  split; [|split].
  - pose proof (permute_valid _ _ Hvalid Ht) as [Hlen' Hcells'].
    pose proof (packed_bounds _ Hcells') as Hbound.
    rewrite Hlen' in Hbound. rewrite Hpacked. exact Hbound.
  - by exists t.
  - intros table Htable. rewrite game_hash_packed in Hh by lia.
    assert (Hinj : ∀ x y : Z, Ok x = Ok y → x = y) by congruence.
    apply Hinj in Hh. clear Hinj. rewrite <- Hh. cbn [foldl].
    in_INDICES Htable; lia.
Qed.

(** X2 on a position with two greens. *)
Lemma game_hash_least_image_witness :
  valid_board open_board ∧
  ∃ h, game_hash open_board = Ok h ∧
    0 ≤ h < 4 ^ 12 ∧
    (∃ table, table ∈ INDICES ∧ h = packed (permute table open_board)) ∧
    (∀ table, table ∈ INDICES → h ≤ packed (permute table open_board)).
Proof.
  assert (Hvalid : valid_board open_board) by sample_valid.
  split; [done|]. exact (game_hash_least_image open_board Hvalid).
Defined.

(** ** The move generator on any board *)

Lemma any_line_raises board lines e :
  any_line board lines = Raise e → e = IndexError.
Proof.
  induction lines as [|[[x y] z] lines IH]; [done|].
  cbn [any_line]. unfold line_full, item.
  repeat (case_match; simpl; try done; try congruence).
Qed.

Lemma collect_moves_raises board cells acc e :
  collect_moves board cells acc = Raise e → e = IndexError.
Proof.
  revert acc. induction cells as [|i cells IH]; intros acc; [done|].
  cbn [collect_moves]. unfold item.
  destruct (board !! i); simpl; [|congruence].
  case_bool_decide; apply IH.
Qed.

(** X3. On a board of fewer than twelve cells [game_moves] never returns a
    move: it returns the empty list, when a complete line is found before a
    missing cell is read, or raises [IndexError]. On a board of twelve
    cells or more it returns. *)
Theorem game_moves_short_board board :
  ((length board < 12)%nat →
     game_moves board = Ok [] ∨ game_moves board = Raise IndexError) ∧
  ((12 ≤ length board)%nat → ∃ ms, game_moves board = Ok ms) ∧
  game_moves [1; 1; 1] = Ok [] ∧
  game_moves [1; 1; 2] = Raise IndexError.
Proof.
  split_and!; [| |reflexivity..].
  - intros Hlen. destruct (game_moves board) as [[|m ms]|e] eqn:Hms.
    + by left.
    + apply game_moves_length in Hms. lia.
    + right. f_equal. unfold game_moves in Hms.
      destruct (any_line board LINES) as [[]|e'] eqn:Hany.
      * done.
      * rewrite bind_Ok_l in Hms. by eapply collect_moves_raises.
      * apply any_line_raises in Hany. cbn in Hms. congruence.
  - intros Hlen. destruct (decide (game_over board)).
    + rewrite game_moves_over by done. by eexists.
    + rewrite game_moves_playable by done. by eexists.
Qed.

Lemma play_lookup_eq i board :
  (i < length board)%nat → play i board !!! i = board !!! i + 1.
Proof. intros Hi. unfold play. by rewrite list_lookup_total_insert_eq. Qed.

Lemma play_lookup_ne i j board : i ≠ j → play i board !! j = board !! j.
Proof. intros Hne. unfold play. by rewrite list_lookup_insert_ne. Qed.

Lemma play_inj i j board :
  (i < length board)%nat → play i board = play j board → i = j.
Proof.
  intros Hi Heq. destruct (decide (i = j)) as [|Hne]; [done|]. exfalso.
  assert (Hcell : play i board !!! i = play j board !!! i) by congruence.
  rewrite play_lookup_eq in Hcell by done. unfold play in Hcell.
  rewrite list_lookup_total_insert_ne in Hcell by done. lia.
Qed.

Lemma playable_NoDup board : NoDup (playable board).
Proof. unfold playable. apply NoDup_filter, NoDup_seq. Qed.

Lemma playable_elem board i :
  i ∈ playable board ↔ (i < 12)%nat ∧ board !!! i < 3.
Proof.
  unfold playable. rewrite list_elem_of_filter, elem_of_seq. intuition lia.
Qed.

(** X4. Whatever integers the cells hold, the moves that [game_moves]
    returns are pairwise distinct and none is the board itself; each has the
    length of the board and is the board with one of the first twelve cells,
    of a value below 3, incremented by one, every other cell being kept. *)
Theorem game_moves_distinct board ms :
  game_moves board = Ok ms →
  NoDup ms ∧ (board ∉ ms) ∧
  ∀ m, m ∈ ms →
    length m = length board ∧
    ∃ i, (i < 12)%nat ∧ board !!! i < 3 ∧ m !!! i = board !!! i + 1 ∧
         ∀ j, j ≠ i → m !! j = board !! j.
Proof.
  intros Hms.
  assert (Hshape : ∀ m, m ∈ ms →
            (12 ≤ length board)%nat ∧
            ∃ i, (i < 12)%nat ∧ board !!! i < 3 ∧ m = play i board).
  { intros m Hm. destruct (game_moves_elem _ _ _ Hms Hm) as (? & _ & ?). done. }
  split_and!.
  - destruct ms as [|m0 ms0]; [constructor|].
    pose proof (game_moves_length _ _ _ Hms) as Hlen.
    destruct (decide (game_over board)) as [Hover|Hover];
      [by rewrite game_moves_over in Hms|].
    rewrite game_moves_playable in Hms by done.
    assert (m0 :: ms0 = (fun i => play i board) <$> playable board) as ->
      by congruence.
    apply NoDup_fmap_2_strong; [|apply playable_NoDup].
    intros i j [Hi _]%playable_elem _ Heq. apply (play_inj i j board); [lia|done].
  - intros Hin. destruct (Hshape _ Hin) as (Hlen & i & Hi & _ & Heq).
    assert (Hcell : board !!! i = play i board !!! i) by congruence.
    rewrite play_lookup_eq in Hcell by lia. lia.
  - intros m Hm. destruct (Hshape _ Hm) as (Hlen & i & Hi & Hlt & ->).
    split; [apply play_length|]. exists i. split_and!; [done..| |].
    + apply play_lookup_eq. lia.
    + intros j Hj. by apply play_lookup_ne.
Qed.

(** X4 on the empty board. *)
Lemma game_moves_distinct_witness :
  game_moves empty_board = Ok first_moves ∧
  NoDup first_moves ∧ (empty_board ∉ first_moves) ∧
  ∀ m, m ∈ first_moves →
    length m = length empty_board ∧
    ∃ i, (i < 12)%nat ∧ empty_board !!! i < 3 ∧
         m !!! i = empty_board !!! i + 1 ∧
         ∀ j, j ≠ i → m !! j = empty_board !! j.
Proof.
  assert (Hms : game_moves empty_board = Ok first_moves)
    by (vm_compute; reflexivity).
  split; [done|]. exact (game_moves_distinct empty_board first_moves Hms).
Defined.

(** ** No game is longer than 36 moves *)

(** X5. From a board of the data model, a sequence of positions each of
    which is a move of the one before has at most 36 minus the sum of the
    cells positions; all of them are boards of the data model, and the sum
    of the cells of the last is the sum of the first plus their number. *)
Theorem game_path_bound board path :
  valid_board board → game_path board path →
  Z.of_nat (length path) ≤ 36 - cells_sum board ∧
  Forall valid_board path ∧
  ∀ final, last path = Some final →
    cells_sum final = cells_sum board + Z.of_nat (length path).
Proof.
  intros Hvalid Hpath.
  assert (Hgen : Forall valid_board path ∧
            ∀ final, last (board :: path) = Some final →
              valid_board final ∧
              cells_sum final = cells_sum board + Z.of_nat (length path)).
  { induction Hpath as [board|board ms m path Hms Hm _ IH].
    - split; [constructor|]. intros final [= <-]. split; [done|]. simpl. lia.
    - destruct (game_moves_elem _ _ _ Hms Hm) as (_ & _ & i & Hi & Hlt & ->).
      pose proof (play_valid i board Hvalid Hlt) as Hvalid'.
      destruct (IH Hvalid') as [Hall Hlast]. split; [by constructor|].
      intros final Hfinal. rewrite last_cons_cons in Hfinal.
      destruct (Hlast final Hfinal) as [? ->]. split; [done|].
      destruct Hvalid as [Hlen _]. rewrite play_cells_sum by lia.
      cbn [length]. lia. }
  destruct Hgen as [Hall Hlast].
  assert (Hsum : ∀ b, valid_board b → cells_sum b ≤ 36).
  { intros b [Hlen Hcells]. pose proof (cells_sum_bounds _ Hcells). lia. }
  split_and!; [|done|].
  - destruct (last (board :: path)) as [final|] eqn:Hfinal;
      [|by apply last_None in Hfinal].
    destruct (Hlast final eq_refl) as [Hv Heq].
    pose proof (Hsum _ Hv). lia.
  - intros final Hfinal. apply Hlast.
    destruct path as [|m path]; [done|]. by rewrite last_cons_cons.
Qed.

(** X5 on the position with two greens and the move that wins it. *)
Lemma game_path_bound_witness :
  valid_board open_board ∧ game_path open_board [won_board] ∧
  Z.of_nat (length [won_board]) ≤ 36 - cells_sum open_board ∧
  Forall valid_board [won_board] ∧
  ∀ final, last [won_board] = Some final →
    cells_sum final = cells_sum open_board + Z.of_nat (length [won_board]).
Proof.
  assert (Hvalid : valid_board open_board) by sample_valid.
  assert (Hpath : game_path open_board [won_board]).
  { eapply game_path_cons; [vm_compute; reflexivity| |constructor].
    apply list_elem_of_further, list_elem_of_further, list_elem_of_here. }
  split; [done|]. split; [done|].
  exact (game_path_bound open_board [won_board] Hvalid Hpath).
Defined.

(** ** The solver on a finished game, and one move from it *)

Lemma sound_resolved c : sound c → resolved c.
Proof.
  intros Hc h v Hh. destruct (Hc h v Hh) as [(b & Hb & Hhash) Hall].
  eapply value_of_range. by apply (Hall b).
Qed.

Lemma sound_game_valued c : sound c → game_valued c.
Proof.
  intros Hc h v Hh. destruct (sound_resolved c Hc h v Hh); auto.
Qed.

Lemma game_value_fuel_over fuel board d c v c' :
  valid_board board → game_over board → sound c →
  game_value_fuel fuel board d c = Ok (v, c') →
  v = PREV ∧ ∃ h, game_hash board = Ok h ∧ c' !! h = Some PREV.
Proof.
  intros Hvalid Hover Hc Hrun. pose proof Hvalid as [Hlen _].
  destruct fuel as [|fuel]; [done|].
  assert (Hnil : game_moves board = Ok []) by (apply game_moves_over; [lia|done]).
  apply game_value_fuel_S in Hrun
    as (h & Hh & [[Hhit ->]|(Hmiss & ms & c1 & Hms & Hloop & ->)]).
  - destruct (Hc h v Hhit) as [_ Hall].
    assert (v = PREV) as ->.
    { eapply value_of_det; [by apply Hall|by apply value_over]. }
    split; [done|]. by exists h.
  - assert (ms = []) as -> by congruence.
    destruct Hloop as [(_ & -> & ->)|[(? & _)|(? & _)]]; [|done..].
    split; [done|]. exists h. split; [done|].
    rewrite bool_decide_eq_true_2 by done. apply lookup_insert_eq.
Qed.

(** X6. On a board of the data model with a complete line, [game_value]
    returns [PREV] at every budget, whether the cache knows the position or
    not, as long as what the cache holds is right; and the cache then holds
    [PREV] for the position. *)
Theorem game_value_game_over board d c :
  valid_board board → game_over board → sound c →
  ∃ c' h, game_value board d c = Ok (PREV, c') ∧
    game_hash board = Ok h ∧ c' !! h = Some PREV ∧ sound c'.
Proof.
  intros Hvalid Hover Hc. pose proof Hvalid as [Hlen _].
  destruct (game_value_total board d c) as (v & c' & Hrun); [lia|].
  destruct (game_value_fuel_over _ _ _ _ _ _ Hvalid Hover Hc Hrun)
    as (-> & h & Hh & Hc').
  exists c', h. split_and!; [done..|].
  by apply (game_value_fuel_sound _ _ _ _ _ _ Hvalid Hc Hrun).
Qed.

(** X6 on the won position, from the empty cache. *)
Lemma game_value_game_over_witness :
  valid_board won_board ∧ game_over won_board ∧ sound ∅ ∧
  ∃ c' h, game_value won_board 0 ∅ = Ok (PREV, c') ∧
    game_hash won_board = Ok h ∧ c' !! h = Some PREV ∧ sound c'.
Proof.
  assert (Hvalid : valid_board won_board) by sample_valid.
  assert (Hover : game_over won_board).
  { apply Exists_cons_hd. unfold three_in_line. simpl. lia. }
  split; [done|]. split; [done|]. split; [exact sound_empty|].
  exact (game_value_game_over won_board 0 ∅ Hvalid Hover sound_empty).
Defined.

Lemma game_value_fuel_range fuel board d c v c' :
  valid_board board → sound c →
  game_value_fuel fuel board d c = Ok (v, c') →
  v = PREV ∨ v = UNKNOWN ∨ v = NEXT.
Proof.
  intros Hvalid Hc Hrun.
  by apply (game_value_fuel_valued _ _ _ _ _ _ (sound_game_valued _ Hc)) in Hrun
    as (? & _).
Qed.

(** X7. With a budget other than 0 the solver never misses a win in one
    move: on a board of the data model without a complete line, one move of
    which completes a line, [game_value] returns [NEXT], whatever the cache
    holds, as long as it is right. *)
Theorem game_value_win_in_one board d c i :
  valid_board board → ¬ game_over board → sound c → d ≠ 0 →
  (i < 12)%nat → board !!! i < 3 → game_over (play i board) →
  ∃ c', game_value board d c = Ok (NEXT, c') ∧ sound c'.
Proof.
  intros Hvalid Hopen Hc Hd Hi Hlt Hwin. pose proof Hvalid as [Hlen _].
  destruct (game_value_total board d c) as (v & c' & Hrun); [lia|].
  pose proof (game_value_fuel_sound _ _ _ _ _ _ Hvalid Hc Hrun) as [Hc' Hv].
  exists c'. split; [|done]. rewrite Hrun. do 2 f_equal.
  set (m := play i board) in *.
  assert (Hvm : valid_board m) by (by apply play_valid).
  destruct (game_moves board) as [ms|] eqn:Hms;
    [|by rewrite game_moves_playable in Hms by (done || lia)].
  assert (Hm : m ∈ ms).
  { rewrite game_moves_playable in Hms by (done || lia).
    assert (ms = (fun i => play i board) <$> playable board) as -> by congruence.
    apply list_elem_of_fmap. exists i. split; [done|]. by apply playable_elem. }
  assert (Hnext : value_of board NEXT).
  { eapply value_win; [done..|]. apply value_over. apply game_moves_over; [|done].
    destruct Hvm. lia. }
  destruct Hv as [-> |Hv]; [|by eapply value_of_det]. exfalso.
  apply game_value_fuel_S in Hrun
    as (h & Hh & [[Hhit ->]|(Hmiss & ms' & c1 & Hms' & Hloop & _)]).
  { destruct (Hc h UNKNOWN Hhit) as [_ Hall].
    by pose proof (value_of_det _ _ _ (Hall board Hvalid Hh) Hnext). }
  assert (ms' = ms) as -> by congruence.
  destruct Hloop as [(-> & _)|[(_ & ? & _)|(_ & _ & Hloop)]];
    [by apply elem_of_nil in Hm|done|].
  apply (best_reply_inv _ _
           (fun seen v c1 => sound c1 ∧ (v = PREV ∨ v = UNKNOWN ∨ v = NEXT) ∧
                             (m ∈ seen → v = NEXT)) [])
    in Hloop as (seen & rest & Heq & (_ & _ & Hseen) & Hend).
  - destruct Hend as [| ->]; [done|]. rewrite app_nil_r in Heq. simpl in Heq.
    subst seen. by pose proof (Hseen Hm).
  - intros seen m' value ca v1 cb Hm' (Hca & Hvalue & Hseen) Hrec.
    pose proof (game_moves_valid _ _ _ Hvalid Hms Hm') as Hvm'.
    pose proof (game_value_fuel_sound _ _ _ _ _ _ Hvm' Hca Hrec) as [Hcb _].
    pose proof (game_value_fuel_range _ _ _ _ _ _ Hvm' Hca Hrec) as Hv1.
    split; [done|]. split; [unfold PREV, UNKNOWN, NEXT in *; lia|].
    intros [Hin| ->%list_elem_of_singleton]%elem_of_app.
    + specialize (Hseen Hin). unfold PREV, UNKNOWN, NEXT in *. lia.
    + apply game_value_fuel_over in Hrec as [-> _]; [|done..].
      unfold PREV, UNKNOWN, NEXT in *. lia.
  - split; [done|]. split; [by left|]. by intros ?%elem_of_nil.
Qed.

(** X7 on the position with two greens, at budget 1. *)
Lemma game_value_win_in_one_witness :
  valid_board open_board ∧ ¬ game_over open_board ∧ sound ∅ ∧ 1 ≠ 0 ∧
  (2 < 12)%nat ∧ open_board !!! 2%nat < 3 ∧ game_over (play 2 open_board) ∧
  ∃ c', game_value open_board 1 ∅ = Ok (NEXT, c') ∧ sound c'.
Proof.
  assert (Hvalid : valid_board open_board) by sample_valid.
  assert (Hopen : ¬ game_over open_board) by (by apply (bool_decide_unpack _)).
  assert (Hd : 1 ≠ 0) by lia.
  assert (Hi : (2 < 12)%nat) by lia.
  assert (Hlt : open_board !!! 2%nat < 3) by (simpl; lia).
  assert (Hwin : game_over (play 2 open_board))
    by (by apply (bool_decide_unpack _)).
  split_and!; [done|done|exact sound_empty|done..|].
  exact (game_value_win_in_one open_board 1 ∅ 2 Hvalid Hopen sound_empty
           Hd Hi Hlt Hwin).
Defined.

(** ** An exhaustive search finds the value under perfect play *)

(** X8. Every board of the data model has exactly one value under perfect
    play, [PREV] or [NEXT], and [game_value] returns it, never [UNKNOWN],
    when the budget is negative or at least 36 minus the sum of the cells
    (36, or [INFINITY], will do for every board) and what the cache holds is
    right; what the cache holds is then still right. *)
Theorem game_value_exhaustive board d c :
  valid_board board → sound c → d < 0 ∨ 36 - cells_sum board ≤ d →
  ∃ v c', game_value board d c = Ok (v, c') ∧
    (v = PREV ∨ v = NEXT) ∧ value_of board v ∧
    (∀ w, value_of board w → w = v) ∧ sound c'.
Proof.
  intros Hvalid Hc Hd. pose proof Hvalid as [Hlen _].
  destruct (game_value_total board d c) as (v & c' & Hrun); [lia|].
  exists v, c'. split; [done|].
  pose proof (game_value_fuel_exhaustive _ _ _ _ _ _ Hvalid
                (sound_resolved _ Hc) Hd Hrun) as [Hv _].
  pose proof (game_value_fuel_sound _ _ _ _ _ _ Hvalid Hc Hrun) as [Hc' Hval].
  assert (value_of board v) as Hvalue.
  { destruct Hval as [-> |]; [|done]. by destruct Hv. }
  split_and!; [done..| |done].
  intros w Hw. by eapply value_of_det.
Qed.

(** X8 on the empty board at the budget [INFINITY], from the empty cache. *)
Lemma game_value_exhaustive_witness :
  valid_board empty_board ∧ sound ∅ ∧
  (INFINITY < 0 ∨ 36 - cells_sum empty_board ≤ INFINITY) ∧
  ∃ v c', game_value empty_board INFINITY ∅ = Ok (v, c') ∧
    (v = PREV ∨ v = NEXT) ∧ value_of empty_board v ∧
    (∀ w, value_of empty_board w → w = v) ∧ sound c'.
Proof.
  assert (Hvalid : valid_board empty_board) by sample_valid.
  assert (Hd : INFINITY < 0 ∨ 36 - cells_sum empty_board ≤ INFINITY)
    by (right; vm_compute; discriminate).
  split; [done|]. split; [exact sound_empty|]. split; [done|].
  exact (game_value_exhaustive empty_board INFINITY ∅ Hvalid sound_empty Hd).
Defined.

(** ** A deeper search resolves whatever a shallower one does *)

Lemma cells_sum_permute table board :
  length board = 12%nat → table ∈ INDICES →
  cells_sum (permute table board) = cells_sum board.
Proof.
  intros Hlen Htable. cells12 board Hlen.
  in_INDICES Htable; unfold cells_sum; simpl; lia.
Qed.

Lemma permute_identity board :
  length board = 12%nat → permute (seq 0 12) board = board.
Proof. intros Hlen. by cells12 board Hlen. Qed.

Lemma identity_in_INDICES : seq 0 12 ∈ INDICES.
Proof. apply list_elem_of_here. Qed.

Lemma game_moves_cells_sum board ms m :
  valid_board board → game_moves board = Ok ms → m ∈ ms →
  cells_sum m = cells_sum board + 1.
Proof.
  intros [Hlen _] Hms Hm.
  destruct (game_moves_elem _ _ _ Hms Hm) as (_ & _ & i & Hi & _ & ->).
  apply play_cells_sum. lia.
Qed.

Section deeper.
  Variable D : Z.
  Variable c0 : gmap Z Z.

Lemma resolves_permute table q :
  valid_board q → table ∈ INDICES →
  resolves D c0 q → resolves D c0 (permute table q).
Proof.
  intros [Hlen _] Htable Hq table' fuel c2 v c2' Htable' Hc2 Hsub.
  destruct (permute_permute table' table q) as (t & Ht & ->); [done..|].
  rewrite cells_sum_permute by done. by apply Hq.
Qed.

Lemma resolves_over q : valid_board q → game_over q → resolves D c0 q.
Proof.
  intros Hvalid Hover table fuel c2 v c2' Htable Hc2 _ Hrun.
  apply game_value_fuel_over in Hrun as [-> _]; [done| |  |done].
  - by apply permute_valid.
  - apply game_over_permute; [by destruct Hvalid|done..].
Qed.

Lemma resolves_known h w q :
  c0 !! h = Some w → valid_board q → game_hash q = Ok h → resolved c0 →
  resolves D c0 q.
Proof.
  intros Hh Hvalid Hhash Hres table fuel c v c' Htable Hc Hsub Hrun.
  destruct fuel as [|fuel]; [done|].
  apply game_value_fuel_S in Hrun as (h' & Hh' & [[Hhit _]|[Hmiss _]]).
  - destruct (sound_resolved _ Hc _ _ Hhit) as [-> | ->]; done.
  - rewrite game_hash_permute in Hh' by (by destruct Hvalid || done).
    assert (h' = h) as -> by congruence.
    by rewrite (lookup_weaken _ _ _ _ Hh Hsub) in Hmiss.
Qed.

(** The child of a position that the deeper search resolves is found to have
    its value, in whichever image it is met. *)
Lemma resolves_child q ms m w table fuel c v c' :
  valid_board q → game_moves q = Ok ms → m ∈ ms →
  resolves D c0 m → value_of m w → table ∈ INDICES → sound c → c0 ⊆ c →
  game_value_fuel fuel (permute table m) (D - cells_sum q - 1) c = Ok (v, c') →
  v = w.
Proof.
  intros Hvalid Hms Hm Hres Hvalue Htable Hc Hsub Hrun.
  pose proof (game_moves_valid _ _ _ Hvalid Hms Hm) as Hvm.
  replace (D - cells_sum q - 1) with (D - cells_sum m) in Hrun
    by (rewrite (game_moves_cells_sum q ms m); (done || lia)).
  pose proof (Hres _ _ _ _ _ Htable Hc Hsub Hrun) as Hv.
  apply game_value_fuel_sound in Hrun as [_ [?|Hv']];
    [done| |by apply permute_valid|done].
  eapply value_of_det; [done|]. by apply value_of_permute.
Qed.

Lemma resolves_parent q ms :
  valid_board q → game_moves q = Ok ms → ms ≠ [] → 1 ≤ D - cells_sum q →
  (∀ m, m ∈ ms → resolves D c0 m ∧ value_of m NEXT) ∨
  (∃ m, m ∈ ms ∧ resolves D c0 m ∧ value_of m PREV) →
  resolves D c0 q.
Proof.
  intros Hvalid Hms Hne Hbudget Hchildren table fuel c v c' Htable Hc Hsub Hrun.
  destruct fuel as [|fuel]; [done|].
  pose proof (permute_valid _ _ Hvalid Htable) as Hvalid'.
  destruct (game_moves_permute table q ms Hvalid Htable Hms)
    as (ms' & Hms' & _ & Hin & Hout).
  apply game_value_fuel_S in Hrun
    as (h & Hh & [[Hhit _]|(Hmiss & ms'' & c1 & Hms'' & Hloop & _)]).
  { destruct (sound_resolved _ Hc _ _ Hhit) as [-> | ->]; done. }
  assert (ms'' = ms') as -> by congruence.
  destruct Hloop as [(-> & _)|[(_ & Hzero & _)|(_ & _ & Hloop)]].
  - destruct ms as [|m ms]; [done|]. exfalso.
    eapply not_elem_of_nil, (Hin m). by left.
  - lia.
  - destruct Hchildren as [Hall|(m & Hm & Hres & Hwin)].
    + apply (best_reply_inv _ _
               (fun _ v c1 => sound c1 ∧ c0 ⊆ c1 ∧ v = PREV) [])
        in Hloop as (_ & _ & _ & (_ & _ & ->) & _); [done| |done].
      intros _ m' _ ca v1 cb Hm' (Hca & Hsuba & ->) Hrec.
      destruct (Hout m' Hm') as (m & Hm & ->).
      destruct (Hall m Hm) as [Hres Hloss].
      pose proof (game_value_fuel_grows _ _ _ _ _ _ Hrec) as [Hsubb _].
      pose proof (resolves_child _ _ _ _ _ _ _ _ _ Hvalid Hms Hm Hres Hloss
                    Htable Hca Hsuba Hrec) as ->.
      apply game_value_fuel_sound in Hrec as [Hcb _];
        [| |done].
      * split; [done|]. split; [by etrans|done].
      * apply permute_valid; [|done]. by apply (game_moves_valid q ms).
    + apply (best_reply_inv _ _
               (fun seen v c1 => sound c1 ∧ c0 ⊆ c1 ∧
                  (v = PREV ∨ v = UNKNOWN ∨ v = NEXT) ∧
                  (permute table m ∈ seen → v = NEXT)) [])
        in Hloop as (seen & rest & Heq & (_ & _ & _ & Hseen) & Hend).
      * destruct Hend as [-> | ->]; [done|].
        rewrite app_nil_r in Heq. simpl in Heq. subst seen.
        by rewrite (Hseen (Hin m Hm)).
      * intros seen m' value ca v1 cb Hm' (Hca & Hsuba & Hvalue & Hseen) Hrec.
        destruct (Hout m' Hm') as (m1 & Hm1 & ->).
        pose proof (game_moves_valid _ _ _ Hvalid Hms Hm1) as Hvm1.
        pose proof (permute_valid _ _ Hvm1 Htable) as Hvm1'.
        pose proof (game_value_fuel_grows _ _ _ _ _ _ Hrec) as [Hsubb _].
        pose proof (game_value_fuel_range _ _ _ _ _ _ Hvm1' Hca Hrec) as Hv1.
        pose proof (game_value_fuel_sound _ _ _ _ _ _ Hvm1' Hca Hrec) as [Hcb _].
        split; [done|]. split; [by etrans|].
        split; [unfold PREV, UNKNOWN, NEXT in *; lia|].
        intros [Hold|Hnew%list_elem_of_singleton]%elem_of_app.
        -- specialize (Hseen Hold). unfold PREV, UNKNOWN, NEXT in *. lia.
        -- rewrite <- Hnew in Hrec.
           pose proof (resolves_child _ _ _ _ _ _ _ _ _ Hvalid Hms Hm Hres Hwin
                         Htable Hca Hsuba Hrec) as ->.
           unfold PREV, UNKNOWN, NEXT in *. lia.
      * split; [done|]. split; [done|]. split; [by left|].
        by intros ?%elem_of_nil.
Qed.

Lemma entries_resolve_insert q h v c1 :
  valid_board q → game_hash q = Ok h → resolves D c0 q →
  entries_resolve D c0 c1 → entries_resolve D c0 (<[h := v]> c1).
Proof.
  intros Hvalid Hh Hq Hc1 h' w q' Hh' Hvalid' Hhash'.
  destruct (decide (h = h')) as [<- |Hne].
  - destruct (game_hash_collision q q') as (table & Htable & ->);
      [done..|congruence|]. by apply resolves_permute.
  - rewrite lookup_insert_ne in Hh' by done. by eapply Hc1.
Qed.

(** What a search at a budget not above the deeper one leaves in the cache,
    and what it resolves, the deeper search resolves. *)
Lemma shallow_search_resolves fuel q e c1 v c1' :
  valid_board q → sound c1 → entries_resolve D c0 c1 →
  0 ≤ e ≤ D - cells_sum q →
  game_value_fuel fuel q e c1 = Ok (v, c1') →
  entries_resolve D c0 c1' ∧ (v ≠ UNKNOWN → resolves D c0 q).
Proof.
  revert q e c1 v c1'.
  induction fuel as [|fuel IH]; intros q e c1 v c1' Hvalid Hc1 Hk He Hrun;
    [done|].
  apply game_value_fuel_S in Hrun
    as (h & Hh & [[Hhit ->]|(Hmiss & ms & cx & Hms & Hloop & ->)]).
  { split; [done|]. intros _. by eapply Hk. }
  assert (entries_resolve D c0 cx ∧ (v ≠ UNKNOWN → resolves D c0 q))
    as [Hkx Hv].
  { destruct Hloop as [(-> & -> & ->)|[(_ & _ & -> & ->)|(Hne & Hzero & Hloop)]].
    - split; [done|]. intros _. apply resolves_over; [done|].
      by apply game_moves_nil.
    - done.
    - apply (best_reply_inv _ _
               (fun seen v c => sound c ∧ entries_resolve D c0 c ∧
                  ((v = PREV ∧ ∀ m, m ∈ seen →
                      resolves D c0 m ∧ value_of m NEXT) ∨
                   v = UNKNOWN ∨
                   (v = NEXT ∧ ∃ m, m ∈ seen ∧
                      resolves D c0 m ∧ value_of m PREV))) [])
        in Hloop as (seen & rest & Heq & (_ & Hkx & Hinv) & Hend).
      + simpl in Heq. split; [done|]. intros Hv.
        apply (resolves_parent q ms); [done..|lia|].
        destruct Hinv as [(-> & Hall)|[-> |(-> & m & Hm & Hres)]]; [|done|].
        * left. destruct Hend as [| ->]; [done|].
          rewrite app_nil_r in Heq. by subst seen.
        * right. exists m. split; [|done]. rewrite Heq.
          apply elem_of_app. by left.
      + intros seen m value ca v1 cb Hm (Hca & Hka & Hvalue) Hrec.
        pose proof (game_moves_valid _ _ _ Hvalid Hms Hm) as Hvm.
        pose proof (game_moves_cells_sum _ _ _ Hvalid Hms Hm) as Hsum.
        pose proof (game_value_fuel_sound _ _ _ _ _ _ Hvm Hca Hrec)
          as [Hcb Hv1].
        apply IH in Hrec as [Hkb Hres]; [|done..|lia].
        split; [done|]. split; [done|].
        assert (v1 = UNKNOWN ∨
                (v1 = PREV ∧ resolves D c0 m ∧ value_of m PREV) ∨
                (v1 = NEXT ∧ resolves D c0 m ∧ value_of m NEXT)) as Hcases.
        { destruct Hv1 as [|Hv1]; [by left|]. right.
          destruct (value_of_range _ _ Hv1) as [-> | ->]; [left|right];
            (split; [done|]; split; [by apply Hres|done]). }
        destruct Hcases as [-> |[(-> & Hwin)|(-> & Hloss)]].
        * destruct Hvalue as [[-> _]|[-> |[-> (m' & Hm' & Hwin')]]];
            [by right; left..|].
          right; right. split; [done|]. exists m'. split; [|done].
          apply elem_of_app. by left.
        * right; right.
          split; [destruct Hvalue as [[-> _]|[-> |[-> ?]]]; done|].
          exists m. split; [|done].
          apply elem_of_app. right. by apply list_elem_of_singleton.
        * destruct Hvalue as [[-> Hall]|[-> |[-> (m' & Hm' & Hwin')]]].
          -- left. split; [done|].
             intros m' [?|Hm']%elem_of_app; [by apply Hall|].
             apply list_elem_of_singleton in Hm' as ->. done.
          -- by right; left.
          -- right; right. split; [done|]. exists m'. split; [|done].
             apply elem_of_app. by left.
      + split; [done|]. split; [done|]. left. split; [done|].
        by intros ??%elem_of_nil. }
  case_bool_decide as Hne; [|done]. split; [|done].
  apply (entries_resolve_insert q); [done..|by apply Hv|done].
Qed.

End deeper.

(** X9. A deeper search resolves whatever a shallower one does: if
    [game_value] returns a value other than [UNKNOWN] at a budget [d >= 0]
    from a cache [c], it returns the same value at any budget [d' >= d] from
    any cache that holds at least what [c] holds, both caches being right.
    A budget below 0 searches to the end and is not a shallower one. *)
Theorem game_value_deeper board d d' c c2 v c' :
  valid_board board → 0 ≤ d ≤ d' → sound c → sound c2 → c ⊆ c2 →
  game_value board d c = Ok (v, c') → v ≠ UNKNOWN →
  ∃ c2', game_value board d' c2 = Ok (v, c2').
Proof.
  intros Hvalid Hd Hc Hc2 Hsub Hrun Hv. pose proof Hvalid as [Hlen _].
  destruct (game_value_total board d' c2) as (v2 & c2' & Hrun2); [lia|].
  exists c2'. rewrite Hrun2. do 2 f_equal.
  assert (Hk : entries_resolve (d' + cells_sum board) c c).
  { intros h w q Hh Hq Hhash. eapply resolves_known; [done..|].
    by apply sound_resolved. }
  destruct (shallow_search_resolves (d' + cells_sum board) c
              (S (rank board)) board d c v c' Hvalid Hc Hk) as [_ Hboard];
    [lia|exact Hrun|].
  specialize (Hboard Hv (seq 0 12) (S (rank board)) c2 v2 c2'
                identity_in_INDICES Hc2 Hsub).
  rewrite permute_identity in Hboard by done.
  replace (d' + cells_sum board - cells_sum board) with d' in Hboard by lia.
  specialize (Hboard Hrun2).
  apply game_value_fuel_sound in Hrun as [_ [?|Hvalue]]; [done| |done..].
  apply game_value_fuel_sound in Hrun2 as [_ [?|Hvalue2]]; [done| |done..].
  by eapply value_of_det.
Qed.

(** X9 on the position with two greens, resolved at budget 1 and searched
    again at budget 2. *)
Lemma game_value_deeper_witness :
  valid_board open_board ∧ 0 ≤ 1 ≤ 2 ∧ sound ∅ ∧ sound ∅ ∧
  (∅ : gmap Z Z) ⊆ ∅ ∧
  game_value open_board 1 ∅ = Ok (NEXT, <[5 := NEXT]> {[ 21 := PREV ]}) ∧
  NEXT ≠ UNKNOWN ∧
  ∃ c2', game_value open_board 2 ∅ = Ok (NEXT, c2').
Proof.
  assert (Hvalid : valid_board open_board) by sample_valid.
  assert (Hd : 0 ≤ 1 ≤ 2) by lia.
  assert (Hsub : (∅ : gmap Z Z) ⊆ ∅) by done.
  assert (Hrun : game_value open_board 1 ∅
                 = Ok (NEXT, <[5 := NEXT]> {[ 21 := PREV ]}))
    by (vm_compute; reflexivity).
  assert (Hv : NEXT ≠ UNKNOWN) by done.
  split_and!; [done|lia|lia|exact sound_empty|exact sound_empty|done..|].
  exact (game_value_deeper open_board 1 2 ∅ ∅ NEXT _ Hvalid Hd sound_empty
           sound_empty Hsub Hrun Hv).
Defined.

(** ** What [show] prints *)

Lemma subscripts_cells cells :
  Forall (fun b => 0 ≤ b ≤ 3) cells →
  subscripts show_B cells = Ok (cell_label <$> cells).
Proof.
  induction 1 as [|b cells Hb _ IH]; [done|].
  cbn [subscripts]. rewrite IH.
  assert (b = 0 ∨ b = 1 ∨ b = 2 ∨ b = 3) as [-> |[-> |[-> | ->]]] by lia;
    reflexivity.
Qed.

Lemma subscripts_values vs :
  Forall shown_value vs → subscripts show_V vs = Ok (value_label <$> vs).
Proof.
  induction 1 as [|v vs Hv _ IH]; [done|].
  cbn [subscripts]. rewrite IH.
  destruct Hv as [-> |[-> |[-> | ->]]]; reflexivity.
Qed.

Lemma show_row_labels board values a b :
  Forall (fun b => 0 ≤ b ≤ 3) board → Forall shown_value values →
  show_row board values a b
  = Ok ((cell_label <$> slice board a b) ++ (value_label <$> slice values a b)).
Proof.
  intros Hboard Hvalues. unfold show_row, slice.
  rewrite subscripts_cells by (by apply Forall_take, Forall_drop).
  rewrite bind_Ok_l.
  rewrite subscripts_values by (by apply Forall_take, Forall_drop).
  done.
Qed.

Lemma format_row pieces (args : list string) :
  (length pieces ≤ S (length args))%nat → ∃ line, format pieces args = Ok line.
Proof.
  revert args. induction pieces as [|p pieces IH]; intros args Hlen.
  - by eexists.
  - destruct pieces as [|p' pieces]; [by eexists|].
    destruct args as [|a args]; [simpl in Hlen; lia|].
    destruct (IH args) as [line Hline]; [simpl in *; lia|].
    cbn [format] in *. rewrite Hline. by eexists.
Qed.

(** X10. On a board of the data model and an array of twelve values that
    [move] can store, [show] prints its ten lines and raises nothing. The
    three rows that it fills in hold, for each cell, the digit of the cell
    and the mark of its value: [W] for [PREV], which as the index -1 selects
    the last mark, [L] for [NEXT], [?] for [UNKNOWN] and a blank for
    [ILLEGAL]. *)
Theorem show_prints board values :
  valid_board board → length values = 12%nat → Forall shown_value values →
  ∃ line_A line_B line_C,
    show board values
    = ([ show_top; show_head; show_open; line_A; show_rule; line_B;
         show_rule; line_C; show_close; show_bottom ], Ok ()) ∧
    format show_A ((cell_label <$> slice board 0 4)
                   ++ (value_label <$> slice values 0 4)) = Ok line_A ∧
    format show_B_row ((cell_label <$> slice board 4 8)
                       ++ (value_label <$> slice values 4 8)) = Ok line_B ∧
    format show_C ((cell_label <$> slice board 8 12)
                   ++ (value_label <$> slice values 8 12)) = Ok line_C.
Proof.
  intros [Hlen Hboard] Hlen' Hvalues. unfold show.
  rewrite !show_row_labels by done. rewrite !bind_Ok_l.
  assert (Hargs : ∀ a b, (b = a + 4)%nat → (b ≤ 12)%nat →
            length ((cell_label <$> slice board a b)
                    ++ (value_label <$> slice values a b)) = 8%nat).
  { intros a b -> Hb. unfold slice.
    rewrite length_app, !length_fmap, !length_take, !length_drop. lia. }
  destruct (format_row show_A ((cell_label <$> slice board 0 4)
              ++ (value_label <$> slice values 0 4))) as [line_A HA];
    [rewrite Hargs by lia; simpl; lia|].
  destruct (format_row show_B_row ((cell_label <$> slice board 4 8)
              ++ (value_label <$> slice values 4 8))) as [line_B HB];
    [rewrite Hargs by lia; simpl; lia|].
  destruct (format_row show_C ((cell_label <$> slice board 8 12)
              ++ (value_label <$> slice values 8 12))) as [line_C HC];
    [rewrite Hargs by lia; simpl; lia|].
  exists line_A, line_B, line_C. rewrite HA, HB, HC. done.
Qed.

(** X10 on the position with two greens, nothing being known of the moves. *)
Lemma show_prints_witness :
  valid_board open_board ∧ length (replicate 12 UNKNOWN) = 12%nat ∧
  Forall shown_value (replicate 12 UNKNOWN) ∧
  ∃ line_A line_B line_C,
    show open_board (replicate 12 UNKNOWN)
    = ([ show_top; show_head; show_open; line_A; show_rule; line_B;
         show_rule; line_C; show_close; show_bottom ], Ok ()) ∧
    format show_A ((cell_label <$> slice open_board 0 4)
                   ++ (value_label <$> slice (replicate 12 UNKNOWN) 0 4))
    = Ok line_A ∧
    format show_B_row ((cell_label <$> slice open_board 4 8)
                       ++ (value_label <$> slice (replicate 12 UNKNOWN) 4 8))
    = Ok line_B ∧
    format show_C ((cell_label <$> slice open_board 8 12)
                   ++ (value_label <$> slice (replicate 12 UNKNOWN) 8 12))
    = Ok line_C.
Proof.
  assert (Hvalid : valid_board open_board) by sample_valid.
  assert (Hlen : length (replicate 12 UNKNOWN) = 12%nat) by reflexivity.
  assert (Hvalues : Forall shown_value (replicate 12 UNKNOWN)).
  { apply Forall_replicate. right. by left. }
  split; [exact Hvalid|]. split; [exact Hlen|]. split; [exact Hvalues|].
  exact (show_prints open_board (replicate 12 UNKNOWN) Hvalid Hlen Hvalues).
Defined.

(** ** The classification loop: values, buckets and keys *)

Lemma game_moves_cells board ms :
  game_moves board = Ok ms →
  ∃ cells, ms = (fun i => play i board) <$> cells ∧ NoDup cells ∧
    Forall (fun i => (i < 12)%nat ∧ board !!! i < 3) cells ∧
    (cells ≠ [] → (12 ≤ length board)%nat).
Proof.
  intros Hms. destruct ms as [|m ms].
  { exists []. split_and!; [done|constructor|constructor|done]. }
  pose proof (game_moves_length _ _ _ Hms) as Hlen.
  exists (playable board). split_and!; [|apply playable_NoDup| |done].
  - destruct (decide (game_over board));
      [by rewrite game_moves_over in Hms|].
    rewrite game_moves_playable in Hms by done. congruence.
  - apply Forall_forall. intros i. by rewrite playable_elem.
Qed.

Lemma shown_value_game v : v = PREV ∨ v = UNKNOWN ∨ v = NEXT → shown_value v.
Proof. unfold shown_value. tauto. Qed.

Lemma init_values_lookup i :
  (i < 12)%nat → values analysis_init !! i = Some ILLEGAL.
Proof. intros Hi. by apply lookup_replicate_2. Qed.

Lemma agree_init : agree analysis_init.
Proof.
  split; [done|]. split; [apply Forall_replicate; by do 3 right|].
  intros i Hi. unfold analysis_init. cbn [W U L values].
  rewrite !elem_of_nil, lookup_replicate_2 by done.
  split_and!; (split; [done|intros [=]]).
Qed.

Lemma agree_recorded a i m v :
  agree a → (i < 12)%nat → values a !! i = Some ILLEGAL →
  v = PREV ∨ v = UNKNOWN ∨ v = NEXT →
  agree (recorded a (NAME !!! i) i m v).
Proof.
  intros (Hlen & Hshown & Hagree) Hi Hfree Hv. split_and!.
  - simpl. by rewrite length_insert.
  - simpl. apply Forall_insert; [done|]. by apply shown_value_game.
  - intros j Hj. rewrite recorded_W, recorded_L, recorded_U. simpl.
    destruct (Hagree j Hj) as (HW & HL & HU).
    destruct (decide (i = j)) as [<- |Hne].
    + rewrite list_lookup_insert_eq by lia.
      rewrite HW, HL, HU, Hfree.
      assert (Hsome : ∀ x y : Z, Some x = Some y ↔ x = y)
        by (intros; split; congruence).
      rewrite !Hsome. unfold PREV, UNKNOWN, NEXT, ILLEGAL in *.
      split_and!;
        (split; [intros [?|(_ & ?)]; lia|intros ?; right; split; [done|lia]]).
    + rewrite list_lookup_insert_ne by done.
      rewrite HW, HL, HU.
      assert (NAME !!! j ≠ NAME !!! i)
        by (intros Heq; by apply NAME_inj in Heq).
      split_and!; tauto.
Qed.

Lemma classify_loop_agree board d cells a c a' c' :
  (12 ≤ length board)%nat → NoDup cells →
  Forall (fun i => i < 12)%nat cells → game_valued c → agree a →
  (∀ i, i ∈ cells → values a !! i = Some ILLEGAL) →
  classify_loop board d ((fun i => play i board) <$> cells) (a, c)
  = Ok (a', c') →
  agree a' ∧ game_valued c' ∧ c ⊆ c' ∧
  ∀ i, (i < 12)%nat →
    (values a' !! i = Some ILLEGAL ↔ values a !! i = Some ILLEGAL ∧ i ∉ cells).
Proof.
  intros Hlen Hnodup Hcells. revert a c.
  induction Hcells as [|i cells Hi Hcells IH]; intros a c Hc Ha Hfree Hloop.
  { simpl in Hloop. simplify_eq. split_and!; [done..|].
    intros i Hi. rewrite elem_of_nil. tauto. }
  apply NoDup_cons in Hnodup as [Hnotin Hnodup].
  destruct (classify_step_play board d a c i Hlen Hi) as (v & c1 & Hrun & Hstep).
  destruct (game_value_fuel_valued _ _ _ _ _ _ Hc Hrun) as (Hv & Hc1 & _).
  pose proof (game_value_fuel_grows _ _ _ _ _ _ Hrun) as [Hsub1 _].
  rewrite fmap_cons in Hloop. cbn [classify_loop] in Hloop.
  rewrite Hstep, bind_Ok_l in Hloop.
  assert (Hfree_i : values a !! i = Some ILLEGAL) by (apply Hfree; by left).
  apply IH in Hloop as (Ha' & Hc' & Hsub & Hillegal); [|done..| |].
  - split_and!; [done..|by etrans|].
    intros j Hj. rewrite (Hillegal j Hj). simpl. rewrite elem_of_cons.
    destruct (decide (j = i)) as [-> |Hne].
    + rewrite list_lookup_insert_eq by (destruct Ha; lia).
      unfold PREV, UNKNOWN, NEXT, ILLEGAL in *.
      split; [intros [[= ?] _]; lia|intros [_ Hn]; tauto].
    + rewrite list_lookup_insert_ne by done. tauto.
  - by apply agree_recorded.
  - intros j Hj. simpl. rewrite list_lookup_insert_ne by (by intros ->).
    apply Hfree. by right.
Qed.

Lemma classify_loop_sound board d cells a c a' c' :
  valid_board board → Forall (fun i => board !!! i < 3) cells → sound c →
  classify_loop board d ((fun i => play i board) <$> cells) (a, c)
  = Ok (a', c') →
  sound c'.
Proof.
  intros Hvalid Hcells. revert a c.
  induction Hcells as [|i cells Hi Hcells IH]; intros a c Hc Hloop.
  { simpl in Hloop. by simplify_eq. }
  rewrite fmap_cons in Hloop. cbn [classify_loop] in Hloop.
  apply bind_Ok in Hloop as ([a1 c1] & Hstep & Hloop).
  apply (IH a1 c1); [|done].
  unfold classify_step in Hstep.
  apply bind_Ok in Hstep as (changed & _ & Hstep).
  destruct changed as [|cell _]; [done|].
  destruct (NAME !! cell); [|done].
  apply bind_Ok in Hstep as ([v c1'] & Hrun & Hstep).
  assert (c1 = c1') as -> by (repeat case_bool_decide; by simplify_eq).
  eapply game_value_fuel_sound; [|done..]. by apply play_valid.
Qed.

Lemma NoDup_take_prefix {A} (l : list A) k : NoDup l → NoDup (take k l).
Proof.
  intros Hl. rewrite <- (take_drop k l) in Hl. by apply NoDup_app in Hl as [? _].
Qed.

Lemma NAME_not_X i : (i < 12)%nat → NAME !!! i ≠ "X"%string.
Proof. intros Hi. do 12 (destruct i as [|i]; [done|]). lia. Qed.

(** What the first half of [move] leaves, in terms of the cells [cells] of
    the moves. *)
Lemma classify_facts board AI cells :
  (cells ≠ [] → (12 ≤ length board)%nat) → NoDup cells →
  Forall (fun i => (i < 12)%nat ∧ board !!! i < 3) cells →
  game_valued (cache AI) →
  game_moves board = Ok ((fun i => play i board) <$> cells) →
  ∃ a c',
    classify board AI
    = Ok (a, {| player := player AI; depth := depth AI; cache := c' |}) ∧
    game_valued c' ∧ cache AI ⊆ c' ∧
    (valid_board board → sound (cache AI) → sound c') ∧
    agree a ∧
    (∀ i, (i < 12)%nat → values a !! i = Some ILLEGAL ↔ i ∉ cells) ∧
    (∀ n x, moves a !! n = Some x ↔
       (n = "X"%string ∧ x = None) ∨
       (∃ i, i ∈ cells ∧ n = NAME !!! i ∧ x = Some (play i board))) ∧
    (∀ n, n ∈ W a ∨ n ∈ U a ∨ n ∈ L a → ∃ i, i ∈ cells ∧ n = NAME !!! i) ∧
    (∀ i, i ∈ cells →
       ∃ c_i v c_i', game_valued c_i ∧ cache AI ⊆ c_i ∧
         (valid_board board → sound (cache AI) → sound c_i) ∧
         game_value (play i board) (depth AI) c_i = Ok (v, c_i') ∧
         (NAME !!! i ∈ W a ↔ v = PREV) ∧
         (NAME !!! i ∈ L a ↔ v = NEXT) ∧
         (NAME !!! i ∈ U a ↔ v = UNKNOWN)).
Proof.
  intros Hlen Hnodup Hcells Hc Hms.
  assert (Hlt : Forall (fun i => i < 12)%nat cells)
    by (apply (Forall_impl _ _ _ Hcells); by intros i [? ?]).
  assert (Hplayable : Forall (fun i => board !!! i < 3) cells)
    by (apply (Forall_impl _ _ _ Hcells); by intros i [? ?]).
  unfold classify. rewrite Hms, bind_Ok_l.
  destruct cells as [|i0 cells0] eqn:Hcells_eq.
  { rewrite fmap_nil. cbn [classify_loop]. rewrite bind_Ok_l.
    exists analysis_init, (cache AI). unfold analysis_init at 2 3 4 5.
    cbn [W U L values moves].
    split_and!; [done..|apply agree_init| | | |].
    - intros i Hi. rewrite lookup_replicate_2 by done.
      rewrite elem_of_nil. tauto.
    - intros n x. rewrite lookup_singleton_Some. split.
      + intros [<- <-]. by left.
      + intros [[-> ->]|(i & []%elem_of_nil & _)]. done.
    - intros n [[]%elem_of_nil|[[]%elem_of_nil|[]%elem_of_nil]].
    - by intros i []%elem_of_nil. }
  rewrite <- Hcells_eq in *. assert (cells ≠ []) as Hne by (by subst).
  specialize (Hlen Hne). clear Hcells_eq Hne i0 cells0.
  destruct (classify_loop_spec board (depth AI) cells analysis_init (cache AI))
    as (a & c' & Hloop & Hframe & Hturn); [done..| |].
  { intros i _. simpl. split_and!; by intros ?%elem_of_nil. }
  rewrite Hloop, bind_Ok_l. exists a, c'. split; [done|].
  destruct (classify_loop_agree board (depth AI) cells analysis_init (cache AI)
              a c') as (Hagree & Hc' & Hsub & Hillegal);
    [done..|apply agree_init| |done|].
  { intros i Hi. apply init_values_lookup.
    by eapply (proj1 (Forall_forall _ _) Hlt). }
  assert (Hprefix : ∀ k a_k c_k,
            classify_loop board (depth AI)
              ((fun i => play i board) <$> take k cells)
              (analysis_init, cache AI) = Ok (a_k, c_k) →
            game_valued c_k ∧ cache AI ⊆ c_k ∧
            (valid_board board → sound (cache AI) → sound c_k)).
  { intros k a_k c_k Hk.
    destruct (classify_loop_agree board (depth AI) (take k cells)
                analysis_init (cache AI) a_k c_k) as (_ & ? & ? & _);
      [done|by apply NoDup_take_prefix|by apply Forall_take|done|apply agree_init
      | |done|].
    { intros i Hi%elem_of_take. apply init_values_lookup.
      destruct Hi as (j & Hj & _).
      eapply (proj1 (Forall_forall _ _) Hlt), list_elem_of_lookup_2, Hj. }
    split_and!; [done..|]. intros Hvalid Hsound.
    eapply classify_loop_sound; [done|by apply Forall_take|done..]. }
  split_and!; [done..| | | | | |].
  - intros Hvalid Hsound. by eapply classify_loop_sound.
  - done.
  - intros i Hi. rewrite (Hillegal i Hi).
    rewrite init_values_lookup by done. tauto.
  - intros n x.
    destruct (decide (Exists (fun i => n = NAME !!! i) cells)) as [Hex|Hex].
    + apply Exists_exists in Hex as (i & Hi & ->).
      pose proof Hi as (k & Hk)%list_elem_of_lookup_1.
      destruct (Hturn k i Hk) as (_ & _ & _ & _ & _ & _ & Hmove & _).
      rewrite Hmove. split.
      * intros [= <-]. right. by exists i.
      * intros [[HX _]|(j & Hj & Heq & ->)].
        -- exfalso. eapply NAME_not_X; [|done].
           by eapply (proj1 (Forall_forall _ _) Hlt).
        -- apply NAME_inj in Heq as <-; [done|..];
             by eapply (proj1 (Forall_forall _ _) Hlt).
    + destruct (Hframe n) as (_ & _ & _ & ->).
      { intros i Hi ->. apply Hex, Exists_exists. by exists i. }
      simpl. rewrite lookup_singleton_Some. split.
      * intros [<- <-]. by left.
      * intros [[-> ->]|(i & Hi & -> & _)]; [done|].
        exfalso. apply Hex, Exists_exists. by exists i.
  - intros n Hn.
    destruct (decide (Exists (fun i => n = NAME !!! i) cells)) as [Hex|Hex].
    { apply Exists_exists in Hex as (i & Hi & ->). by exists i. }
    destruct (Hframe n) as (HW & HU & HL & _).
    { intros i Hi ->. apply Hex, Exists_exists. by exists i. }
    rewrite HW, HU, HL in Hn. simpl in Hn. rewrite !elem_of_nil in Hn. tauto.
  - intros i (k & Hk)%list_elem_of_lookup_1.
    destruct (Hturn k i Hk)
      as (a_k & c_k & v & c_k' & Hloop_k & Hrun & _ & HW & HL & HU).
    destruct (Hprefix k a_k c_k Hloop_k) as (? & ? & ?).
    by exists c_k, v, c_k'.
Qed.

Lemma play_not_in board cells i :
  (cells ≠ [] → (12 ≤ length board)%nat) → (i < 12)%nat →
  play i board ∈ (fun i => play i board) <$> cells ↔ i ∈ cells.
Proof.
  intros Hlen Hi. rewrite list_elem_of_fmap. split.
  - intros (j & Heq & Hj).
    assert (cells ≠ []) as Hne by (intros ->; by apply elem_of_nil in Hj).
    apply play_inj in Heq as ->; [done|]. specialize (Hlen Hne). lia.
  - intros Hin. by exists i.
Qed.

(** X11. The array [values] that [move] hands to [show] agrees with the
    buckets: it has twelve entries; the entry of a cell is [ILLEGAL] exactly
    when no move plays that cell, and it is [PREV], [NEXT] or [UNKNOWN]
    exactly when the name of the cell is in [W], [L] or [U]. So the analysis
    shows [W], [L], [?] or a blank where the buckets say so. *)
Theorem classify_values_agree board AI ms :
  game_valued (cache AI) → game_moves board = Ok ms →
  ∃ a AI',
    classify board AI = Ok (a, AI') ∧
    length (values a) = 12%nat ∧ Forall shown_value (values a) ∧
    ∀ i, (i < 12)%nat →
      (values a !! i = Some ILLEGAL ↔ play i board ∉ ms) ∧
      (values a !! i = Some PREV ↔ NAME !!! i ∈ W a) ∧
      (values a !! i = Some NEXT ↔ NAME !!! i ∈ L a) ∧
      (values a !! i = Some UNKNOWN ↔ NAME !!! i ∈ U a).
Proof.
  intros Hc Hms.
  destruct (game_moves_cells board ms Hms) as (cells & -> & Hnodup & Hcells & Hlen).
  destruct (classify_facts board AI cells Hlen Hnodup Hcells Hc Hms)
    as (a & c' & Hclassify & _ & _ & _ & (Hlen' & Hshown & Hagree) & Hillegal & _).
  eexists _, _. split; [done|]. split; [done|]. split; [done|].
  intros i Hi. destruct (Hagree i Hi) as (HW & HL & HU).
  rewrite (Hillegal i Hi), HW, HL, HU, play_not_in by done. done.
Qed.

(** X11 on the empty board, for an assistant of depth 0. *)
Lemma classify_values_agree_witness :
  game_valued (cache fresh_AI) ∧ game_moves empty_board = Ok first_moves ∧
  ∃ a AI',
    classify empty_board fresh_AI = Ok (a, AI') ∧
    length (values a) = 12%nat ∧ Forall shown_value (values a) ∧
    ∀ i, (i < 12)%nat →
      (values a !! i = Some ILLEGAL ↔ play i empty_board ∉ first_moves) ∧
      (values a !! i = Some PREV ↔ NAME !!! i ∈ W a) ∧
      (values a !! i = Some NEXT ↔ NAME !!! i ∈ L a) ∧
      (values a !! i = Some UNKNOWN ↔ NAME !!! i ∈ U a).
Proof.
  assert (Hc : game_valued (cache fresh_AI)).
  { intros h v Hh. simpl in Hh. by rewrite lookup_empty in Hh. }
  assert (Hms : game_moves empty_board = Ok first_moves)
    by (vm_compute; reflexivity).
  split; [exact Hc|]. split; [exact Hms|].
  exact (classify_values_agree empty_board fresh_AI first_moves Hc Hms).
Defined.



(** X13. When what the cache holds is right, so is the classification: on a
    board of the data model a name in [W] is that of a move after which the
    mover wins under perfect play, and a name in [L] that of a move after
    which the mover loses; the cache is still right afterwards. With a
    budget of 36 or more, or below 0, no move is left in [U], and [W] and [L]
    hold every winning and every losing move. *)
Theorem classify_sound board AI ms :
  valid_board board → sound (cache AI) → game_moves board = Ok ms →
  ∃ a AI',
    classify board AI = Ok (a, AI') ∧ sound (cache AI') ∧
    (∀ n, n ∈ W a → ∃ m, m ∈ ms ∧ moves a !! n = Some (Some m) ∧
                         value_of m PREV) ∧
    (∀ n, n ∈ L a → ∃ m, m ∈ ms ∧ moves a !! n = Some (Some m) ∧
                         value_of m NEXT) ∧
    (depth AI < 0 ∨ 36 ≤ depth AI →
       U a = [] ∧
       ∀ m, m ∈ ms →
         ∃ n, moves a !! n = Some (Some m) ∧
           (value_of m PREV → n ∈ W a) ∧ (value_of m NEXT → n ∈ L a)).
Proof.
  intros Hvalid Hsound Hms.
  pose proof (sound_game_valued _ Hsound) as Hc.
  destruct (game_moves_cells board ms Hms) as (cells & -> & Hnodup & Hcells & Hlen).
  destruct (classify_facts board AI cells Hlen Hnodup Hcells Hc Hms)
    as (a & c' & Hclassify & _ & _ & Hsound' & _ & _ & Hmoves & Hbuckets & Hcell).
  assert (Hvalue : ∀ i, i ∈ cells →
            ∃ v, (v = UNKNOWN ∨ value_of (play i board) v) ∧
              (depth AI < 0 ∨ 36 ≤ depth AI → v ≠ UNKNOWN) ∧
              (NAME !!! i ∈ W a ↔ v = PREV) ∧
              (NAME !!! i ∈ L a ↔ v = NEXT) ∧
              (NAME !!! i ∈ U a ↔ v = UNKNOWN)).
  { intros i Hi.
    destruct (Hcell i Hi) as (c_i & v & c_i' & _ & _ & Hsound_i & Hrun & Hiff).
    specialize (Hsound_i Hvalid Hsound).
    assert (Hvm : valid_board (play i board)).
    { apply play_valid; [done|].
      by eapply (proj1 (Forall_forall _ _) Hcells i Hi). }
    exists v. split_and!; [|intros Hd|apply Hiff..].
    - by apply (game_value_fuel_sound _ _ _ _ _ _ Hvm Hsound_i Hrun).
    - eapply game_value_fuel_exhaustive in Hrun as [[-> | ->] _];
        [done|done|done|by apply sound_resolved|].
      destruct Hvm as [Hlen' Hcells'].
      pose proof (cells_sum_bounds _ Hcells'). lia. }
  eexists _, _. split; [done|]. split_and!.
  - by apply Hsound'.
  - intros n Hn. destruct (Hbuckets n) as (i & Hi & ->); [by left|].
    destruct (Hvalue i Hi) as (v & Hv & _ & HW & _).
    apply HW in Hn as ->. exists (play i board).
    split; [apply list_elem_of_fmap; by exists i|].
    split; [apply Hmoves; right; by exists i|]. by destruct Hv.
  - intros n Hn. destruct (Hbuckets n) as (i & Hi & ->); [by do 2 right|].
    destruct (Hvalue i Hi) as (v & Hv & _ & _ & HL & _).
    apply HL in Hn as ->. exists (play i board).
    split; [apply list_elem_of_fmap; by exists i|].
    split; [apply Hmoves; right; by exists i|]. by destruct Hv.
  - intros Hd. split.
    + apply elem_of_nil_inv. intros n Hn.
      destruct (Hbuckets n) as (i & Hi & ->); [by right; left|].
      destruct (Hvalue i Hi) as (v & _ & Hne & _ & _ & HU).
      apply HU in Hn. by apply Hne.
    + intros m (i & -> & Hi)%list_elem_of_fmap. exists (NAME !!! i).
      split; [apply Hmoves; right; by exists i|].
      destruct (Hvalue i Hi) as (v & Hv & Hne & HW & HL & _).
      destruct Hv as [?|Hv]; [by destruct Hne|].
      rewrite HW, HL. split; intros Hv'; by eapply value_of_det.
Qed.

(** X13 on the position with two greens, for an assistant of depth 0. *)
Lemma classify_sound_witness :
  valid_board open_board ∧ sound (cache fresh_AI) ∧
  game_moves open_board = Ok ((fun i => play i open_board) <$> seq 0 12) ∧
  ∃ a AI',
    classify open_board fresh_AI = Ok (a, AI') ∧ sound (cache AI') ∧
    (∀ n, n ∈ W a →
       ∃ m, m ∈ (fun i => play i open_board) <$> seq 0 12 ∧
            moves a !! n = Some (Some m) ∧ value_of m PREV) ∧
    (∀ n, n ∈ L a →
       ∃ m, m ∈ (fun i => play i open_board) <$> seq 0 12 ∧
            moves a !! n = Some (Some m) ∧ value_of m NEXT) ∧
    (depth fresh_AI < 0 ∨ 36 ≤ depth fresh_AI →
       U a = [] ∧
       ∀ m, m ∈ (fun i => play i open_board) <$> seq 0 12 →
         ∃ n, moves a !! n = Some (Some m) ∧
           (value_of m PREV → n ∈ W a) ∧ (value_of m NEXT → n ∈ L a)).
Proof.
  assert (Hvalid : valid_board open_board) by sample_valid.
  assert (Hms : game_moves open_board
                = Ok ((fun i => play i open_board) <$> seq 0 12))
    by (vm_compute; reflexivity).
  split; [exact Hvalid|]. split; [exact sound_empty|]. split; [exact Hms|].
  exact (classify_sound open_board fresh_AI _ Hvalid sound_empty Hms).
Defined.

(** ** [move] *)

Lemma choice_elem l r : l ≠ [] → ∃ x, choice l r = Ok x ∧ x ∈ l.
Proof.
  intros Hl. unfold choice.
  assert (r `mod` length l < length l)%nat as Hr.
  { apply Nat.mod_upper_bound. by destruct l. }
  apply lookup_lt_is_Some in Hr as [x Hx]. rewrite Hx.
  exists x. split; [done|]. by eapply list_elem_of_lookup_2.
Qed.

Lemma ask_Ok moves answers s rest :
  ask moves answers = Ok (s, rest) →
  ∃ skipped, answers = skipped ++ s :: rest ∧ is_Some (moves !! s) ∧
    Forall (fun t => moves !! t = None) skipped.
Proof.
  induction answers as [|t answers IH]; [done|]. cbn [ask].
  destruct (moves !! t) eqn:Ht.
  - intros [= <- <-]. exists []. split; [done|]. split; [by eexists|constructor].
  - intros (skipped & -> & Hs & Hskipped)%IH. exists (t :: skipped).
    split; [done|]. split; [done|]. by constructor.
Qed.

Lemma ask_Raise moves answers e :
  ask moves answers = Raise e →
  e = OutOfFuel ∧ Forall (fun t => moves !! t = None) answers.
Proof.
  induction answers as [|t answers IH]; cbn [ask].
  - intros [= <-]. split; [done|constructor].
  - destruct (moves !! t) eqn:Ht; [done|].
    intros [-> Hall]%IH. split; [done|]. by constructor.
Qed.

Lemma show_agree board a :
  valid_board board → agree a → (show board (values a)).2 = Ok ().
Proof.
  intros [Hlen Hboard] (Hlen' & Hshown & _). unfold show.
  rewrite !show_row_labels by done. rewrite !bind_Ok_l.
  assert (Hargs : ∀ i j, (j = i + 4)%nat → (j ≤ 12)%nat →
            length ((cell_label <$> slice board i j)
                    ++ (value_label <$> slice (values a) i j)) = 8%nat).
  { intros i j -> Hj. unfold slice.
    rewrite length_app, !length_fmap, !length_take, !length_drop. lia. }
  destruct (format_row show_A ((cell_label <$> slice board 0 4)
              ++ (value_label <$> slice (values a) 0 4))) as [line_A HA];
    [rewrite Hargs by lia; simpl; lia|].
  destruct (format_row show_B_row ((cell_label <$> slice board 4 8)
              ++ (value_label <$> slice (values a) 4 8))) as [line_B HB];
    [rewrite Hargs by lia; simpl; lia|].
  destruct (format_row show_C ((cell_label <$> slice board 8 12)
              ++ (value_label <$> slice (values a) 8 12))) as [line_C HC];
    [rewrite Hargs by lia; simpl; lia|].
  rewrite HA, HB, HC. done.
Qed.

(** The choice of the computer among the buckets. *)
Lemma computer_choice a r :
  ∃ name,
    match W a, U a, L a with
    | _ :: _, _, _ => choice (W a) r
    | [], _ :: _, _ => choice (U a) r
    | [], [], _ :: _ => choice (L a) r
    | [], [], [] => Ok "X"%string
    end = Ok name ∧
    (W a ≠ [] → name ∈ W a) ∧
    (W a = [] → U a ≠ [] → name ∈ U a) ∧
    (W a = [] → U a = [] → L a ≠ [] → name ∈ L a) ∧
    (W a = [] → U a = [] → L a = [] → name = "X"%string).
Proof.
  destruct (W a) as [|w ws] eqn:HW.
  - destruct (U a) as [|u us] eqn:HU.
    + destruct (L a) as [|l ls] eqn:HL.
      * exists "X"%string. by split_and!.
      * destruct (choice_elem (l :: ls) r) as (x & Hx & Hin); [done|].
        exists x. split; [exact Hx|]. split_and!; intros; (done || congruence).
    + destruct (choice_elem (u :: us) r) as (x & Hx & Hin); [done|].
      exists x. split; [exact Hx|]. split_and!; intros; (done || congruence).
  - destruct (choice_elem (w :: ws) r) as (x & Hx & Hin); [done|].
    exists x. split; [exact Hx|]. split_and!; intros; (done || congruence).
Qed.

(** How [move] unfolds once the classification is known. *)
Lemma move_unfold board AI r answers a c' :
  valid_board board → agree a →
  classify board AI
  = Ok (a, {| player := player AI; depth := depth AI; cache := c' |}) →
  move board AI r answers
  = ('(name, answers) ←
       (if bool_decide (player AI = "computer"%string) then
          name ← match W a, U a, L a with
                 | _ :: _, _, _ => choice (W a) r
                 | [], _ :: _, _ => choice (U a) r
                 | [], [], _ :: _ => choice (L a) r
                 | [], [], [] => Ok "X"%string
                 end;
          Ok (name, answers)
        else ask (moves a) answers);
     Ok (moves a !! name,
         {| player := player AI; depth := depth AI; cache := c' |}, answers)).
Proof.
  intros Hvalid Ha Hclassify. unfold move.
  rewrite Hclassify, bind_Ok_l. cbv beta iota.
  rewrite show_agree by done. by rewrite bind_Ok_l.
Qed.

(** X14. The computer, on a board of the data model with a cache of game
    values, always gets a value from [move], never a [KeyError] nor an
    [IndexError], and reads no answer. When the game is over the value is
    [None]; otherwise it is one of the moves, taken from [W] if [W] has a
    name, else from [U] if [U] has one, else from [L]. *)
Theorem move_computer board AI ms r answers :
  valid_board board → game_valued (cache AI) →
  player AI = "computer"%string → game_moves board = Ok ms →
  ∃ a AI' name next,
    classify board AI = Ok (a, AI') ∧
    move board AI r answers = Ok (Some next, AI', answers) ∧
    moves a !! name = Some next ∧
    (ms = [] → next = None) ∧
    (ms ≠ [] → ∃ m, next = Some m ∧ m ∈ ms) ∧
    (W a ≠ [] → name ∈ W a) ∧
    (W a = [] → U a ≠ [] → name ∈ U a) ∧
    (W a = [] → U a = [] → L a ≠ [] → name ∈ L a).
Proof.
  intros Hvalid Hc Hplayer Hms.
  destruct (game_moves_cells board ms Hms) as (cells & -> & Hnodup & Hcells & Hlen).
  destruct (classify_facts board AI cells Hlen Hnodup Hcells Hc Hms)
    as (a & c' & Hclassify & _ & _ & _ & Hagree & _ & Hmoves & Hbuckets & Hcell).
  destruct (computer_choice a r) as (name & Hname & HW & HU & HL & HX).
  assert (Hkey : ∃ next, moves a !! name = Some next ∧
            (cells = [] → next = None) ∧
            (cells ≠ [] → ∃ i, i ∈ cells ∧ next = Some (play i board))).
  { destruct (decide (W a = [])) as [HWnil|HWne];
      [destruct (decide (U a = [])) as [HUnil|HUne];
         [destruct (decide (L a = [])) as [HLnil|HLne]|]|].
    - rewrite HX by done. exists None. split; [apply Hmoves; by left|].
      split; [done|]. intros Hne. exfalso.
      destruct cells as [|i cells']; [done|].
      destruct (Hcell i) as (c_i & v' & c_i' & Hc_i & _ & _ & Hrun & HW'' & HL'' & HU'');
        [by left|].
      rewrite HWnil in HW''. rewrite HLnil in HL''. rewrite HUnil in HU''.
      rewrite elem_of_nil in HW'', HL'', HU''.
      destruct (game_value_fuel_valued _ _ _ _ _ _ Hc_i Hrun) as (Hv & _).
      tauto.
    - destruct (Hbuckets name) as (i & Hi & ->); [do 2 right; by apply HL|].
      exists (Some (play i board)). split; [apply Hmoves; right; by exists i|].
      split; [by intros ->; apply elem_of_nil in Hi|]. intros _. by exists i.
    - destruct (Hbuckets name) as (i & Hi & ->); [right; left; by apply HU|].
      exists (Some (play i board)). split; [apply Hmoves; right; by exists i|].
      split; [by intros ->; apply elem_of_nil in Hi|]. intros _. by exists i.
    - destruct (Hbuckets name) as (i & Hi & ->); [left; by apply HW|].
      exists (Some (play i board)). split; [apply Hmoves; right; by exists i|].
      split; [by intros ->; apply elem_of_nil in Hi|]. intros _. by exists i. }
  destruct Hkey as (next & Hnext & Hnil & Hcons).
  exists a, {| player := player AI; depth := depth AI; cache := c' |}, name, next.
  split; [done|]. split.
  { rewrite (move_unfold _ _ _ _ a c') by done.
    rewrite bool_decide_eq_true_2 by done.
    rewrite Hname, !bind_Ok_l. by rewrite Hnext. }
  split; [done|]. split_and!.
  - intros Hnil'%fmap_nil_inv. by apply Hnil.
  - intros Hne. destruct Hcons as (i & Hi & ->); [by intros ->|].
    eexists. split; [done|]. apply list_elem_of_fmap. by exists i.
  - done.
  - done.
  - done.
Qed.

(** X14 on the position with two greens: the computer of depth 0 can play. *)
Lemma move_computer_witness :
  valid_board open_board ∧ game_valued (cache fresh_AI) ∧
  player fresh_AI = "computer"%string ∧
  game_moves open_board = Ok ((fun i => play i open_board) <$> seq 0 12) ∧
  ∃ a AI' name next,
    classify open_board fresh_AI = Ok (a, AI') ∧
    move open_board fresh_AI 0 [] = Ok (Some next, AI', []) ∧
    moves a !! name = Some next ∧
    ((fun i => play i open_board) <$> seq 0 12 = [] → next = None) ∧
    ((fun i => play i open_board) <$> seq 0 12 ≠ [] →
       ∃ m, next = Some m ∧ m ∈ (fun i => play i open_board) <$> seq 0 12) ∧
    (W a ≠ [] → name ∈ W a) ∧
    (W a = [] → U a ≠ [] → name ∈ U a) ∧
    (W a = [] → U a = [] → L a ≠ [] → name ∈ L a).
Proof.
  assert (Hvalid : valid_board open_board) by sample_valid.
  assert (Hc : game_valued (cache fresh_AI)).
  { intros h v Hh. simpl in Hh. by rewrite lookup_empty in Hh. }
  assert (Hplayer : player fresh_AI = "computer"%string) by reflexivity.
  assert (Hms : game_moves open_board
                = Ok ((fun i => play i open_board) <$> seq 0 12))
    by (vm_compute; reflexivity).
  split; [exact Hvalid|]. split; [exact Hc|]. split; [exact Hplayer|].
  split; [exact Hms|].
  exact (move_computer open_board fresh_AI _ 0 [] Hvalid Hc Hplayer Hms).
Defined.

(** X15. For any other player, on a board of the data model with a cache of
    game values, [move] reads the answers up to the first that is ["X"] or
    the name of a cell that some move plays, and passes over the others. It
    returns [None] for ["X"] and the move of the cell for a name; when no
    answer is left it goes on asking for ever. It raises neither [KeyError]
    nor [IndexError]. *)
Theorem move_human board AI ms r answers :
  valid_board board → game_valued (cache AI) →
  player AI ≠ "computer"%string → game_moves board = Ok ms →
  let accepted t :=
    t = "X"%string ∨ ∃ i, (i < 12)%nat ∧ t = NAME !!! i ∧ play i board ∈ ms in
  match move board AI r answers with
  | Ok (next, AI', rest) =>
      ∃ skipped s,
        answers = skipped ++ s :: rest ∧ Forall (fun t => ¬ accepted t) skipped ∧
        ((s = "X"%string ∧ next = Some None) ∨
         (∃ i, (i < 12)%nat ∧ s = NAME !!! i ∧ play i board ∈ ms ∧
               next = Some (Some (play i board))))
  | Raise e => e = OutOfFuel ∧ Forall (fun t => ¬ accepted t) answers
  end.
Proof.
  intros Hvalid Hc Hplayer Hms accepted.
  destruct (game_moves_cells board ms Hms) as (cells & -> & Hnodup & Hcells & Hlen).
  destruct (classify_facts board AI cells Hlen Hnodup Hcells Hc Hms)
    as (a & c' & Hclassify & _ & _ & _ & Hagree & _ & Hmoves & _).
  assert (Hlt : ∀ i, i ∈ cells → (i < 12)%nat).
  { intros i Hi. by destruct (proj1 (Forall_forall _ _) Hcells i Hi). }
  assert (Hkey : ∀ t, moves a !! t = None ↔ ¬ accepted t).
  { intros t. rewrite eq_None_not_Some. unfold accepted, is_Some.
    split; intros Hnot Hyes; apply Hnot.
    - destruct Hyes as [-> |(i & Hi & -> & Hin)].
      + exists None. apply Hmoves. by left.
      + exists (Some (play i board)). apply Hmoves. right. exists i.
        split; [|done]. by apply (play_not_in board cells i Hlen Hi).
    - destruct Hyes as [x [[-> _]|(i & Hi & -> & _)]%Hmoves]; [by left|].
      right. exists i. split; [by apply Hlt|]. split; [done|].
      apply list_elem_of_fmap. by exists i. }
  rewrite (move_unfold _ _ _ _ a c') by done.
  rewrite bool_decide_eq_false_2 by done.
  destruct (ask (moves a) answers) as [[s rest]|e] eqn:Hask.
  - rewrite !bind_Ok_l.
    apply ask_Ok in Hask as (skipped & -> & [x Hx] & Hskipped).
    exists skipped, s. split; [done|]. split.
    { eapply Forall_impl; [done|]. intros t. apply Hkey. }
    rewrite Hx. apply Hmoves in Hx as [[-> ->]|(i & Hi & -> & ->)]; [by left|].
    right. exists i. split; [by apply Hlt|]. split; [done|]. split; [|done].
    apply list_elem_of_fmap. by exists i.
  - apply ask_Raise in Hask as [-> Hall]. split; [done|].
    eapply Forall_impl; [done|]. intros t. apply Hkey.
Qed.

(** X15 on the position with two greens, for the assistant of the human and
    two answers. *)
Lemma move_human_witness :
  valid_board open_board ∧ game_valued (cache fresh_human) ∧
  player fresh_human ≠ "computer"%string ∧
  game_moves open_board = Ok ((fun i => play i open_board) <$> seq 0 12) ∧
  let accepted t :=
    t = "X"%string ∨
    ∃ i, (i < 12)%nat ∧ t = NAME !!! i ∧
         play i open_board ∈ (fun i => play i open_board) <$> seq 0 12 in
  match move open_board fresh_human 0 ["Z9"; "A3"]%string with
  | Ok (next, AI', rest) =>
      ∃ skipped s,
        ["Z9"; "A3"]%string = skipped ++ s :: rest ∧
        Forall (fun t => ¬ accepted t) skipped ∧
        ((s = "X"%string ∧ next = Some None) ∨
         (∃ i, (i < 12)%nat ∧ s = NAME !!! i ∧
               play i open_board ∈ (fun i => play i open_board) <$> seq 0 12 ∧
               next = Some (Some (play i open_board))))
  | Raise e => e = OutOfFuel ∧ Forall (fun t => ¬ accepted t) ["Z9"; "A3"]%string
  end.
Proof.
  assert (Hvalid : valid_board open_board) by sample_valid.
  assert (Hc : game_valued (cache fresh_human)).
  { intros h v Hh. simpl in Hh. by rewrite lookup_empty in Hh. }
  assert (Hplayer : player fresh_human ≠ "computer"%string) by discriminate.
  assert (Hms : game_moves open_board
                = Ok ((fun i => play i open_board) <$> seq 0 12))
    by (vm_compute; reflexivity).
  split; [exact Hvalid|]. split; [exact Hc|]. split; [exact Hplayer|].
  split; [exact Hms|].
  exact (move_human open_board fresh_human _ 0 ["Z9"; "A3"]%string
           Hvalid Hc Hplayer Hms).
Defined.

Example move_human_sample :
  move open_board fresh_human 0 ["Z9"; "A3"; "B1"]%string
  = Ok (Some (Some won_board),
        {| player := "human"; depth := 0; cache := {[ 21 := PREV ]} |},
        ["B1"%string]).
Proof. vm_compute. reflexivity. Qed.

Example move_human_X :
  (move open_board fresh_human 0 ["X"]%string
   ≫= fun r => Ok (r.1.1, r.2))
  = Ok (Some None, []).
Proof. vm_compute. reflexivity. Qed.

(** ** An all-knowing computer *)

(** The classification when what the cache holds is right. *)
Lemma classify_facts_sound board AI cells :
  valid_board board → sound (cache AI) → NoDup cells →
  Forall (fun i => (i < 12)%nat ∧ board !!! i < 3) cells →
  game_moves board = Ok ((fun i => play i board) <$> cells) →
  ∃ a c',
    classify board AI
    = Ok (a, {| player := player AI; depth := depth AI; cache := c' |}) ∧
    sound c' ∧ agree a ∧
    (∀ n x, moves a !! n = Some x ↔
       (n = "X"%string ∧ x = None) ∨
       (∃ i, i ∈ cells ∧ n = NAME !!! i ∧ x = Some (play i board))) ∧
    (∀ n, n ∈ W a ∨ n ∈ U a ∨ n ∈ L a → ∃ i, i ∈ cells ∧ n = NAME !!! i) ∧
    (∀ i, i ∈ cells →
       ∃ v, (v = PREV ∨ v = UNKNOWN ∨ v = NEXT) ∧
         (v = UNKNOWN ∨ value_of (play i board) v) ∧
         (depth AI < 0 ∨ 36 ≤ depth AI → v ≠ UNKNOWN) ∧
         (NAME !!! i ∈ W a ↔ v = PREV) ∧
         (NAME !!! i ∈ L a ↔ v = NEXT) ∧
         (NAME !!! i ∈ U a ↔ v = UNKNOWN)).
Proof.
  intros Hvalid Hsound Hnodup Hcells Hms.
  assert (Hlen : cells ≠ [] → (12 ≤ length board)%nat)
    by (intros _; destruct Hvalid; lia).
  destruct (classify_facts board AI cells Hlen Hnodup Hcells
              (sound_game_valued _ Hsound) Hms)
    as (a & c' & Hclassify & _ & _ & Hsound' & Hagree & _ & Hmoves & Hbuckets
        & Hcell).
  exists a, c'. split_and!; [done|by apply Hsound'|done..|].
  intros i Hi.
  destruct (Hcell i Hi) as (c_i & v & c_i' & Hc_i & _ & Hsound_i & Hrun & Hiff).
  specialize (Hsound_i Hvalid Hsound).
  assert (Hvm : valid_board (play i board)).
  { apply play_valid; [done|].
    by eapply (proj1 (Forall_forall _ _) Hcells i Hi). }
  exists v. split_and!; [| |intros Hd|apply Hiff..].
  - by apply (game_value_fuel_range _ _ _ _ _ _ Hvm Hsound_i Hrun).
  - by apply (game_value_fuel_sound _ _ _ _ _ _ Hvm Hsound_i Hrun).
  - eapply game_value_fuel_exhaustive in Hrun as [[-> | ->] _];
      [done|done|done|by apply sound_resolved|].
    destruct Hvm as [Hlen' Hcells'].
    pose proof (cells_sum_bounds _ Hcells'). lia.
Qed.

Lemma move_computer_omniscient board AI cells r answers :
  valid_board board → sound (cache AI) → player AI = "computer"%string →
  depth AI < 0 ∨ 36 ≤ depth AI → NoDup cells →
  Forall (fun i => (i < 12)%nat ∧ board !!! i < 3) cells → cells ≠ [] →
  game_moves board = Ok ((fun i => play i board) <$> cells) →
  ∃ i c',
    i ∈ cells ∧
    move board AI r answers
    = Ok (Some (Some (play i board)),
          {| player := player AI; depth := depth AI; cache := c' |}, answers) ∧
    sound c' ∧
    (value_of board NEXT → value_of (play i board) PREV).
Proof.
  intros Hvalid Hsound Hplayer Hd Hnodup Hcells Hne Hms.
  destruct (classify_facts_sound board AI cells Hvalid Hsound Hnodup Hcells Hms)
    as (a & c' & Hclassify & Hsound' & Hagree & Hmoves & Hbuckets & Hcell).
  destruct (computer_choice a r) as (name & Hname & HW & HU & HL & HX).
  assert (Hsome : W a ≠ [] ∨ U a ≠ [] ∨ L a ≠ []).
  { destruct cells as [|j cells']; [done|].
    destruct (Hcell j) as (v & Hv & _ & _ & HjW & HjL & HjU); [by left|].
    destruct Hv as [-> |[-> | ->]].
    - left. intros Hnil. rewrite Hnil in HjW.
      by apply (not_elem_of_nil (NAME !!! j)), HjW.
    - right; left. intros Hnil. rewrite Hnil in HjU.
      by apply (not_elem_of_nil (NAME !!! j)), HjU.
    - right; right. intros Hnil. rewrite Hnil in HjL.
      by apply (not_elem_of_nil (NAME !!! j)), HjL. }
  assert (Hin : name ∈ W a ∨ name ∈ U a ∨ name ∈ L a).
  { destruct (decide (W a = [])) as [HWnil|]; [|left; by apply HW].
    destruct (decide (U a = [])) as [HUnil|]; [|right; left; by apply HU].
    right; right. apply HL; [done..|]. tauto. }
  destruct (Hbuckets name Hin) as (i & Hi & ->).
  exists i, c'. split; [done|]. split; [|split; [done|]].
  - rewrite (move_unfold _ _ _ _ a c') by done.
    rewrite bool_decide_eq_true_2 by done.
    rewrite Hname, !bind_Ok_l.
    assert (moves a !! (NAME !!! i) = Some (Some (play i board))) as ->; [|done].
    apply Hmoves. right. by exists i.
  - intros Hnext. inversion Hnext as [|b ms m Hms' Hm Hwin|]; subst.
    assert (ms = (fun i => play i board) <$> cells) as -> by congruence.
    apply list_elem_of_fmap in Hm as (j & -> & Hj).
    destruct (Hcell j Hj) as (v & _ & Hv & Hne' & HjW & _).
    assert (v = PREV) as ->.
    { destruct Hv as [?|Hv]; [by destruct Hne'|]. by eapply value_of_det. }
    assert (NAME !!! i ∈ W a).
    { apply HW. intros Hnil. rewrite Hnil in HjW.
      by apply (not_elem_of_nil (NAME !!! j)), HjW. }
    destruct (Hcell i Hi) as (w & _ & Hw & Hne'' & HiW & _).
    apply HiW in H as ->. destruct Hw as [|]; done.
Qed.

(** X16. A computer that searches to the end (a budget of 36 or more, or
    below 0) and whose cache is right plays a move on every board of the
    data model on which the game goes on, and does not let a win slip: when
    the player to move wins under perfect play, the move it returns leaves a
    position that the opponent loses. Its cache is still right afterwards. *)
Theorem move_computer_best board AI ms r answers :
  valid_board board → sound (cache AI) → player AI = "computer"%string →
  depth AI < 0 ∨ 36 ≤ depth AI → game_moves board = Ok ms → ms ≠ [] →
  ∃ m AI',
    move board AI r answers = Ok (Some (Some m), AI', answers) ∧
    m ∈ ms ∧ player AI' = player AI ∧ depth AI' = depth AI ∧
    sound (cache AI') ∧
    (value_of board NEXT → value_of m PREV).
Proof.
  intros Hvalid Hsound Hplayer Hd Hms Hne.
  destruct (game_moves_cells board ms Hms) as (cells & -> & Hnodup & Hcells & _).
  destruct (move_computer_omniscient board AI cells r answers)
    as (i & c' & Hi & Hmove & Hsound' & Hbest); [done..| |done|].
  { by intros ->. }
  eexists _, _. split; [done|]. split_and!; [|done..].
  apply list_elem_of_fmap. by exists i.
Qed.

(** X16 on the position with two greens. *)
Lemma move_computer_best_witness :
  valid_board open_board ∧ sound (cache deep_AI) ∧
  player deep_AI = "computer"%string ∧
  (depth deep_AI < 0 ∨ 36 ≤ depth deep_AI) ∧
  game_moves open_board = Ok ((fun i => play i open_board) <$> seq 0 12) ∧
  (fun i => play i open_board) <$> seq 0 12 ≠ [] ∧
  ∃ m AI',
    move open_board deep_AI 0 [] = Ok (Some (Some m), AI', []) ∧
    m ∈ (fun i => play i open_board) <$> seq 0 12 ∧
    player AI' = player deep_AI ∧ depth AI' = depth deep_AI ∧
    sound (cache AI') ∧
    (value_of open_board NEXT → value_of m PREV).
Proof.
  assert (Hvalid : valid_board open_board) by sample_valid.
  assert (Hplayer : player deep_AI = "computer"%string) by reflexivity.
  assert (Hd : depth deep_AI < 0 ∨ 36 ≤ depth deep_AI)
    by (right; vm_compute; discriminate).
  assert (Hms : game_moves open_board
                = Ok ((fun i => play i open_board) <$> seq 0 12))
    by (vm_compute; reflexivity).
  assert (Hne : (fun i => play i open_board) <$> seq 0 12 ≠ []) by discriminate.
  split; [exact Hvalid|]. split; [exact sound_empty|]. split; [exact Hplayer|].
  split; [exact Hd|]. split; [exact Hms|]. split; [exact Hne|].
  exact (move_computer_best open_board deep_AI _ 0 [] Hvalid sound_empty
           Hplayer Hd Hms Hne).
Defined.

(** ** One game *)

Lemma game_moves_valid_total board :
  valid_board board → ∃ ms, game_moves board = Ok ms.
Proof.
  intros [Hlen _]. destruct (decide (game_over board)).
  - exists []. apply game_moves_over; [lia|done].
  - eexists. apply game_moves_playable; [lia|done].
Qed.

(** One call of [move] on a position where the game goes on, whoever plays. *)
Lemma move_step board AI ms r answers :
  valid_board board → game_valued (cache AI) →
  game_moves board = Ok ms → ms ≠ [] →
  match move board AI r answers with
  | Ok (next, AI', rest) =>
      player AI' = player AI ∧ depth AI' = depth AI ∧
      game_valued (cache AI') ∧ (sound (cache AI) → sound (cache AI')) ∧
      (player AI = "computer"%string → rest = answers) ∧
      ∃ read, answers = read ++ rest ∧
        ((next = Some None ∧ player AI ≠ "computer"%string ∧
          "X"%string ∈ read) ∨
         (∃ m, next = Some (Some m) ∧ m ∈ ms ∧ "X"%string ∉ read))
  | Raise e =>
      e = OutOfFuel ∧ player AI ≠ "computer"%string ∧ "X"%string ∉ answers
  end.
Proof.
  intros Hvalid Hc Hms Hne.
  destruct (game_moves_cells board ms Hms) as (cells & -> & Hnodup & Hcells & Hlen).
  destruct (classify_facts board AI cells Hlen Hnodup Hcells Hc Hms)
    as (a & c' & Hclassify & Hc' & _ & Hsound & Hagree & _ & Hmoves & Hbuckets
        & Hcell).
  rewrite (move_unfold _ _ _ _ a c') by done.
  destruct (decide (player AI = "computer"%string)) as [Hplayer|Hplayer].
  - rewrite bool_decide_eq_true_2 by done.
    destruct (computer_choice a r) as (name & Hname & HW & HU & HL & HX).
    rewrite Hname, !bind_Ok_l. cbn [player depth cache].
    split_and!; [done..|by apply Hsound|done|].
    exists []. split; [done|]. right.
    assert (Hin : name ∈ W a ∨ name ∈ U a ∨ name ∈ L a).
    { destruct (decide (W a = [])) as [HWnil|]; [|left; by apply HW].
      destruct (decide (U a = [])) as [HUnil|]; [|right; left; by apply HU].
      destruct (decide (L a = [])) as [HLnil|]; [|right; right; by apply HL].
      exfalso. destruct cells as [|j cells']; [done|].
      destruct (Hcell j) as (c_j & v & c_j' & Hc_j & _ & _ & Hrun & HjW & HjL
                             & HjU); [by left|].
      rewrite HWnil in HjW. rewrite HLnil in HjL. rewrite HUnil in HjU.
      rewrite elem_of_nil in HjW, HjL, HjU.
      destruct (game_value_fuel_valued _ _ _ _ _ _ Hc_j Hrun) as (Hv & _).
      tauto. }
    destruct (Hbuckets name Hin) as (i & Hi & ->).
    exists (play i board).
    split_and!; [|apply list_elem_of_fmap; by exists i|apply not_elem_of_nil].
    f_equal. apply Hmoves. right. by exists i.
  - rewrite bool_decide_eq_false_2 by done.
    destruct (ask (moves a) answers) as [[s rest]|e] eqn:Hask.
    + rewrite !bind_Ok_l. cbn [player depth cache].
      apply ask_Ok in Hask as (skipped & -> & [x Hx] & Hskipped).
      split_and!; [done..|by apply Hsound|done|].
      exists (skipped ++ [s]). split; [by rewrite <- app_assoc|].
      rewrite Hx. apply Hmoves in Hx as [[-> ->]|(i & Hi & -> & ->)].
      * left. split_and!; [done..|]. apply elem_of_app. right. by left.
      * right. eexists. split_and!; [done|apply list_elem_of_fmap; by exists i|].
        assert (HX' : moves a !! "X"%string = Some None)
          by (apply Hmoves; by left).
        intros [HX|HX%list_elem_of_singleton]%elem_of_app.
        -- apply (proj1 (Forall_forall _ _) Hskipped) in HX. congruence.
        -- symmetry in HX. revert HX. apply NAME_not_X.
           by destruct (proj1 (Forall_forall _ _) Hcells i Hi).
    + apply ask_Raise in Hask as [-> Hall]. cbn.
      split_and!; [done..|]. intros HX.
      apply (proj1 (Forall_forall _ _) Hall) in HX.
      assert (moves a !! "X"%string = Some None) as HX'
        by (apply Hmoves; by left).
      congruence.
Qed.

Lemma show_over board :
  valid_board board → (show board (replicate 12 ILLEGAL)).2 = Ok ().
Proof. intros Hvalid. by apply (show_agree board analysis_init), agree_init. Qed.

(** X17. A game between the computer and another player, from a board of the
    data model and with caches of game values, never ends in an [IndexError]
    or a [KeyError]. It ends with a winner, or is given up by an ["X"] that
    the player has answered, or waits for an answer that does not come, and
    this only when no ["X"] is among the answers. At the end the two
    assistants are who they were and as deep, their caches hold game values,
    and the answers left are the last of those given. *)
Theorem game_loop_safe fuel n board turn computer_AI human_AI picks answers :
  valid_board board →
  game_valued (cache computer_AI) → game_valued (cache human_AI) →
  player computer_AI = "computer"%string →
  player human_AI ≠ "computer"%string →
  (rank board < fuel)%nat →
  match game_loop fuel n board turn computer_AI human_AI picks answers with
  | Ok (Some (e, computer_AI', human_AI', rest)) =>
      (e = Abandoned → "X"%string ∈ answers) ∧
      player computer_AI' = player computer_AI ∧
      depth computer_AI' = depth computer_AI ∧
      player human_AI' = player human_AI ∧
      depth human_AI' = depth human_AI ∧
      game_valued (cache computer_AI') ∧ game_valued (cache human_AI') ∧
      ∃ read, answers = read ++ rest
  | Ok None => False
  | Raise e => e = OutOfFuel ∧ "X"%string ∉ answers
  end.
Proof.
  revert n board turn computer_AI human_AI answers.
  induction fuel as [|fuel IH];
    intros n board turn cAI hAI answers Hvalid Hcc Hch Hpc Hph Hfuel; [lia|].
  cbn [game_loop].
  destruct (game_moves_valid_total board Hvalid) as [ms Hms].
  rewrite Hms, bind_Ok_l. destruct ms as [|m0 ms0] eqn:Heq.
  { rewrite show_over by done. rewrite bind_Ok_l.
    split_and!; [by destruct turn|done..|by exists []]. }
  rewrite <- Heq in *. assert (Hne : ms ≠ []) by (by subst). clear Heq m0 ms0.
  assert (Hnext : ∀ m, m ∈ ms → valid_board m ∧ (rank m < fuel)%nat).
  { intros m Hm. split; [by eapply game_moves_valid|].
    destruct (game_moves_rank _ _ _ Hms Hm). lia. }
  destruct turn.
  - pose proof (move_step board cAI ms (picks n) answers Hvalid Hcc Hms Hne)
      as Hstep.
    destruct (move board cAI (picks n) answers) as [[[next cAI'] rest]|e];
      [|by destruct Hstep as (_ & ? & _)].
    rewrite !bind_Ok_l.
    destruct Hstep as (Hp & Hd & Hc' & _ & Hrest & read & _ & Hor).
    specialize (Hrest Hpc). subst rest.
    destruct Hor as [(_ & ? & _)|(m & -> & Hm & _)]; [done|].
    destruct (Hnext m Hm) as [Hvm Hrm].
    specialize (IH (S n) m (negb true) cAI' hAI answers Hvm Hc' Hch
                  ltac:(congruence) Hph Hrm).
    destruct (game_loop fuel (S n) m (negb true) cAI' hAI picks answers)
      as [[[[[e cAI''] hAI''] rest]|]|e]; [|done..].
    destruct IH as (? & ? & ? & ? & ? & ? & ? & ?).
    split_and!; (done || congruence).
  - pose proof (move_step board hAI ms (picks n) answers Hvalid Hch Hms Hne)
      as Hstep.
    destruct (move board hAI (picks n) answers) as [[[next hAI'] rest]|e];
      [|by destruct Hstep as (? & _ & ?)].
    rewrite !bind_Ok_l.
    destruct Hstep as (Hp & Hd & Hc' & _ & _ & read & -> & Hor).
    destruct Hor as [(-> & _ & HX)|(m & -> & Hm & HX)].
    { split_and!; [|done..|by exists read].
      intros _. apply elem_of_app. by left. }
    destruct (Hnext m Hm) as [Hvm Hrm].
    specialize (IH (S n) m (negb false) cAI hAI' rest Hvm Hcc Hc' Hpc
                  ltac:(congruence) Hrm).
    destruct (game_loop fuel (S n) m (negb false) cAI hAI' picks rest)
      as [[[[[e cAI''] hAI''] rest']|]|e]; [|done|].
    + destruct IH as (HX' & ? & ? & ? & ? & ? & ? & [read' ->]).
      split_and!; [|congruence..|done|done|].
      * intros He. apply elem_of_app. right. by apply HX'.
      * exists (read ++ read'). by rewrite <- app_assoc.
    + destruct IH as [-> HX']. split; [done|].
      by intros [Hin|Hin]%elem_of_app.
Qed.

(** X17 on a game from the position with two greens, the other player
    moving first and answering with a name that is none, then [A3]. *)
Lemma game_loop_safe_witness :
  valid_board open_board ∧
  game_valued (cache fresh_AI) ∧ game_valued (cache fresh_human) ∧
  player fresh_AI = "computer"%string ∧
  player fresh_human ≠ "computer"%string ∧
  (rank open_board < 37)%nat ∧
  match game_loop 37 0 open_board false fresh_AI fresh_human (fun _ => O)
          ["Z9"; "A3"]%string with
  | Ok (Some (e, computer_AI', human_AI', rest)) =>
      (e = Abandoned → "X"%string ∈ ["Z9"; "A3"]%string) ∧
      player computer_AI' = player fresh_AI ∧
      depth computer_AI' = depth fresh_AI ∧
      player human_AI' = player fresh_human ∧
      depth human_AI' = depth fresh_human ∧
      game_valued (cache computer_AI') ∧ game_valued (cache human_AI') ∧
      ∃ read, ["Z9"; "A3"]%string = read ++ rest
  | Ok None => False
  | Raise e => e = OutOfFuel ∧ "X"%string ∉ ["Z9"; "A3"]%string
  end.
Proof.
  assert (Hvalid : valid_board open_board) by sample_valid.
  assert (Hcc : game_valued (cache fresh_AI)).
  { intros h v Hh. simpl in Hh. by rewrite lookup_empty in Hh. }
  assert (Hch : game_valued (cache fresh_human)).
  { intros h v Hh. simpl in Hh. by rewrite lookup_empty in Hh. }
  assert (Hpc : player fresh_AI = "computer"%string) by reflexivity.
  assert (Hph : player fresh_human ≠ "computer"%string) by discriminate.
  assert (Hfuel : (rank open_board < 37)%nat) by (vm_compute; lia).
  split; [exact Hvalid|]. split; [exact Hcc|]. split; [exact Hch|].
  split; [exact Hpc|]. split; [exact Hph|]. split; [exact Hfuel|].
  exact (game_loop_safe 37 0 open_board false fresh_AI fresh_human (fun _ => O)
           ["Z9"; "A3"]%string Hvalid Hcc Hch Hpc Hph Hfuel).
Defined.

Example game_loop_sample :
  game_loop 37 0 open_board false fresh_AI fresh_human (fun _ => O)
    ["Z9"; "A3"; "B1"]%string
  = Ok (Some (HumanWon, fresh_AI,
              {| player := "human"; depth := 0; cache := {[ 21 := PREV ]} |},
              ["B1"%string])).
Proof. vm_compute. reflexivity. Qed.

(** A game in which an all-knowing computer stands to win. *)
Lemma game_loop_keeps_win fuel n board (turn : bool) computer_AI human_AI picks
    answers :
  valid_board board →
  sound (cache computer_AI) → game_valued (cache human_AI) →
  player computer_AI = "computer"%string →
  player human_AI ≠ "computer"%string →
  depth computer_AI < 0 ∨ 36 ≤ depth computer_AI →
  value_of board (if turn then NEXT else PREV) →
  (rank board < fuel)%nat →
  match game_loop fuel n board turn computer_AI human_AI picks answers with
  | Ok (Some (e, computer_AI', human_AI', rest)) =>
      (e = ComputerWon ∨ (e = Abandoned ∧ "X"%string ∈ answers)) ∧
      sound (cache computer_AI')
  | Ok None => False
  | Raise e => e = OutOfFuel ∧ "X"%string ∉ answers
  end.
Proof.
  revert n board turn computer_AI human_AI answers.
  induction fuel as [|fuel IH];
    intros n board turn cAI hAI answers Hvalid Hcc Hch Hpc Hph Hd Hvalue Hfuel;
    [lia|].
  cbn [game_loop].
  destruct (game_moves_valid_total board Hvalid) as [ms Hms].
  rewrite Hms, bind_Ok_l. destruct ms as [|m0 ms0] eqn:Heq.
  { rewrite show_over by done. rewrite bind_Ok_l. split; [|done].
    destruct turn; [|by left].
    inversion Hvalue as [|b ms' m Hms' Hm|]; subst.
    rewrite Hms in Hms'. injection Hms' as <-. by apply elem_of_nil in Hm. }
  rewrite <- Heq in *. assert (Hne : ms ≠ []) by (by subst). clear Heq m0 ms0.
  assert (Hnext : ∀ m, m ∈ ms → valid_board m ∧ (rank m < fuel)%nat).
  { intros m Hm. split; [by eapply game_moves_valid|].
    destruct (game_moves_rank _ _ _ Hms Hm). lia. }
  destruct turn.
  - destruct (game_moves_cells board ms Hms)
      as (cells & -> & Hnodup & Hcells & _).
    destruct (move_computer_omniscient board cAI cells (picks n) answers)
      as (i & c' & Hi & Hmove & Hsound' & Hbest); [done..|by intros ->|done|].
    rewrite Hmove, !bind_Ok_l. specialize (Hbest Hvalue).
    destruct (Hnext (play i board)) as [Hvm Hrm];
      [apply list_elem_of_fmap; by exists i|].
    exact (IH (S n) (play i board) (negb true)
             {| player := player cAI; depth := depth cAI; cache := c' |}
             hAI answers Hvm Hsound' Hch Hpc Hph Hd Hbest Hrm).
  - pose proof (move_step board hAI ms (picks n) answers Hvalid Hch Hms Hne)
      as Hstep.
    destruct (move board hAI (picks n) answers) as [[[next hAI'] rest]|e];
      [|by destruct Hstep as (? & _ & ?)].
    rewrite !bind_Ok_l.
    destruct Hstep as (Hp & _ & Hc' & _ & _ & read & -> & Hor).
    destruct Hor as [(-> & _ & HX)|(m & -> & Hm & HX)].
    { split; [|done]. right. split; [done|]. apply elem_of_app. by left. }
    destruct (Hnext m Hm) as [Hvm Hrm].
    assert (Hwin : value_of m NEXT).
    { inversion Hvalue as [b Hover| |b ms' Hms' _ Hall]; subst.
      - rewrite Hms in Hover. injection Hover as ->. done.
      - rewrite Hms in Hms'. injection Hms' as <-. by apply Hall. }
    specialize (IH (S n) m (negb false) cAI hAI' rest Hvm Hcc Hc' Hpc
                  ltac:(congruence) Hd Hwin Hrm).
    destruct (game_loop fuel (S n) m (negb false) cAI hAI' picks rest)
      as [[[[[e cAI''] hAI''] rest']|]|e]; [|done|].
    + destruct IH as [[-> |[-> HX']] Hsound']; (split; [|done]); [by left|].
      right. split; [done|]. apply elem_of_app. by right.
    + destruct IH as [-> HX']. split; [done|].
      by intros [Hin|Hin]%elem_of_app.
Qed.

(** The position with two greens is won by the player to move. *)
Lemma open_board_won : value_of open_board NEXT.
Proof.
  apply (value_win open_board ((fun i => play i open_board) <$> seq 0 12)
           won_board).
  - vm_compute. reflexivity.
  - apply list_elem_of_fmap. exists 2%nat. split; [reflexivity|].
    apply elem_of_seq. lia.
  - apply value_over. vm_compute. reflexivity.
Qed.

(** X18. A computer that searches to the end and whose cache is right does
    not lose a game in which it stands to win: from a board of the data
    model that the player to move wins under perfect play when the computer
    is to move, or loses when the other player is, the game is never
    reported as won by the other player, whatever is drawn at random and
    whatever is answered. It ends with the computer as winner, or is given
    up by an ["X"] of the other player, or waits for an answer, and the
    cache of the computer is still right at the end. *)
Theorem computer_keeps_win fuel n board (turn : bool) computer_AI human_AI picks
    answers :
  valid_board board →
  sound (cache computer_AI) → game_valued (cache human_AI) →
  player computer_AI = "computer"%string →
  player human_AI ≠ "computer"%string →
  depth computer_AI < 0 ∨ 36 ≤ depth computer_AI →
  value_of board (if turn then NEXT else PREV) →
  (rank board < fuel)%nat →
  (∃ computer_AI' human_AI' rest,
     game_loop fuel n board turn computer_AI human_AI picks answers
     = Ok (Some (ComputerWon, computer_AI', human_AI', rest)) ∧
     sound (cache computer_AI')) ∨
  (∃ computer_AI' human_AI' rest,
     game_loop fuel n board turn computer_AI human_AI picks answers
     = Ok (Some (Abandoned, computer_AI', human_AI', rest)) ∧
     sound (cache computer_AI') ∧ "X"%string ∈ answers) ∨
  (game_loop fuel n board turn computer_AI human_AI picks answers
   = Raise OutOfFuel ∧ "X"%string ∉ answers).
Proof.
  intros Hvalid Hcc Hch Hpc Hph Hd Hvalue Hfuel.
  pose proof (game_loop_keeps_win fuel n board turn computer_AI human_AI picks
                answers Hvalid Hcc Hch Hpc Hph Hd Hvalue Hfuel) as Hrun.
  destruct (game_loop fuel n board turn computer_AI human_AI picks answers)
    as [[[[[e cAI'] hAI'] rest]|]|e]; [|done|].
  - destruct Hrun as [[-> |[-> HX]] Hsound].
    + left. by exists cAI', hAI', rest.
    + right; left. by exists cAI', hAI', rest.
  - destruct Hrun as [-> HX]. by right; right.
Qed.

(** X18 on a game from the position with two greens, the computer to move. *)
Lemma computer_keeps_win_witness :
  valid_board open_board ∧
  sound (cache deep_AI) ∧ game_valued (cache fresh_human) ∧
  player deep_AI = "computer"%string ∧
  player fresh_human ≠ "computer"%string ∧
  (depth deep_AI < 0 ∨ 36 ≤ depth deep_AI) ∧
  value_of open_board (if true then NEXT else PREV) ∧
  (rank open_board < 37)%nat ∧
  ((∃ computer_AI' human_AI' rest,
      game_loop 37 0 open_board true deep_AI fresh_human (fun _ => O) []
      = Ok (Some (ComputerWon, computer_AI', human_AI', rest)) ∧
      sound (cache computer_AI')) ∨
   (∃ computer_AI' human_AI' rest,
      game_loop 37 0 open_board true deep_AI fresh_human (fun _ => O) []
      = Ok (Some (Abandoned, computer_AI', human_AI', rest)) ∧
      sound (cache computer_AI') ∧ "X"%string ∈ @nil string) ∨
   (game_loop 37 0 open_board true deep_AI fresh_human (fun _ => O) []
    = Raise OutOfFuel ∧ "X"%string ∉ @nil string)).
Proof.
  assert (Hvalid : valid_board open_board) by sample_valid.
  assert (Hch : game_valued (cache fresh_human)).
  { intros h v Hh. simpl in Hh. by rewrite lookup_empty in Hh. }
  assert (Hpc : player deep_AI = "computer"%string) by reflexivity.
  assert (Hph : player fresh_human ≠ "computer"%string) by discriminate.
  assert (Hd : depth deep_AI < 0 ∨ 36 ≤ depth deep_AI)
    by (right; vm_compute; discriminate).
  assert (Hfuel : (rank open_board < 37)%nat) by (vm_compute; lia).
  split; [exact Hvalid|]. split; [exact sound_empty|]. split; [exact Hch|].
  split; [exact Hpc|]. split; [exact Hph|]. split; [exact Hd|].
  split; [exact open_board_won|]. split; [exact Hfuel|].
  exact (computer_keeps_win 37 0 open_board true deep_AI fresh_human
           (fun _ => O) [] Hvalid sound_empty Hch Hpc Hph Hd open_board_won
           Hfuel).
Defined.

(** ** [geneate_AIs] *)




Example geneate_AIs_depth0 :
  geneate_AIs 0 0 true
  = Ok ({| player := "computer"; depth := 0; cache := ∅ |},
        {| player := "human"; depth := 0; cache := ∅ |}).
Proof. vm_compute. reflexivity. Qed.

(** ** Loading, then playing *)



(** ** What [show] does with cells that it cannot label *)

Lemma subscript_labelled (t : list string) i :
  - Z.of_nat (length t) ≤ i < Z.of_nat (length t) → ∃ x, subscript t i = Ok x.
Proof.
  intros Hi. unfold subscript. cbv zeta.
  set (j := if bool_decide (i < 0) then i + Z.of_nat (length t) else i).
  assert (0 ≤ j < Z.of_nat (length t)) as Hj
    by (unfold j; case_bool_decide; lia).
  rewrite bool_decide_eq_true_2 by lia.
  destruct (lookup_lt_is_Some_2 t (Z.to_nat j)) as [x ->]; [lia|].
  by exists x.
Qed.

Lemma subscript_unlabelled (t : list string) i :
  ¬ (- Z.of_nat (length t) ≤ i < Z.of_nat (length t)) →
  subscript t i = Raise IndexError.
Proof.
  intros Hi. unfold subscript. cbv zeta.
  set (j := if bool_decide (i < 0) then i + Z.of_nat (length t) else i).
  assert (j < 0 ∨ Z.of_nat (length t) ≤ j) as Hj
    by (unfold j; case_bool_decide; lia).
  case_bool_decide; [|done].
  rewrite lookup_ge_None_2 by lia. done.
Qed.

(** A comprehension over a tuple of labels either builds its list or raises
    [IndexError], and the latter exactly when an index has no label. *)
Lemma subscripts_labelled (t : list string) l :
  (Forall (fun i => - Z.of_nat (length t) ≤ i < Z.of_nat (length t)) l ∧
   ∃ xs, subscripts t l = Ok xs ∧ length xs = length l) ∨
  (Exists (fun i => ¬ (- Z.of_nat (length t) ≤ i < Z.of_nat (length t))) l ∧
   subscripts t l = Raise IndexError).
Proof.
  induction l as [|i l IH].
  { left. split; [constructor|]. by exists []. }
  cbn [subscripts].
  destruct (decide (- Z.of_nat (length t) ≤ i < Z.of_nat (length t)))
    as [Hi|Hi].
  - destruct (subscript_labelled t i Hi) as [x ->]. rewrite bind_Ok_l.
    destruct IH as [[Hall (xs & -> & Hlen)]|[Hex ->]].
    + left. split; [by constructor|]. rewrite bind_Ok_l.
      exists (x :: xs). split; [done|]. simpl. by rewrite Hlen.
    + right. split; [by apply Exists_cons_tl|done].
  - right. split; [by apply Exists_cons_hd|].
    by rewrite subscript_unlabelled.
Qed.

Lemma show_row_labelled board values a b :
  (Forall (fun i => -4 ≤ i ≤ 3) (slice board a b ++ slice values a b) ∧
   ∃ R, show_row board values a b = Ok R ∧
        length R = (length (slice board a b) + length (slice values a b))%nat) ∨
  (Exists (fun i => ¬ (-4 ≤ i ≤ 3)) (slice board a b ++ slice values a b) ∧
   show_row board values a b = Raise IndexError).
Proof.
  unfold show_row.
  destruct (subscripts_labelled show_B (slice board a b))
    as [[Hb (bs & -> & Hbs)]|[Hb ->]].
  - rewrite bind_Ok_l.
    destruct (subscripts_labelled show_V (slice values a b))
      as [[Hv (vs & -> & Hvs)]|[Hv ->]].
    + left. split.
      * apply Forall_app. split; (eapply Forall_impl; [done|]); simpl; lia.
      * rewrite bind_Ok_l. exists (bs ++ vs). split; [done|].
        rewrite length_app. lia.
    + right. split; [|done]. apply Exists_app. right.
      eapply Exists_impl; [done|]. simpl. lia.
  - right. split; [|done]. apply Exists_app. left.
    eapply Exists_impl; [done|]. simpl. lia.
Qed.

Lemma take_12_slices {A} (l : list A) :
  take 12 l = slice l 0 4 ++ slice l 4 8 ++ slice l 8 12.
Proof.
  unfold slice. do 12 (destruct l as [|? l]; [done|]). done.
Qed.

Lemma format_short pieces (args : list string) :
  (S (length args) < length pieces)%nat → format pieces args = Raise IndexError.
Proof.
  revert args. induction pieces as [|p pieces IH]; intros args Hlen.
  - simpl in Hlen. lia.
  - destruct pieces as [|p' pieces]; [simpl in Hlen; lia|].
    destruct args as [|a args]; [done|].
    cbn [format] in *. rewrite IH; [done|]. simpl in *. lia.
Qed.

(** X21. When one of the first twelve cells of the board, or of the first
    twelve values, is not an index of the four labels, that is outside -4
    to 3, [show] raises [IndexError] and prints nothing, not even the frame:
    the three rows are built before the first line is printed. *)
Theorem show_unlabelled board values :
  Exists (fun i => ¬ (-4 ≤ i ≤ 3)) (take 12 board ++ take 12 values) →
  show board values = ([], Raise IndexError).
Proof.
  intros Hex. unfold show.
  destruct (show_row_labelled board values 0 4) as [[H1 (R1 & -> & _)]|[_ ->]];
    [|done].
  rewrite bind_Ok_l.
  destruct (show_row_labelled board values 4 8) as [[H2 (R2 & -> & _)]|[_ ->]];
    [|done].
  rewrite bind_Ok_l.
  destruct (show_row_labelled board values 8 12) as [[H3 (R3 & -> & _)]|[_ ->]];
    [|done].
  exfalso. rewrite !take_12_slices in Hex.
  apply Forall_app in H1 as [? ?]. apply Forall_app in H2 as [? ?].
  apply Forall_app in H3 as [? ?].
  rewrite !Exists_app in Hex.
  destruct Hex as [[Hex|[Hex|Hex]]|[Hex|[Hex|Hex]]];
    apply Exists_exists in Hex as (i & Hi & Hbad); apply Hbad;
    match goal with
    | H : Forall _ ?l, Hi : i ∈ ?l |- _ =>
        exact (proj1 (Forall_forall _ _) H i Hi)
    end.
Qed.

(** X21 on the empty board with a value 4 in the first place. *)
Lemma show_unlabelled_witness :
  Exists (fun i => ¬ (-4 ≤ i ≤ 3))
    (take 12 empty_board ++ take 12 (4 :: replicate 11 ILLEGAL)) ∧
  show empty_board (4 :: replicate 11 ILLEGAL) = ([], Raise IndexError).
Proof.
  assert (Hex : Exists (fun i => ¬ (-4 ≤ i ≤ 3))
                  (take 12 empty_board ++ take 12 (4 :: replicate 11 ILLEGAL))).
  { apply Exists_app. right. apply Exists_cons_hd. lia. }
  split; [exact Hex|].
  exact (show_unlabelled empty_board (4 :: replicate 11 ILLEGAL) Hex).
Defined.

(** X22. When the cells and values have labels but the board or the values
    have fewer than four entries, the slices of the first row are too short
    for the fields of its line: [show] prints the three lines above it and
    then raises [IndexError]. *)
Theorem show_short board values :
  Forall (fun i => -4 ≤ i ≤ 3) (take 12 board ++ take 12 values) →
  (length board < 4)%nat ∨ (length values < 4)%nat →
  show board values = ([show_top; show_head; show_open], Raise IndexError).
Proof.
  intros Hall Hshort. unfold show. rewrite !take_12_slices in Hall.
  rewrite !Forall_app in Hall.
  destruct Hall as [(Hb1 & Hb2 & Hb3) (Hv1 & Hv2 & Hv3)].
  assert (Hrow : ∀ a b, Forall (fun i => -4 ≤ i ≤ 3) (slice board a b) →
            Forall (fun i => -4 ≤ i ≤ 3) (slice values a b) →
            ∃ R, show_row board values a b = Ok R ∧
              length R = (length (slice board a b)
                          + length (slice values a b))%nat).
  { intros a b Hb Hv.
    destruct (show_row_labelled board values a b) as [[_ HR]|[Hex _]]; [done|].
    exfalso. apply Exists_app in Hex as [Hex|Hex];
      apply Exists_exists in Hex as (i & Hi & Hbad); apply Hbad;
      match goal with
      | H : Forall _ ?l, Hi : i ∈ ?l |- _ =>
          exact (proj1 (Forall_forall _ _) H i Hi)
      end. }
  destruct (Hrow 0%nat 4%nat Hb1 Hv1) as (R1 & -> & Hlen1).
  destruct (Hrow 4%nat 8%nat Hb2 Hv2) as (R2 & -> & _).
  destruct (Hrow 8%nat 12%nat Hb3 Hv3) as (R3 & -> & _).
  rewrite !bind_Ok_l. cbn [print_all].
  rewrite (format_short show_A R1); [done|].
  rewrite Hlen1. unfold slice. rewrite !length_take, !length_drop.
  change (length show_A) with 9%nat. lia.
Qed.

(** X22 on a board of three cells. *)
Lemma show_short_witness :
  Forall (fun i => -4 ≤ i ≤ 3)
    (take 12 [1; 1; 1] ++ take 12 (replicate 12 ILLEGAL)) ∧
  ((length [1; 1; 1] < 4)%nat ∨ (length (replicate 12 ILLEGAL) < 4)%nat) ∧
  show [1; 1; 1] (replicate 12 ILLEGAL)
  = ([show_top; show_head; show_open], Raise IndexError).
Proof.
  assert (Hall : Forall (fun i => -4 ≤ i ≤ 3)
                   (take 12 [1; 1; 1] ++ take 12 (replicate 12 ILLEGAL))).
  { apply Forall_app. split; [repeat constructor; lia|].
    apply Forall_take, Forall_replicate. unfold ILLEGAL. lia. }
  assert (Hshort : (length [1; 1; 1] < 4)%nat
                   ∨ (length (replicate 12 ILLEGAL) < 4)%nat)
    by (left; simpl; lia).
  split; [exact Hall|]. split; [exact Hshort|].
  exact (show_short [1; 1; 1] (replicate 12 ILLEGAL) Hall Hshort).
Defined.
